(** * Page access control of the Notion MCP server

    A shallow embedding of [PageAccessController]
    (src/openapi-mcp-server/auth/page-access-control.ts, multi-root
    variant) and the properties of its identifier normaliser, root-set
    construction, parent resolution, hierarchy walk, result cache and
    request mapping, together with the part of [parseArgs]
    (scripts/start-server.ts) that feeds the controller.

    Conventions of the embedding.
    - A JavaScript string is a [string]; the development covers ASCII
      text, so [toLowerCase] only moves 'A'..'Z' and [trim] strips the
      ASCII white space characters.
    - [Set<string>] of root ids is a [gset string]; the [visited] set of
      the walk is a duplicate-free list in insertion order (what
      [forEach] iterates over); the page cache is a [gmap].
    - [string | null] is [option string]; JavaScript truthiness of such a
      value (neither [null] nor the empty string) is [truthy].
    - An [async] method is a function from the controller state to an
      outcome: a returned value or a thrown error together with the new
      state.  The unbounded recursion and the [while] loop take a fuel
      argument; [OutOfFuel] stands for a run that has not finished within
      that many steps. *)

From Stdlib Require Import Ascii String.
From stdpp Require Import gmap strings list fin_maps.

Set Default Proof Using "Type".
Set Warnings "-clear-no-such-hyp".

(** ** JavaScript strings *)

Module JsString.

Definition chars (s : string) : list ascii := String.list_ascii_of_string s.
Definition str (l : list ascii) : string := String.string_of_list_ascii l.

Definition is_upper (c : ascii) : bool :=
  let n := nat_of_ascii c in (65 <=? n) && (n <=? 90).

Definition lower (c : ascii) : ascii :=
  if is_upper c then ascii_of_nat (nat_of_ascii c + 32) else c.

Definition is_dash (c : ascii) : bool := bool_decide (c = "-"%char).

Definition is_digit (c : ascii) : bool :=
  let n := nat_of_ascii c in (48 <=? n) && (n <=? 57).

(** [[a-f0-9]] without the [i] flag. *)
Definition is_hex (c : ascii) : bool :=
  let n := nat_of_ascii c in is_digit c || ((97 <=? n) && (n <=? 102)).

(** [[a-f0-9]] under the [i] flag. *)
Definition is_hex_i (c : ascii) : bool :=
  let n := nat_of_ascii c in is_hex c || ((65 <=? n) && (n <=? 70)).

(** [s.replace(/-/g, '')] *)
Definition remove_dashes (s : string) : string :=
  str (List.filter (λ c, negb (is_dash c)) (chars s)).

(** [s.toLowerCase()] *)
Definition toLowerCase (s : string) : string := str (List.map lower (chars s)).

(** [s.slice(a, b)] for [0 <= a <= b]. *)
Definition slice (a b : nat) (s : string) : string :=
  str (take (b - a) (drop a (chars s))).

(** [s.slice(a)] *)
Definition slice_from (a : nat) (s : string) : string := str (drop a (chars s)).

Fixpoint drop_space (l : list ascii) : list ascii :=
  match l with
  | c :: t => if Ascii.is_space c then drop_space t else l
  | [] => []
  end.

(** [s.trim()] *)
Definition trim (s : string) : string :=
  str (rev (drop_space (rev (drop_space (chars s))))).

Fixpoint split_go (cur : list ascii) (l : list ascii) : list string :=
  match l with
  | [] => [str (rev cur)]
  | c :: t =>
      if bool_decide (c = ","%char) then str (rev cur) :: split_go [] t
      else split_go (c :: cur) t
  end.

(** [s.split(',')] *)
Definition split_comma (s : string) : list string := split_go [] (chars s).

Definition non_empty (s : string) : bool := negb (bool_decide (s = "")).

Fixpoint is_prefix (p s : list ascii) : bool :=
  match p, s with
  | [], _ => true
  | c :: p', d :: s' => bool_decide (c = d) && is_prefix p' s'
  | _ :: _, [] => false
  end.

Fixpoint includes_from (needle s : list ascii) : bool :=
  is_prefix needle s ||
  match s with
  | [] => false
  | _ :: t => includes_from needle t
  end.

(** [s.includes(needle)] *)
Definition includes (needle s : string) : bool :=
  includes_from (chars needle) (chars s).

End JsString.
Import JsString.

(** ** Errors and results *)

Inductive Error :=
| InvalidPageIdFormat (pageId : string)      (* `Invalid page ID format: ${pageId}` *)
| InvalidNotionPageUrl (url : string)        (* `Invalid Notion page URL format: ${url}` *)
| UpstreamError (msg : string).              (* whatever the HTTP client throws *)

Inductive Result (A : Type) :=
| Ok (a : A)
| Throw (e : Error).
Arguments Ok {A} a.
Arguments Throw {A} e.

Definition is_ok {A} (r : Result A) : bool :=
  match r with Ok _ => true | Throw _ => false end.

(** ** Identifier normaliser *)

(** The template literal of [normalizePageId]. *)
Definition add_dashes (cleanId : string) : string :=
  slice 0 8 cleanId +:+ "-" +:+ slice 8 12 cleanId +:+ "-" +:+
  slice 12 16 cleanId +:+ "-" +:+ slice 16 20 cleanId +:+ "-" +:+
  slice_from 20 cleanId.

(** The five groups that the template literal cuts out of [cleanId]. *)
Definition group (i : nat) (l : list ascii) : list ascii :=
  match i with
  | 0 => take 8 l
  | 1 => take 4 (drop 8 l)
  | 2 => take 4 (drop 12 l)
  | 3 => take 4 (drop 16 l)
  | _ => drop 20 l
  end.

Definition clean (pageId : string) : string := toLowerCase (remove_dashes pageId).

Definition normalizePageId (pageId : string) : Result string :=
  let cleanId := clean pageId in
  if negb (String.length cleanId =? 32) then Throw (InvalidPageIdFormat pageId)
  else Ok (add_dashes cleanId).

(** The regular expression of [extractPageIdFromUrl],
    [/([a-f0-9]{32}|[a-f0-9]{8}-[a-f0-9]{4}-[a-f0-9]{4}-[a-f0-9]{4}-[a-f0-9]{12})$/i]:
    [match_hex n] consumes [[a-f0-9]{n}], [match_dash] one hyphen, and
    [at_end] is [$]. *)
Fixpoint match_class (ok : ascii → bool) (n : nat) (cs : list ascii)
    : option (list ascii) :=
  match n with
  | 0 => Some cs
  | S n' =>
      match cs with
      | c :: t => if ok c then match_class ok n' t else None
      | [] => None
      end
  end.

Definition match_hex : nat → list ascii → option (list ascii) := match_class is_hex_i.

Definition match_dash (cs : list ascii) : option (list ascii) :=
  match cs with
  | c :: t => if is_dash c then Some t else None
  | [] => None
  end.

Definition at_end (r : option (list ascii)) : bool :=
  match r with Some [] => true | _ => false end.

Definition alt_plain (cs : list ascii) : bool := at_end (match_hex 32 cs).

(** A sequence of pattern pieces, matched one after the other. *)
Fixpoint match_seq (ps : list (list ascii → option (list ascii)))
    (cs : list ascii) : option (list ascii) :=
  match ps with
  | [] => Some cs
  | p :: ps' => match p cs with Some rest => match_seq ps' rest | None => None end
  end.

Definition alt_dashed (cs : list ascii) : bool :=
  at_end (match_seq [match_hex 8; match_dash; match_hex 4; match_dash;
                     match_hex 4; match_dash; match_hex 4; match_dash;
                     match_hex 12] cs).

(** The 8-4-4-4-12 layout over a character class. *)
Definition dashed_layout (ok : ascii → bool) (s : string) : bool :=
  at_end (match_seq [match_class ok 8; match_dash; match_class ok 4; match_dash;
                     match_class ok 4; match_dash; match_class ok 4; match_dash;
                     match_class ok 12] (chars s)).

(** Canonical resource id: 36 characters, lower-case hexadecimal groups. *)
Definition is_canonical (s : string) : bool := dashed_layout is_hex s.

(** What [normalizePageId] guarantees of its output whatever the input:
    the layout, over characters that are neither hyphens nor capitals. *)
Definition is_plain (c : ascii) : bool := negb (is_dash c) && negb (is_upper c).
Definition is_normal_form (s : string) : bool := dashed_layout is_plain s.

(** The normaliser as the specification words it, with the test for
    hexadecimal digits that the source does not make. *)
Definition normalize_spec (raw : string) : Result string :=
  let rest := toLowerCase (remove_dashes raw) in
  if (String.length rest =? 32) && forallb is_hex (chars rest)
  then Ok (add_dashes rest)
  else Throw (InvalidPageIdFormat raw).

(** Leftmost match: the start positions are tried from the left, the two
    alternatives in order at each of them. *)
Fixpoint regex_match (cs : list ascii) : option string :=
  if alt_plain cs || alt_dashed cs then Some (str cs)
  else match cs with
       | _ :: t => regex_match t
       | [] => None
       end.

(** The texts that the group of the regular expression captures: 32
    hexadecimal digits, or the hyphenated form, in either case. *)
Definition is_page_id_text (s : string) : bool :=
  alt_plain (chars s) || alt_dashed (chars s).

Definition extractPageIdFromUrl (url : string) : Result string :=
  match regex_match (chars url) with
  | None => Throw (InvalidNotionPageUrl url)
  | Some m => normalizePageId m
  end.

(** ** Root set construction *)

Record PageAccessControlOptions := {
  pageIds : option (list string);
  pageUrls : option (list string)
}.

(** [process.env], restricted to the two variables that are read. *)
Record ProcessEnv := {
  NOTION_ROOT_PAGE_ID : option string;
  NOTION_ROOT_PAGE_URL : option string
}.

(** What [console.error] receives during construction. *)
Inductive LogEntry :=
| InvalidPageUrl (pageUrl : string) (error : Error)
| InvalidPageUrlFromEnv (pageUrl : string) (error : Error).

(** The state of the constructor: the set being built and the log. *)
Record InitState := {
  allPageIds : gset string;
  logged : list LogEntry
}.

Definition add_id (id : string) (s : InitState) : InitState :=
  {| allPageIds := {[id]} ∪ allPageIds s; logged := logged s |}.

Definition log_error (e : LogEntry) (s : InitState) : InitState :=
  {| allPageIds := allPageIds s; logged := logged s ++ [e] |}.

(** [for (const pageId of options.pageIds)]: no [try] around the call of
    [normalizePageId], so its exception leaves the constructor. *)
Fixpoint add_option_ids (ids : list string) (s : InitState) : Result InitState :=
  match ids with
  | [] => Ok s
  | pageId :: rest =>
      if non_empty (trim pageId) then
        match normalizePageId (trim pageId) with
        | Ok id => add_option_ids rest (add_id id s)
        | Throw e => Throw e
        end
      else add_option_ids rest s
  end.

(** [for (const pageUrl of options.pageUrls)]: [try]/[catch] per entry. *)
Fixpoint add_option_urls (urls : list string) (s : InitState) : InitState :=
  match urls with
  | [] => s
  | pageUrl :: rest =>
      if non_empty (trim pageUrl) then
        match extractPageIdFromUrl (trim pageUrl) with
        | Ok id => add_option_urls rest (add_id id s)
        | Throw e => add_option_urls rest (log_error (InvalidPageUrl pageUrl e) s)
        end
      else add_option_urls rest s
  end.

(** [v?.split(',').map(x => x.trim()).filter(x => x.length > 0) || []] *)
Definition env_list (v : option string) : list string :=
  match v with
  | Some x => List.filter non_empty (List.map trim (split_comma x))
  | None => []
  end.

Fixpoint add_env_ids (ids : list string) (s : InitState) : Result InitState :=
  match ids with
  | [] => Ok s
  | pageId :: rest =>
      match normalizePageId pageId with
      | Ok id => add_env_ids rest (add_id id s)
      | Throw e => Throw e
      end
  end.

Fixpoint add_env_urls (urls : list string) (s : InitState) : InitState :=
  match urls with
  | [] => s
  | pageUrl :: rest =>
      match extractPageIdFromUrl pageUrl with
      | Ok id => add_env_urls rest (add_id id s)
      | Throw e => add_env_urls rest (log_error (InvalidPageUrlFromEnv pageUrl e) s)
      end
  end.

Definition initializeRootPages (options : PageAccessControlOptions)
    (env : ProcessEnv) : Result InitState :=
  let s0 := {| allPageIds := ∅; logged := [] |} in
  match add_option_ids (default [] (pageIds options)) s0 with
  | Throw e => Throw e
  | Ok s1 =>
      let s2 := add_option_urls (default [] (pageUrls options)) s1 in
      if size (allPageIds s2) =? 0 then
        let envPageIds := env_list (NOTION_ROOT_PAGE_ID env) in
        let envPageUrls := env_list (NOTION_ROOT_PAGE_URL env) in
        match add_env_ids envPageIds s2 with
        | Throw e => Throw e
        | Ok s3 => Ok (add_env_urls envPageUrls s3)
        end
      else Ok s2
  end.

(** The explicit options contribute no root: every id entry is blank and
    every URL entry is blank or malformed.  This is when the constructor
    falls back on the environment. *)
Definition no_explicit_root (options : PageAccessControlOptions) : Prop :=
  Forall (λ id, non_empty (trim id) = false) (default [] (pageIds options)) ∧
  Forall (λ url, non_empty (trim url) = true →
                 is_ok (extractPageIdFromUrl (trim url)) = false)
         (default [] (pageUrls options)).

(** The id entries that the constructor normalises are well formed. *)
Definition ids_well_formed (options : PageAccessControlOptions)
    (env : ProcessEnv) : Prop :=
  Forall (λ id, non_empty (trim id) = true →
                is_ok (normalizePageId (trim id)) = true)
         (default [] (pageIds options)) ∧
  (no_explicit_root options →
   Forall (λ id, is_ok (normalizePageId id) = true)
          (env_list (NOTION_ROOT_PAGE_ID env))).

(** Every id collected so far satisfies [Q]. *)
Definition roots_satisfy (Q : string → Prop) (s : InitState) : Prop :=
  ∀ id, id ∈ allPageIds s → Q id.

(** ** The remote metadata provider *)

(** [operationId] of the three operations handed to [executeOperation]. *)
Inductive Operation := retrieve_a_page | retrieve_a_block | retrieve_a_database.

(** The [parent] field of a response: the three shapes the controller
    inspects, and everything else (for instance [workspace]). *)
Inductive Parent :=
| page_id (id : string)
| database_id (id : string)
| block_id (id : string)
| other_parent.

(** [httpClient.executeOperation(operation, {..._id: id})]: it throws, or
    answers with [response.data?.parent] ([None] when there is none). *)
Definition HttpClient := Operation → string → Result (option Parent).

(** ** Controller state and the monad of its methods *)

Record CacheEntry := {
  parentId : option string;
  isAllowed : bool
}.

Record State := {
  pageCache : gmap string CacheEntry;
  calls : list (Operation * string)    (* provider calls so far, latest first *)
}.

Definition fresh : State := {| pageCache := ∅; calls := [] |}.

Inductive Outcome (A : Type) :=
| OutOfFuel
| Done (r : Result A) (st : State).
Arguments OutOfFuel {A}.
Arguments Done {A} r st.

Definition M (A : Type) : Type := State → Outcome A.

Definition ret {A} (a : A) : M A := λ st, Done (Ok a) st.
Definition throw {A} (e : Error) : M A := λ st, Done (Throw e) st.
Definition out_of_fuel {A} : M A := λ _, OutOfFuel.

Definition bind {A B} (m : M A) (f : A → M B) : M B := λ st,
  match m st with
  | OutOfFuel => OutOfFuel
  | Done (Ok a) st' => f a st'
  | Done (Throw e) st' => Done (Throw e) st'
  end.

(** [try { m } catch (error) { h error }] *)
Definition try_catch {A} (m : M A) (h : Error → M A) : M A := λ st,
  match m st with
  | Done (Throw e) st' => h e st'
  | o => o
  end.

Definition lift {A} (r : Result A) : M A := λ st, Done r st.

Declare Scope js_scope.
Delimit Scope js_scope with js.
Notation "'let*' x ':=' m 'in' k" := (bind m (λ x, k))
  (at level 10, x name, m at level 100, k at level 200) : js_scope.
Notation "m ';;;' k" := (bind m (λ _, k))
  (at level 100, k at level 200, right associativity) : js_scope.
Open Scope js_scope.

(** [this.pageCache.set(id, entry)] *)
Definition cache_set (id : string) (e : CacheEntry) : M unit := λ st,
  Done (Ok tt) {| pageCache := <[id := e]> (pageCache st); calls := calls st |}.

(** [this.pageCache.get(id)] *)
Definition cache_get (id : string) : M (option CacheEntry) := λ st,
  Done (Ok (pageCache st !! id)) st.

(** [relocate st o]: the outcome [o] of a run from the fresh state, seen
    from [st]: same result, the cache of [st], the new calls on top of
    those of [st]. *)
Definition relocate {A} (st : State) (o : Outcome A) : Outcome A :=
  match o with
  | OutOfFuel => OutOfFuel
  | Done r s => Done r {| pageCache := pageCache st; calls := calls s ++ calls st |}
  end.

(** A method that only queries the provider: it neither reads nor writes
    the cache, and what it does is independent of the calls made before. *)
Definition lookup_only {A} (m : M A) : Prop :=
  ∀ st, m st = relocate st (m fresh).

(** A method that never lets an exception out. *)
Definition never_throws {A} (m : M A) : Prop :=
  ∀ st e st', m st ≠ Done (Throw e) st'.

(** [m'] finishes wherever [m] does, with the same outcome. *)
Definition finishes_as {A} (m m' : M A) : Prop :=
  ∀ st r st', m st = Done r st' → m' st = Done r st'.

(** Every key of the cache satisfies [P]. *)
Definition keys_satisfy (P : string → Prop) (st : State) : Prop :=
  ∀ k, is_Some (pageCache st !! k) → P k.

(** Every page id that the provider reports as a parent satisfies [P]. *)
Definition provider_reports (P : string → Prop)
    (httpClient : HttpClient) : Prop :=
  ∀ op id p, httpClient op id = Ok (Some (page_id p)) → P p.

(** [st'] comes after [st]: provider calls were added on top of those of
    [st], and every id that had a cache entry still has one. *)
Definition state_grows (st st' : State) : Prop :=
  (∃ l, calls st' = l ++ calls st) ∧
  (∀ k, is_Some (pageCache st !! k) → is_Some (pageCache st' !! k)).

(** JavaScript truthiness of a [string | null]. *)
Definition truthy (v : option string) : bool :=
  match v with Some s => non_empty s | None => false end.

(** The state after one more provider call. *)
Definition called (op : Operation) (id : string) (st : State) : State :=
  {| pageCache := pageCache st; calls := (op, id) :: calls st |}.

(** The ids of the page lookups among the provider calls [l]. *)
Fixpoint page_lookups (l : list (Operation * string)) : list string :=
  match l with
  | [] => []
  | (retrieve_a_page, id) :: l' => id :: page_lookups l'
  | _ :: l' => page_lookups l'
  end.

(** ** The controller *)

Section Controller.

Variable rootPageIds : gset string.
Variable httpClient : HttpClient.

(** [await this.httpClient.executeOperation(operation, {id})], followed
    by the read of [response.data?.parent]. *)
Definition executeOperation (op : Operation) (id : string) : M (option Parent) :=
  λ st,
    Done (httpClient op id)
         {| pageCache := pageCache st; calls := (op, id) :: calls st |}.

Definition isEnabled : bool := 0 <? size rootPageIds.

(** [resolveBlockToPage] and [getDatabaseParent] call each other without
    a bound; every call spends one unit of fuel. *)
Fixpoint resolveBlockToPage (fuel : nat) (blockId : string) : M (option string) :=
  match fuel with
  | 0 => out_of_fuel
  | S fuel' =>
      try_catch
        (let* blockData := executeOperation retrieve_a_block blockId in
         match blockData with
         | Some (page_id p) => ret (Some p)
         | Some (block_id b) => resolveBlockToPage fuel' b
         | Some (database_id d) => getDatabaseParent fuel' d
         | _ => ret None
         end)
        (λ _, ret None)
  end
with getDatabaseParent (fuel : nat) (databaseId : string) : M (option string) :=
  match fuel with
  | 0 => out_of_fuel
  | S fuel' =>
      try_catch
        (let* dbData := executeOperation retrieve_a_database databaseId in
         match dbData with
         | Some (page_id p) => ret (Some p)
         | Some (block_id b) => resolveBlockToPage fuel' b
         | _ => ret None
         end)
        (λ _, ret None)
  end.

Definition getParentPageId (fuel : nat) (pageId : string) : M (option string) :=
  try_catch
    (let* pageData := executeOperation retrieve_a_page pageId in
     match pageData with
     | Some (page_id p) => ret (Some p)
     | Some (database_id d) => getDatabaseParent fuel d
     | Some (block_id b) => resolveBlockToPage fuel b
     | _ => ret None
     end)
    (λ error, throw error).

(** A [try] block of [findRootPageForResource] either returns from the
    method ([Some v]) or falls through to the next block ([None]). *)
Definition findRootPageForResource (fuel : nat) (resourceId : string)
    : M (option string) :=
  try_catch
    (let* r1 :=
       try_catch
         (executeOperation retrieve_a_page resourceId ;;;
          ret (Some (Some resourceId)))
         (λ _, ret None) in
     match r1 with
     | Some v => ret v
     | None =>
         let* r2 :=
           try_catch
             (let* parentPageId := getDatabaseParent fuel resourceId in
              if truthy parentPageId then ret (Some parentPageId) else ret None)
             (λ _, ret None) in
         match r2 with
         | Some v => ret v
         | None =>
             let* r3 :=
               try_catch
                 (let* parentPageId := resolveBlockToPage fuel resourceId in
                  if truthy parentPageId then ret (Some parentPageId) else ret None)
                 (λ _, ret None) in
             match r3 with
             | Some v => ret v
             | None => ret None
             end
         end
     end)
    (λ _, ret None).

(** [visited.forEach(id => this.pageCache.set(id, entry))] *)
Fixpoint cache_all (ids : list string) (e : CacheEntry) : M unit :=
  match ids with
  | [] => ret tt
  | id :: rest => cache_set id e ;;; cache_all rest e
  end.

(** [visited.forEach(id => { if (!this.pageCache.has(id)) ...set(id, entry) })] *)
Fixpoint cache_missing (ids : list string) (e : CacheEntry) : M unit :=
  match ids with
  | [] => ret tt
  | id :: rest =>
      let* c := cache_get id in
      (if c is None then cache_set id e else ret tt) ;;;
      cache_missing rest e
  end.

(** How one pass through the body of the [while] loop ends. *)
Inductive LoopStep :=
| Continue (parentId : option string)   (* currentPageId = parentId *)
| Break
| Return (b : bool).

Definition denied : CacheEntry := {| parentId := None; isAllowed := false |}.
Definition granted : CacheEntry := {| parentId := None; isAllowed := true |}.

(** The body of the loop after [visited.add(currentPageId)]. *)
Definition loop_body (fuel : nat) (visited : list string)
    (currentPageId : string) : M LoopStep :=
  if bool_decide (currentPageId ∈ rootPageIds) then
    cache_all visited granted ;;; ret (Return true)
  else
    try_catch
      (let* parentId := getParentPageId fuel currentPageId in
       cache_set currentPageId {| parentId := parentId; isAllowed := false |} ;;;
       if truthy parentId then ret (Continue parentId) else ret Break)
      (λ _, cache_set currentPageId denied ;;; ret (Return false)).

(** The statements after the loop. *)
Definition after_loop (visited : list string) : M bool :=
  cache_missing visited denied ;;; ret false.

(** [while (currentPageId && !visited.has(currentPageId))] *)
Fixpoint hierarchy_loop (fuel : nat) (visited : list string)
    (currentPageId : option string) : M bool :=
  match fuel with
  | 0 => out_of_fuel
  | S fuel' =>
      match currentPageId with
      | Some cur =>
          if non_empty cur && negb (bool_decide (cur ∈ visited)) then
            let visited' := visited ++ [cur] in
            let* step := loop_body fuel' visited' cur in
            match step with
            | Continue parentId => hierarchy_loop fuel' visited' parentId
            | Break => after_loop visited'
            | Return b => ret b
            end
          else after_loop visited
      | None => after_loop visited
      end
  end.

Definition checkPageHierarchy (fuel : nat) (pageId : string) : M bool :=
  hierarchy_loop fuel [] (Some pageId).

Definition isPageAllowed (fuel : nat) (resourceId : string) : M bool :=
  if negb isEnabled then ret true
  else
    let* normalizedResourceId := lift (normalizePageId resourceId) in
    if bool_decide (normalizedResourceId ∈ rootPageIds) then ret true
    else
      let* cached := cache_get normalizedResourceId in
      match cached with
      | Some entry => ret (isAllowed entry)
      | None =>
          let* actualPageId := findRootPageForResource fuel normalizedResourceId in
          if negb (truthy actualPageId) then
            cache_set normalizedResourceId denied ;;; ret false
          else
            let* allowed := checkPageHierarchy fuel (default "" actualPageId) in
            cache_set normalizedResourceId
              {| parentId := actualPageId; isAllowed := allowed |} ;;;
            ret allowed
      end.

(** The lookup that follows the answer [r] to the lookup [op]: where
    [getParentPageId], [resolveBlockToPage] and [getDatabaseParent]
    delegate to one another. *)
Definition next_hop (op : Operation) (r : Result (option Parent))
    : option (Operation * string) :=
  match op, r with
  | retrieve_a_page, Ok (Some (database_id d)) => Some (retrieve_a_database, d)
  | retrieve_a_page, Ok (Some (block_id b)) => Some (retrieve_a_block, b)
  | retrieve_a_block, Ok (Some (block_id b)) => Some (retrieve_a_block, b)
  | retrieve_a_block, Ok (Some (database_id d)) => Some (retrieve_a_database, d)
  | retrieve_a_database, Ok (Some (block_id b)) => Some (retrieve_a_block, b)
  | _, _ => None
  end.

(** [resolves_in op id n]: in the provider's graph, the chain of
    delegations that starts with the lookup [op] of [id] ends after [n]
    further lookups (at a page parent, at no parent, or at a failure). *)
Inductive resolves_in : Operation → string → nat → Prop :=
| resolves_end op id :
    next_hop op (httpClient op id) = None → resolves_in op id 0
| resolves_hop op id op' id' n :
    next_hop op (httpClient op id) = Some (op', id') →
    resolves_in op' id' n → resolves_in op id (S n).

(** The method behind each lookup. *)
Definition resolver (op : Operation) : nat → string → M (option string) :=
  match op with
  | retrieve_a_page => getParentPageId
  | retrieve_a_block => resolveBlockToPage
  | retrieve_a_database => getDatabaseParent
  end.

(** [climbs f a n b]: the page-level parent chain of [a], as
    [getParentPageId] reads it off the provider (each lookup finishing
    within [f] delegations), reaches a root after [n] hops ([b = true]),
    or reaches a page without parent after [n] hops without meeting a
    root ([b = false]). *)
Inductive climbs (f : nat) : string → nat → bool → Prop :=
| climbs_root a :
    non_empty a = true → a ∈ rootPageIds → climbs f a 0 true
| climbs_top a p s :
    non_empty a = true → a ∉ rootPageIds →
    getParentPageId f a fresh = Done (Ok p) s → truthy p = false →
    climbs f a 0 false
| climbs_hop a p s n b :
    non_empty a = true → a ∉ rootPageIds →
    getParentPageId f a fresh = Done (Ok (Some p)) s → non_empty p = true →
    climbs f p n b → climbs f a (S n) b.

(** The chain that [isPageAllowed] follows from a normalised resource
    id: the id itself, the page that the kind probe finds for it, and
    the page-level chain of that page.  A resource for which the probe
    finds no page has a chain that ends at once without a root.  Only
    the id and the pages are compared with the root set, never a block
    or database that the probe or [getParentPageId] passes. *)
Inductive chain_ends (f : nat) (id : string) : nat → bool → Prop :=
| chain_at_root :
    id ∈ rootPageIds → chain_ends f id 0 true
| chain_unknown p s :
    id ∉ rootPageIds →
    findRootPageForResource f id fresh = Done (Ok p) s → truthy p = false →
    chain_ends f id 0 false
| chain_walk a s n b :
    id ∉ rootPageIds →
    findRootPageForResource f id fresh = Done (Ok (Some a)) s →
    non_empty a = true → climbs f a n b → chain_ends f id n b.

(** [reaches f a v]: the page [v] lies on the way up from the page [a],
    which goes from a page that is no root to its parent page. *)
Inductive reaches (f : nat) : string → string → Prop :=
| reaches_here a : reaches f a a
| reaches_up a p s v :
    a ∉ rootPageIds →
    getParentPageId f a fresh = Done (Ok (Some p)) s → non_empty p = true →
    reaches f p v → reaches f a v.

(** *** The parent links of the provider *)

(** [parent_link op id op' id']: the answer of the provider to the
    lookup [op] of [id] names the resource [id'], of the kind that [op']
    looks up, as the parent. *)
Inductive parent_link : Operation → string → Operation → string → Prop :=
| link_page op id p :
    httpClient op id = Ok (Some (page_id p)) →
    parent_link op id retrieve_a_page p
| link_database op id d :
    httpClient op id = Ok (Some (database_id d)) →
    parent_link op id retrieve_a_database d
| link_block op id b :
    httpClient op id = Ok (Some (block_id b)) →
    parent_link op id retrieve_a_block b.

(** [below_root op id n]: [n] parent links lead from the resource [id]
    to a member of the root set, whatever the kinds of the resources on
    the way. *)
Inductive below_root : Operation → string → nat → Prop :=
| below_root_here op id :
    id ∈ rootPageIds → below_root op id 0
| below_root_up op id op' id' n :
    parent_link op id op' id' → below_root op' id' n →
    below_root op id (S n).

(** The page that an answer of the provider names as the parent. *)
Definition reported_page (r : Result (option Parent)) : option string :=
  match r with
  | Ok (Some (page_id p)) => Some p
  | _ => None
  end.

(** [page_above op id n r]: the parent links that start at the lookup
    [op] of [id] pass [n] blocks and databases and then name the page
    [r]; [r = None] when the last answer names no page: no parent, a
    parent of another kind, or a resource that cannot be read. *)
Inductive page_above : Operation → string → nat → option string → Prop :=
| page_above_end op id :
    next_hop op (httpClient op id) = None →
    page_above op id 0 (reported_page (httpClient op id))
| page_above_hop op id op' id' n r :
    next_hop op (httpClient op id) = Some (op', id') →
    page_above op' id' n r → page_above op id (S n) r.

(** [page_chain a n b]: the chain of pages above the page [a] in the
    provider's answers, every page on it readable and each one the
    first page above the one before.  It reaches a page of the root set
    after [n] pages ([b = true]), or a page with no page above it
    without having met a root ([b = false]).  The blocks and databases
    between two pages are not looked for in the root set. *)
Inductive page_chain : string → nat → bool → Prop :=
| page_chain_root a :
    non_empty a = true → a ∈ rootPageIds → page_chain a 0 true
| page_chain_top a k p :
    non_empty a = true → a ∉ rootPageIds →
    is_ok (httpClient retrieve_a_page a) = true →
    page_above retrieve_a_page a k p → truthy p = false →
    page_chain a 0 false
| page_chain_hop a k p n b :
    non_empty a = true → a ∉ rootPageIds →
    is_ok (httpClient retrieve_a_page a) = true →
    page_above retrieve_a_page a k (Some p) → non_empty p = true →
    page_chain p n b → page_chain a (S n) b.

(** [provider_chain id n b]: the chain of the resource [id] in the
    provider's answers.  It starts at [id] itself when [id] is a root or
    a readable page; otherwise at the first page above [id] looked up as
    a database or, when there is none, above [id] looked up as a block;
    and it goes on as the page chain of that page.  When no page is
    found above [id], the chain ends at once without a root. *)
Inductive provider_chain (id : string) : nat → bool → Prop :=
| provider_chain_root :
    id ∈ rootPageIds → provider_chain id 0 true
| provider_chain_page n b :
    id ∉ rootPageIds →
    is_ok (httpClient retrieve_a_page id) = true →
    page_chain id n b → provider_chain id n b
| provider_chain_database k a n b :
    id ∉ rootPageIds →
    is_ok (httpClient retrieve_a_page id) = false →
    page_above retrieve_a_database id k (Some a) → non_empty a = true →
    page_chain a n b → provider_chain id n b
| provider_chain_block k p k' a n b :
    id ∉ rootPageIds →
    is_ok (httpClient retrieve_a_page id) = false →
    page_above retrieve_a_database id k p → truthy p = false →
    page_above retrieve_a_block id k' (Some a) → non_empty a = true →
    page_chain a n b → provider_chain id n b
| provider_chain_unknown k p k' p' :
    id ∉ rootPageIds →
    is_ok (httpClient retrieve_a_page id) = false →
    page_above retrieve_a_database id k p → truthy p = false →
    page_above retrieve_a_block id k' p' → truthy p' = false →
    provider_chain id 0 false.

(** [clearCache] *)
Definition clearCache : M unit := λ st,
  Done (Ok tt) {| pageCache := ∅; calls := calls st |}.

End Controller.

(** ** The resource id of a request *)

Module Request.

(** [params.parent] of a page creation. *)
Record parent_ref := {
  parent_page_id : option string;
  parent_database_id : option string
}.

(** The parameters of a request that [extractPageIdFromRequest] reads;
    each one is a string or absent. *)
Record params := {
  page_id : option string;
  block_id : option string;
  database_id : option string;
  parent : option parent_ref
}.

Definition extractPageIdFromRequest (path : string) (p : params) : option string :=
  if includes "/pages/" path && truthy (page_id p) then page_id p
  else if includes "/blocks/" path && truthy (block_id p) then block_id p
  else if includes "/databases/" path && includes "/query" path &&
          truthy (database_id p) then database_id p
  else
    match parent p with
    | Some par =>
        if includes "/pages" path then
          if truthy (parent_page_id par) then parent_page_id par
          else if truthy (parent_database_id par) then parent_database_id par
          else None
        else None
    | None => None
    end.

End Request.

(** What the construction amounts to: the root set, or the error. *)
Definition root_set (r : Result InitState) : Result (gset string) :=
  match r with
  | Ok s => Ok (allPageIds s)
  | Throw e => Throw e
  end.

(** ** Command line of the server (scripts/start-server.ts) *)

Definition make_options (ids urls : list string) : PageAccessControlOptions :=
  {| pageIds := Some ids; pageUrls := Some urls |}.

Module StartServer.

Record Options := {
  transport : string;
  port : option Z;            (* a number; [None] is NaN *)
  authToken : option string;
  pageIds : list string;
  pageUrls : list string
}.

(** [parseArgs] returns, or leaves the process through [process.exit(0)]
    after printing the help text. *)
Inductive ArgsOutcome :=
| Exit
| Parsed (o : Options).

Definition with_transport (v : string) (o : Options) : Options :=
  {| transport := v; port := port o; authToken := authToken o;
     pageIds := pageIds o; pageUrls := pageUrls o |}.
Definition with_port (v : option Z) (o : Options) : Options :=
  {| transport := transport o; port := v; authToken := authToken o;
     pageIds := pageIds o; pageUrls := pageUrls o |}.
Definition with_authToken (v : string) (o : Options) : Options :=
  {| transport := transport o; port := port o; authToken := Some v;
     pageIds := pageIds o; pageUrls := pageUrls o |}.
Definition with_pageIds (v : list string) (o : Options) : Options :=
  {| transport := transport o; port := port o; authToken := authToken o;
     pageIds := v; pageUrls := pageUrls o |}.
Definition with_pageUrls (v : list string) (o : Options) : Options :=
  {| transport := transport o; port := port o; authToken := authToken o;
     pageIds := pageIds o; pageUrls := v |}.

(** [v.split(',').map(x => x.trim()).filter(x => x.length > 0)] *)
Definition comma_list (v : string) : list string :=
  List.filter non_empty (List.map trim (split_comma v)).

Definition is_help (arg : string) : bool :=
  bool_decide (arg = "--help") || bool_decide (arg = "-h").

Section ParseArgs.

(** [parseInt(text, 10)] *)
Variable parseInt : string → option Z.

(** The [for] loop over [args]; [next :: rest'] is the case
    [i + 1 < args.length]. *)
Fixpoint parse_loop (args : list string) (o : Options) : ArgsOutcome :=
  match args with
  | [] => Parsed o
  | arg :: rest =>
      match rest with
      | next :: rest' =>
          if bool_decide (arg = "--transport")
          then parse_loop rest' (with_transport next o)
          else if bool_decide (arg = "--port")
          then parse_loop rest' (with_port (parseInt next) o)
          else if bool_decide (arg = "--auth-token")
          then parse_loop rest' (with_authToken next o)
          else if bool_decide (arg = "--page-id")
          then parse_loop rest' (with_pageIds (comma_list next) o)
          else if bool_decide (arg = "--page-url")
          then parse_loop rest' (with_pageUrls (comma_list next) o)
          else if is_help arg then Exit
          else parse_loop rest o
      | [] => if is_help arg then Exit else parse_loop rest o
      end
  end.

Definition defaults : Options :=
  {| transport := "stdio"; port := Some 3000%Z; authToken := None;
     pageIds := []; pageUrls := [] |}.

Definition parseArgs (argv : list string) (env : ProcessEnv) : ArgsOutcome :=
  match parse_loop (drop 2 argv) defaults with
  | Exit => Exit
  | Parsed o =>
      let envPageIds := env_list (NOTION_ROOT_PAGE_ID env) in
      let envPageUrls := env_list (NOTION_ROOT_PAGE_URL env) in
      let finalPageIds :=
        if 0 <? length (pageIds o) then pageIds o else envPageIds in
      let finalPageUrls :=
        if 0 <? length (pageUrls o) then pageUrls o else envPageUrls in
      Parsed {| transport := toLowerCase (transport o); port := port o;
                authToken := authToken o;
                pageIds := finalPageIds; pageUrls := finalPageUrls |}
  end.

End ParseArgs.

(** [{ pageIds: options.pageIds, pageUrls: options.pageUrls }], what
    [startServer] hands on towards the controller. *)
Definition controller_options (o : Options) : PageAccessControlOptions :=
  make_options (pageIds o) (pageUrls o).

End StartServer.

(** ** Concrete configurations and providers used in the examples *)

Module Scenario.

Definition P1 : string := "11111111-1111-1111-1111-111111111111".
Definition P2 : string := "22222222-2222-2222-2222-222222222222".
Definition X : string := "aaaaaaaa-aaaa-aaaa-aaaa-aaaaaaaaaaaa".
Definition B1 : string := "bbbbbbbb-bbbb-bbbb-bbbb-bbbbbbbbbbbb".

Definition B2 : string := "cccccccc-cccc-cccc-cccc-cccccccccccc".
Definition D : string := "dddddddd-dddd-dddd-dddd-dddddddddddd".
Definition Y : string := "eeeeeeee-eeee-eeee-eeee-eeeeeeeeeeee".

Definition not_found : Error := UpstreamError "object_not_found".

Definition no_env : ProcessEnv :=
  {| NOTION_ROOT_PAGE_ID := None; NOTION_ROOT_PAGE_URL := None |}.

(** One mistyped id in front of a well-formed one. *)
Definition typo_options : PageAccessControlOptions :=
  {| pageIds := Some ["1111-typo"; P1]; pageUrls := None |}.

(** A well-formed id, a malformed URL and a well-formed URL. *)
Definition mixed_options : PageAccessControlOptions :=
  {| pageIds := Some [P1];
     pageUrls := Some ["https://www.notion.so/no-id-here";
                       "https://www.notion.so/Notes-22222222222222222222222222222222"] |}.

(** [page(X).parent = {type: "block_id", block_id: B1}] and
    [block(B1).parent = {type: "page_id", page_id: P1}]; every other
    lookup fails. *)
Definition nested_block : HttpClient := λ op id,
  match op with
  | retrieve_a_page =>
      if bool_decide (id = X) then Ok (Some (block_id B1)) else Throw not_found
  | retrieve_a_block =>
      if bool_decide (id = B1) then Ok (Some (page_id P1)) else Throw not_found
  | retrieve_a_database => Throw not_found
  end.

(** The page cycle [X → B1 → X]. *)
Definition page_cycle : HttpClient := λ op id,
  match op with
  | retrieve_a_page =>
      if bool_decide (id = X) then Ok (Some (page_id B1))
      else if bool_decide (id = B1) then Ok (Some (page_id X))
      else Throw not_found
  | _ => Throw not_found
  end.

(** Page [X] lies below page [P2], which the integration cannot read. *)
Definition locked_parent : HttpClient := λ op id,
  match op with
  | retrieve_a_page =>
      if bool_decide (id = X) then Ok (Some (page_id P2)) else Throw not_found
  | _ => Throw not_found
  end.

(** A block that is its own parent. *)
Definition block_loop : HttpClient := λ op id,
  match op with
  | retrieve_a_block => Ok (Some (block_id id))
  | _ => Throw not_found
  end.

(** The parent of page [X] is reported without hyphens and in capitals;
    that parent is a top-level page. *)
Definition raw_id : string := "ABCDEF12ABCDEF12ABCDEF12ABCDEF12".

Definition raw_parent : HttpClient := λ op id,
  match op with
  | retrieve_a_page =>
      if bool_decide (id = X) then Ok (Some (page_id raw_id)) else Ok None
  | _ => Throw not_found
  end.

(** Page [X] is a row of the database [D], which lies in the top-level
    page [P2]; every other lookup fails. *)
Definition database_row : HttpClient := λ op id,
  match op with
  | retrieve_a_page =>
      if bool_decide (id = X) then Ok (Some (database_id D))
      else if bool_decide (id = P2) then Ok None
      else Throw not_found
  | retrieve_a_database =>
      if bool_decide (id = D) then Ok (Some (page_id P2)) else Throw not_found
  | retrieve_a_block => Throw not_found
  end.

(** The database [D] lies in page [P1], and page [Y] reports the id [D]
    as its parent page; every other lookup fails, the page lookup of [D]
    among them. *)
Definition database_as_page_parent : HttpClient := λ op id,
  match op with
  | retrieve_a_page =>
      if bool_decide (id = Y) then Ok (Some (page_id D)) else Throw not_found
  | retrieve_a_database =>
      if bool_decide (id = D) then Ok (Some (page_id P1)) else Throw not_found
  | retrieve_a_block => Throw not_found
  end.

(** Page [X] lies in block [B1], block [B1] in block [B2], block [B2]
    in database [D], and database [D] in page [P1]; every other lookup
    fails. *)
Definition deep_block : HttpClient := λ op id,
  match op with
  | retrieve_a_page =>
      if bool_decide (id = X) then Ok (Some (block_id B1)) else Throw not_found
  | retrieve_a_block =>
      if bool_decide (id = B1) then Ok (Some (block_id B2))
      else if bool_decide (id = B2) then Ok (Some (database_id D))
      else Throw not_found
  | retrieve_a_database =>
      if bool_decide (id = D) then Ok (Some (page_id P1)) else Throw not_found
  end.

End Scenario.

(** * Properties *)

(** ** Strings *)

Section StringFacts.

Lemma str_chars s : str (chars s) = s.
Proof. apply String.string_of_list_ascii_of_string. Qed.

Lemma chars_str l : chars (str l) = l.
Proof. apply String.list_ascii_of_string_of_list_ascii. Qed.

Lemma str_app l1 l2 : str (l1 ++ l2) = str l1 +:+ str l2.
Proof. induction l1 as [|c l1 IH]; simpl; [done|]. rewrite IH. reflexivity. Qed.

Lemma str_cons c l : str (c :: l) = String c "" +:+ str l.
Proof. reflexivity. Qed.

Lemma length_str l : String.length (str l) = length l.
Proof. induction l as [|c l IH]; simpl; [done|]. by rewrite <- IH. Qed.

Lemma length_chars s : length (chars s) = String.length s.
Proof. by rewrite <- (str_chars s) at 2; rewrite length_str. Qed.

Lemma lower_plain c : is_dash c = false → is_plain (lower c) = true.
Proof. destruct c as [[] [] [] [] [] [] [] []]; by vm_compute. Qed.

Lemma lower_hex c : is_hex_i c = true → is_hex (lower c) = true.
Proof. destruct c as [[] [] [] [] [] [] [] []]; by vm_compute. Qed.

Lemma hex_plain c : is_hex c = true → is_plain c = true.
Proof. destruct c as [[] [] [] [] [] [] [] []]; by vm_compute. Qed.

(** The cleaned identifier has neither hyphens nor capitals. *)
Lemma clean_plain raw : forallb is_plain (chars (clean raw)) = true.
Proof.
  unfold clean, toLowerCase, remove_dashes. rewrite !chars_str.
  induction (chars raw) as [|c l IH]; simpl; [done|].
  destruct (is_dash c) eqn:Hc; simpl; [done|].
  by rewrite lower_plain, IH.
Qed.

Lemma match_class_app ok n g rest :
  length g = n → forallb ok g = true → match_class ok n (g ++ rest) = Some rest.
Proof.
  revert g; induction n as [|n IH]; intros [|c g] Hlen Hok; simplify_eq/=; [done|].
  apply andb_true_iff in Hok as [-> Hok]. by apply IH.
Qed.

Lemma match_dash_cons t : match_dash ("-"%char :: t) = Some t.
Proof. reflexivity. Qed.

Lemma forallb_take {A} (f : A → bool) n l :
  forallb f l = true → forallb f (take n l) = true.
Proof.
  revert n; induction l as [|x l IH]; intros [|n] H; simpl in *; try done.
  apply andb_true_iff in H as [-> H]. by apply IH.
Qed.

Lemma forallb_drop {A} (f : A → bool) n l :
  forallb f l = true → forallb f (drop n l) = true.
Proof.
  revert n; induction l as [|x l IH]; intros [|n] H; simpl in *; try done.
  apply andb_true_iff in H as [_ H]. by apply IH.
Qed.

Lemma groups_split l :
  l = group 0 l ++ group 1 l ++ group 2 l ++ group 3 l ++ group 4 l.
Proof.
  unfold group.
  change (drop 20 l) with (drop (16 + 4) l). rewrite <- drop_drop, take_drop.
  change (drop 16 l) with (drop (12 + 4) l). rewrite <- drop_drop, take_drop.
  change (drop 12 l) with (drop (8 + 4) l). rewrite <- drop_drop, take_drop.
  by rewrite take_drop.
Qed.

Lemma groups_length l :
  length l = 32 →
  length (group 0 l) = 8 ∧ length (group 1 l) = 4 ∧ length (group 2 l) = 4 ∧
  length (group 3 l) = 4 ∧ length (group 4 l) = 12.
Proof.
  intros Hl. simpl. rewrite !length_take, !length_drop. lia.
Qed.

Lemma add_dashes_groups s :
  add_dashes s =
  str (group 0 (chars s) ++ "-"%char :: group 1 (chars s) ++ "-"%char ::
       group 2 (chars s) ++ "-"%char :: group 3 (chars s) ++ "-"%char ::
       group 4 (chars s)).
Proof.
  unfold add_dashes, slice, slice_from, group.
  change (8 - 0) with 8. change (12 - 8) with 4. change (16 - 12) with 4.
  change (20 - 16) with 4. rewrite drop_0.
  repeat (rewrite str_app || rewrite str_cons). reflexivity.
Qed.

Lemma dashed_layout_add_dashes ok s :
  String.length s = 32 → forallb ok (chars s) = true →
  dashed_layout ok (add_dashes s) = true.
Proof.
  intros Hlen Hok. rewrite <- length_chars in Hlen.
  destruct (groups_length _ Hlen) as (H0 & H1 & H2 & H3 & H4).
  unfold dashed_layout. rewrite add_dashes_groups, chars_str.
  cbn [match_seq].
  rewrite (match_class_app ok 8) by (done || by apply forallb_take).
  rewrite match_dash_cons.
  rewrite (match_class_app ok 4)
    by (done || by apply forallb_take, forallb_drop).
  rewrite match_dash_cons.
  rewrite (match_class_app ok 4)
    by (done || by apply forallb_take, forallb_drop).
  rewrite match_dash_cons.
  rewrite (match_class_app ok 4)
    by (done || by apply forallb_take, forallb_drop).
  rewrite match_dash_cons.
  rewrite <- (app_nil_r (group 4 _)).
  rewrite (match_class_app ok 12) by (done || by apply forallb_drop).
  done.
Qed.

End StringFacts.

(** ** The identifier normaliser *)

Lemma normalizePageId_ok raw id :
  normalizePageId raw = Ok id ↔
  String.length (clean raw) = 32 ∧ id = add_dashes (clean raw).
Proof.
  unfold normalizePageId. cbv zeta.
  destruct (String.length (clean raw) =? 32) eqn:Hl; simpl.
  - apply Nat.eqb_eq in Hl. split; [by intros [= <-] | by intros [_ ->]].
  - apply Nat.eqb_neq in Hl. split; [done | by intros [? _]].
Qed.

Lemma normalizePageId_normal_form raw id :
  normalizePageId raw = Ok id → is_normal_form id = true.
Proof.
  intros [Hl ->]%normalizePageId_ok.
  apply dashed_layout_add_dashes; [done | apply clean_plain].
Qed.

Lemma normalizePageId_canonical raw id :
  normalizePageId raw = Ok id → forallb is_hex (chars (clean raw)) = true →
  is_canonical id = true.
Proof.
  intros [Hl ->]%normalizePageId_ok Hhex. by apply dashed_layout_add_dashes.
Qed.

Lemma normalizePageId_non_empty raw id :
  normalizePageId raw = Ok id → non_empty id = true.
Proof.
  intros [Hl ->]%normalizePageId_ok. rewrite add_dashes_groups.
  rewrite <- length_chars in Hl. destruct (chars (clean raw)) as [|c l]; [done|].
  done.
Qed.

(** C4 (as stated, refuted): a 32-character input without a single
    hexadecimal digit is accepted. *)
Lemma normalizePageId_accepts_non_hex :
  forallb is_hex (chars (clean "zzzzzzzzzzzzzzzzzzzzzzzzzzzzzzzz")) = false ∧
  normalizePageId "zzzzzzzzzzzzzzzzzzzzzzzzzzzzzzzz"
  = Ok "zzzzzzzz-zzzz-zzzz-zzzz-zzzzzzzzzzzz".
Proof. split; reflexivity. Qed.

(** C4 (amended): [normalizePageId] tests the length of the cleaned input
    only.  It throws exactly when the input, hyphens removed and
    lower-cased, is not 32 characters long; otherwise it returns those 32
    characters, whatever they are, cut into groups of 8, 4, 4, 4 and 12
    joined by hyphens.  On inputs whose cleaned form is hexadecimal it
    agrees with the normaliser of the specification. *)
Theorem normalizePageId_checks_length_only (raw : string) :
  (String.length (clean raw) ≠ 32 →
   normalizePageId raw = Throw (InvalidPageIdFormat raw)) ∧
  (String.length (clean raw) = 32 →
   ∃ g1 g2 g3 g4 g5,
     clean raw = g1 +:+ g2 +:+ g3 +:+ g4 +:+ g5 ∧
     String.length g1 = 8 ∧ String.length g2 = 4 ∧ String.length g3 = 4 ∧
     String.length g4 = 4 ∧ String.length g5 = 12 ∧
     normalizePageId raw
     = Ok (g1 +:+ "-" +:+ g2 +:+ "-" +:+ g3 +:+ "-" +:+ g4 +:+ "-" +:+ g5)) ∧
  (forallb is_hex (chars (clean raw)) = true →
   normalizePageId raw = normalize_spec raw).
Proof.
  split; [|split].
  - intros Hl. unfold normalizePageId. cbv zeta.
    by apply Nat.eqb_neq in Hl as ->.
  - intros Hl. set (l := chars (clean raw)).
    assert (length l = 32) as Hlen by (unfold l; by rewrite length_chars).
    destruct (groups_length _ Hlen) as (H0 & H1 & H2 & H3 & H4).
    exists (str (group 0 l)), (str (group 1 l)), (str (group 2 l)),
      (str (group 3 l)), (str (group 4 l)).
    rewrite !length_str. split_and!; try done.
    + rewrite <- !str_app, <- groups_split. unfold l. by rewrite str_chars.
    + apply normalizePageId_ok. split; [done|].
      rewrite add_dashes_groups. fold l.
      repeat (rewrite str_app || rewrite str_cons). reflexivity.
  - intros Hhex. unfold normalizePageId, normalize_spec, clean in *. cbv zeta.
    rewrite Hhex, andb_true_r. by destruct (_ =? 32).
Qed.

Lemma normalizePageId_checks_length_only_witness :
  normalizePageId "ABC12345-ABC1-2345-ABC1-2345ABC12345"
  = normalize_spec "ABC12345-ABC1-2345-ABC1-2345ABC12345".
Proof.
  apply (normalizePageId_checks_length_only
           "ABC12345-ABC1-2345-ABC1-2345ABC12345").
  reflexivity.
Defined.

(** ** Root set construction *)

Section RootSet.

Lemma add_option_ids_ok ids s :
  Forall (λ id, non_empty (trim id) = true →
                is_ok (normalizePageId (trim id)) = true) ids →
  ∃ s', add_option_ids ids s = Ok s' ∧ logged s' = logged s ∧
    allPageIds s ⊆ allPageIds s' ∧
    (∀ id nid, id ∈ ids → non_empty (trim id) = true →
               normalizePageId (trim id) = Ok nid → nid ∈ allPageIds s').
Proof.
  intros Hall; revert s.
  induction Hall as [|id ids Hid _ IH]; intros s; simpl.
  - exists s. split_and!; [done..|]. intros ?? []%elem_of_nil.
  - destruct (non_empty (trim id)) eqn:Hne.
    + specialize (Hid eq_refl).
      destruct (normalizePageId (trim id)) as [nid|] eqn:Hn; [|done].
      destruct (IH (add_id nid s)) as (s' & -> & Hlog & Hsub & Hin).
      exists s'. split_and!; [done..| |].
      * etrans; [|exact Hsub]. simpl. set_solver.
      * intros id' nid' [->|Hin']%elem_of_cons Hne' Hn'; [|by eauto].
        apply Hsub. assert (nid' = nid) as -> by congruence.
        simpl. set_solver.
    + destruct (IH s) as (s' & -> & Hlog & Hsub & Hin).
      exists s'. split_and!; [done..|].
      intros id' nid' [->|Hin']%elem_of_cons Hne' Hn'; [congruence|by eauto].
Qed.

Lemma add_option_ids_blank ids s :
  Forall (λ id, non_empty (trim id) = false) ids → add_option_ids ids s = Ok s.
Proof. induction 1 as [|id ids Hid _ IH]; simpl; [done|]. by rewrite Hid. Qed.

Lemma add_option_urls_spec urls s :
  let s' := add_option_urls urls s in
  allPageIds s ⊆ allPageIds s' ∧
  (∀ e, e ∈ logged s → e ∈ logged s') ∧
  (∀ url nid, url ∈ urls → non_empty (trim url) = true →
              extractPageIdFromUrl (trim url) = Ok nid → nid ∈ allPageIds s') ∧
  (∀ url e, url ∈ urls → non_empty (trim url) = true →
            extractPageIdFromUrl (trim url) = Throw e →
            InvalidPageUrl url e ∈ logged s').
Proof.
  revert s; induction urls as [|url urls IH]; intros s; simpl.
  - split_and!; [done..| |]; intros ?? []%elem_of_nil.
  - destruct (non_empty (trim url)) eqn:Hne.
    + destruct (extractPageIdFromUrl (trim url)) as [nid|e] eqn:Hx.
      * destruct (IH (add_id nid s)) as (Hsub & Hlog & Hin & Herr).
        split_and!; [simpl in *; set_solver|done| |].
        -- intros url' nid' [->|?]%elem_of_cons ??; [|by eauto].
           apply Hsub. assert (nid' = nid) as -> by congruence.
           simpl; set_solver.
        -- intros url' e' [->|?]%elem_of_cons ??; [congruence|by eauto].
      * destruct (IH (log_error (InvalidPageUrl url e) s))
          as (Hsub & Hlog & Hin & Herr).
        split_and!; [done| | |].
        -- intros e' He'. apply Hlog. simpl. set_solver.
        -- intros url' nid' [->|?]%elem_of_cons ??; [congruence|by eauto].
        -- intros url' e' [->|?]%elem_of_cons ??; [|by eauto].
           apply Hlog. assert (e' = e) as -> by congruence.
           simpl; set_solver.
    + destruct (IH s) as (Hsub & Hlog & Hin & Herr).
      split_and!; [done..| |].
      * intros url' nid' [->|?]%elem_of_cons ??; [congruence|by eauto].
      * intros url' e' [->|?]%elem_of_cons ??; [congruence|by eauto].
Qed.

Lemma add_option_urls_none urls s :
  Forall (λ url, non_empty (trim url) = true →
                 is_ok (extractPageIdFromUrl (trim url)) = false) urls →
  allPageIds (add_option_urls urls s) = allPageIds s.
Proof.
  intros Hall; revert s.
  induction Hall as [|url urls Hu _ IH]; intros s; simpl; [done|].
  destruct (non_empty (trim url)); [|by apply IH].
  specialize (Hu eq_refl).
  destruct (extractPageIdFromUrl (trim url)); [done|]. by rewrite IH.
Qed.

Lemma add_env_ids_ok ids s :
  Forall (λ id, is_ok (normalizePageId id) = true) ids →
  ∃ s', add_env_ids ids s = Ok s' ∧ logged s' = logged s ∧
    allPageIds s ⊆ allPageIds s' ∧
    (∀ id nid, id ∈ ids → normalizePageId id = Ok nid → nid ∈ allPageIds s').
Proof.
  intros Hall; revert s.
  induction Hall as [|id ids Hid _ IH]; intros s; simpl.
  - exists s. split_and!; [done..|]. intros ?? []%elem_of_nil.
  - destruct (normalizePageId id) as [nid|] eqn:Hn; [|done].
    destruct (IH (add_id nid s)) as (s' & -> & Hlog & Hsub & Hin).
    exists s'. split_and!; [done..| |].
    + etrans; [|exact Hsub]. simpl. set_solver.
    + intros id' nid' [->|Hin']%elem_of_cons Hn'; [|by eauto].
      apply Hsub. assert (nid' = nid) as -> by congruence.
      simpl. set_solver.
Qed.

Lemma add_env_urls_spec urls s :
  let s' := add_env_urls urls s in
  allPageIds s ⊆ allPageIds s' ∧
  (∀ e, e ∈ logged s → e ∈ logged s') ∧
  (∀ url nid, url ∈ urls →
              extractPageIdFromUrl url = Ok nid → nid ∈ allPageIds s') ∧
  (∀ url e, url ∈ urls → extractPageIdFromUrl url = Throw e →
            InvalidPageUrlFromEnv url e ∈ logged s').
Proof.
  revert s; induction urls as [|url urls IH]; intros s; simpl.
  - split_and!; [done..| |]; intros ?? []%elem_of_nil.
  - destruct (extractPageIdFromUrl url) as [nid|e] eqn:Hx.
    + destruct (IH (add_id nid s)) as (Hsub & Hlog & Hin & Herr).
      split_and!; [simpl in *; set_solver|done| |].
      * intros url' nid' [->|?]%elem_of_cons ?; [|by eauto].
        apply Hsub. assert (nid' = nid) as -> by congruence.
        simpl; set_solver.
      * intros url' e' [->|?]%elem_of_cons ?; [congruence|by eauto].
    + destruct (IH (log_error (InvalidPageUrlFromEnv url e) s))
        as (Hsub & Hlog & Hin & Herr).
      split_and!; [done| | |].
      * intros e' He'. apply Hlog. simpl. set_solver.
      * intros url' nid' [->|?]%elem_of_cons ?; [congruence|by eauto].
      * intros url' e' [->|?]%elem_of_cons ?; [|by eauto].
        apply Hlog. assert (e' = e) as -> by congruence.
        simpl; set_solver.
Qed.

End RootSet.

(** C3 (as stated, refuted): a mistyped entry of the explicit id list
    aborts the construction, although a well-formed root follows it. *)
Lemma initializeRootPages_aborts_on_malformed_id :
  normalizePageId Scenario.P1 = Ok Scenario.P1 ∧
  initializeRootPages Scenario.typo_options Scenario.no_env
  = Throw (InvalidPageIdFormat "1111-typo").
Proof. split; reflexivity. Qed.

(** C3 (amended): the entries that are logged and skipped are the
    malformed URLs.  Provided the id entries that the constructor reads
    are well formed, construction succeeds, every well-formed explicit id
    and URL is in the root set, every malformed explicit URL is logged,
    and when the explicit options contribute nothing the same holds of
    the entries taken from the environment.  (A malformed id entry is
    not skipped: its exception leaves the constructor.) *)
Theorem initializeRootPages_skips_malformed_urls
    (options : PageAccessControlOptions) (env : ProcessEnv) :
  ids_well_formed options env →
  ∃ s, initializeRootPages options env = Ok s ∧
    (∀ id nid, id ∈ default [] (pageIds options) → non_empty (trim id) = true →
       normalizePageId (trim id) = Ok nid → nid ∈ allPageIds s) ∧
    (∀ url nid, url ∈ default [] (pageUrls options) →
       non_empty (trim url) = true →
       extractPageIdFromUrl (trim url) = Ok nid → nid ∈ allPageIds s) ∧
    (∀ url e, url ∈ default [] (pageUrls options) →
       non_empty (trim url) = true →
       extractPageIdFromUrl (trim url) = Throw e →
       InvalidPageUrl url e ∈ logged s) ∧
    (no_explicit_root options →
       (∀ id nid, id ∈ env_list (NOTION_ROOT_PAGE_ID env) →
          normalizePageId id = Ok nid → nid ∈ allPageIds s) ∧
       (∀ url nid, url ∈ env_list (NOTION_ROOT_PAGE_URL env) →
          extractPageIdFromUrl url = Ok nid → nid ∈ allPageIds s) ∧
       (∀ url e, url ∈ env_list (NOTION_ROOT_PAGE_URL env) →
          extractPageIdFromUrl url = Throw e →
          InvalidPageUrlFromEnv url e ∈ logged s)).
Proof.
  intros [Hids Henv]. unfold initializeRootPages. cbv zeta.
  set (s0 := {| allPageIds := ∅; logged := [] |}).
  destruct (add_option_ids_ok _ s0 Hids) as (s1 & Hs1 & Hlog1 & Hsub1 & Hin1).
  rewrite Hs1.
  set (s2 := add_option_urls (default [] (pageUrls options)) s1).
  destruct (add_option_urls_spec (default [] (pageUrls options)) s1)
    as (Hsub2 & Hlog2 & Hin2 & Herr2). fold s2 in Hsub2, Hlog2, Hin2, Herr2.
  destruct (size (allPageIds s2) =? 0) eqn:Hsz.
  - (* nothing explicit: the environment is read *)
    apply Nat.eqb_eq, size_empty_iff in Hsz.
    assert (no_explicit_root options) as Hnone.
    { split; apply Forall_forall.
      - intros id Hid. destruct (non_empty (trim id)) eqn:Hne; [|done].
        rewrite Forall_forall in Hids. specialize (Hids id Hid Hne).
        destruct (normalizePageId (trim id)) as [nid|] eqn:Hn; [|done].
        specialize (Hin1 id nid Hid Hne Hn). set_solver.
      - intros url Hurl Hne.
        destruct (extractPageIdFromUrl (trim url)) as [nid|] eqn:Hx; [|done].
        specialize (Hin2 url nid Hurl Hne Hx). set_solver. }
    destruct (add_env_ids_ok _ s2 (Henv Hnone)) as (s3 & -> & Hlog3 & Hsub3 & Hin3).
    destruct (add_env_urls_spec (env_list (NOTION_ROOT_PAGE_URL env)) s3)
      as (Hsub4 & Hlog4 & Hin4 & Herr4).
    eexists; split; [done|]. split_and!.
    + intros id nid ???. apply Hsub4, Hsub3, Hsub2. eauto.
    + intros url nid ???. apply Hsub4, Hsub3. eauto.
    + intros url e ???. apply Hlog4. rewrite Hlog3. eauto.
    + intros _. split_and!; [|done..].
      intros id nid ??. apply Hsub4. eauto.
  - exists s2. split; [done|]. split_and!.
    + intros id nid ???. apply Hsub2. eauto.
    + done.
    + done.
    + intros [Hblank Hbad]. apply Nat.eqb_neq in Hsz. exfalso. apply Hsz.
      apply size_empty_iff. unfold s2.
      rewrite (add_option_urls_none _ _ Hbad).
      rewrite (add_option_ids_blank _ _ Hblank) in Hs1. by simplify_eq.
Qed.

Lemma initializeRootPages_skips_malformed_urls_witness :
  ∃ s, initializeRootPages Scenario.mixed_options Scenario.no_env = Ok s ∧
       Scenario.P1 ∈ allPageIds s ∧ Scenario.P2 ∈ allPageIds s ∧
       InvalidPageUrl "https://www.notion.so/no-id-here"
         (InvalidNotionPageUrl "https://www.notion.so/no-id-here") ∈ logged s.
Proof.
  destruct (initializeRootPages_skips_malformed_urls
              Scenario.mixed_options Scenario.no_env)
    as (s & Hs & Hid & Hurl & Hlog & _).
  { split.
    - repeat constructor.
    - intros [Hblank _]. by inversion Hblank. }
  exists s. split_and!; [done| | |].
  - apply (Hid Scenario.P1);
      [apply list_elem_of_here|vm_compute; reflexivity..].
  - apply (Hurl "https://www.notion.so/Notes-22222222222222222222222222222222");
      [apply list_elem_of_further, list_elem_of_here|vm_compute; reflexivity..].
  - apply Hlog; [apply list_elem_of_here|vm_compute; reflexivity..].
Defined.

(** ** The monad of the methods *)

Section MonadFacts.

Context {A B : Type}.

Lemma never_throws_ret (a : A) : never_throws (ret a).
Proof. by intros st e st'. Qed.

Lemma never_throws_out_of_fuel : never_throws (@out_of_fuel A).
Proof. by intros st e st'. Qed.

Lemma never_throws_bind (m : M A) (f : A → M B) :
  never_throws m → (∀ a, never_throws (f a)) → never_throws (bind m f).
Proof.
  intros Hm Hf st e st'. unfold bind.
  destruct (m st) as [|[a|e'] s] eqn:Hms; [done|apply Hf|].
  by destruct (Hm st e' s).
Qed.

Lemma never_throws_try_catch (m : M A) (h : Error → M A) :
  (∀ e, never_throws (h e)) → never_throws (try_catch m h).
Proof.
  intros Hh st e st'. unfold try_catch.
  destruct (m st) as [|[a|e'] s]; [done|done|apply Hh].
Qed.

(** A [try] whose body cannot throw is the body. *)
Lemma try_catch_never_throws (m : M A) (h : Error → M A) st :
  never_throws m → try_catch m h st = m st.
Proof.
  intros Hm. unfold try_catch.
  destruct (m st) as [|[a|e] s] eqn:Hms; [done..|]. by destruct (Hm st e s).
Qed.

Lemma finishes_as_refl (m : M A) : finishes_as m m.
Proof. by intros st r st'. Qed.

Lemma finishes_as_out_of_fuel (m : M A) : finishes_as out_of_fuel m.
Proof. by intros st r st'. Qed.

Lemma finishes_as_bind (m m' : M A) (f f' : A → M B) :
  finishes_as m m' → (∀ a, finishes_as (f a) (f' a)) →
  finishes_as (bind m f) (bind m' f').
Proof.
  intros Hm Hf st r st'. unfold bind.
  destruct (m st) as [|[a|e] s] eqn:Hms; [done| |].
  - rewrite (Hm _ _ _ Hms). apply Hf.
  - by rewrite (Hm _ _ _ Hms).
Qed.

Lemma finishes_as_try_catch (m m' : M A) (h h' : Error → M A) :
  finishes_as m m' → (∀ e, finishes_as (h e) (h' e)) →
  finishes_as (try_catch m h) (try_catch m' h').
Proof.
  intros Hm Hh st r st'. unfold try_catch.
  destruct (m st) as [|[a|e] s] eqn:Hms; [done| |].
  - by rewrite (Hm _ _ _ Hms).
  - rewrite (Hm _ _ _ Hms). apply Hh.
Qed.

Lemma relocate_fresh (o : Outcome A) s r :
  o = relocate fresh o → o = Done r s → pageCache s = ∅.
Proof. intros Ho ->. simpl in Ho. injection Ho as Hs. by rewrite Hs. Qed.

Lemma lookup_only_ret (a : A) : lookup_only (ret a).
Proof. by intros [c l]. Qed.

Lemma lookup_only_throw e : lookup_only (@throw A e).
Proof. by intros [c l]. Qed.

Lemma lookup_only_out_of_fuel : lookup_only (@out_of_fuel A).
Proof. by intros st. Qed.

Lemma lookup_only_bind (m : M A) (f : A → M B) :
  lookup_only m → (∀ a, lookup_only (f a)) → lookup_only (bind m f).
Proof.
  intros Hm Hf st. unfold bind. rewrite (Hm st).
  destruct (m fresh) as [|[a|e] s] eqn:Hms; simpl; [done| |].
  - pose proof (relocate_fresh _ _ _ (Hm fresh) Hms) as Hc.
    rewrite (Hf a _), (Hf a s).
    destruct (f a fresh) as [|r s']; simpl; [done|].
    by rewrite app_assoc.
  - done.
Qed.

Lemma lookup_only_try_catch (m : M A) (h : Error → M A) :
  lookup_only m → (∀ e, lookup_only (h e)) → lookup_only (try_catch m h).
Proof.
  intros Hm Hh st. unfold try_catch. rewrite (Hm st).
  destruct (m fresh) as [|[a|e] s] eqn:Hms; simpl; [done..|].
  rewrite (Hh e _), (Hh e s).
  destruct (h e fresh) as [|r s']; simpl; [done|].
  by rewrite app_assoc.
Qed.

End MonadFacts.

(** ** Parent resolution *)

Section Resolver.

Variable rootPageIds : gset string.
Variable httpClient : HttpClient.

Local Abbreviation executeOperation := (executeOperation httpClient).
Local Abbreviation resolveBlockToPage := (resolveBlockToPage httpClient).
Local Abbreviation getDatabaseParent := (getDatabaseParent httpClient).
Local Abbreviation getParentPageId := (getParentPageId httpClient).
Local Abbreviation findRootPageForResource := (findRootPageForResource httpClient).

Lemma lookup_only_executeOperation op id : lookup_only (executeOperation op id).
Proof. by intros [c l]. Qed.

Lemma resolveBlockToPage_never_throws fuel id :
  never_throws (resolveBlockToPage fuel id).
Proof.
  destruct fuel; [apply never_throws_out_of_fuel|].
  apply never_throws_try_catch; intros; apply never_throws_ret.
Qed.

Lemma getDatabaseParent_never_throws fuel id :
  never_throws (getDatabaseParent fuel id).
Proof.
  destruct fuel; [apply never_throws_out_of_fuel|].
  apply never_throws_try_catch; intros; apply never_throws_ret.
Qed.

Lemma findRootPageForResource_never_throws fuel id :
  never_throws (findRootPageForResource fuel id).
Proof. apply never_throws_try_catch; intros; apply never_throws_ret. Qed.

(** One step of [resolveBlockToPage], its [try] resolved. *)
Lemma resolveBlockToPage_step fuel id st :
  resolveBlockToPage (S fuel) id st =
  match httpClient retrieve_a_block id with
  | Ok (Some (page_id p)) => Done (Ok (Some p)) (called retrieve_a_block id st)
  | Ok (Some (block_id b)) => resolveBlockToPage fuel b (called retrieve_a_block id st)
  | Ok (Some (database_id d)) => getDatabaseParent fuel d (called retrieve_a_block id st)
  | _ => Done (Ok None) (called retrieve_a_block id st)
  end.
Proof.
  simpl. unfold try_catch, bind, executeOperation, called.
  destruct (httpClient retrieve_a_block id) as [[[p|d|b|]|]|e]; try done.
  - pose proof (getDatabaseParent_never_throws fuel d) as H.
    destruct (getDatabaseParent _ _ _) as [|[?|?] ?] eqn:E; [done..|].
    by destruct (H _ _ _ E).
  - pose proof (resolveBlockToPage_never_throws fuel b) as H.
    destruct (resolveBlockToPage _ _ _) as [|[?|?] ?] eqn:E; [done..|].
    by destruct (H _ _ _ E).
Qed.

Lemma getDatabaseParent_step fuel id st :
  getDatabaseParent (S fuel) id st =
  match httpClient retrieve_a_database id with
  | Ok (Some (page_id p)) => Done (Ok (Some p)) (called retrieve_a_database id st)
  | Ok (Some (block_id b)) =>
      resolveBlockToPage fuel b (called retrieve_a_database id st)
  | _ => Done (Ok None) (called retrieve_a_database id st)
  end.
Proof.
  simpl. unfold try_catch, bind, executeOperation, called.
  destruct (httpClient retrieve_a_database id) as [[[p|d|b|]|]|e]; try done.
  pose proof (resolveBlockToPage_never_throws fuel b) as H.
  destruct (resolveBlockToPage _ _ _) as [|[?|?] ?] eqn:E; [done..|].
  by destruct (H _ _ _ E).
Qed.

Lemma getParentPageId_step fuel id st :
  getParentPageId fuel id st =
  match httpClient retrieve_a_page id with
  | Ok (Some (page_id p)) => Done (Ok (Some p)) (called retrieve_a_page id st)
  | Ok (Some (database_id d)) => getDatabaseParent fuel d (called retrieve_a_page id st)
  | Ok (Some (block_id b)) => resolveBlockToPage fuel b (called retrieve_a_page id st)
  | Ok _ => Done (Ok None) (called retrieve_a_page id st)
  | Throw e => Done (Throw e) (called retrieve_a_page id st)
  end.
Proof.
  unfold getParentPageId, try_catch, bind, executeOperation, called.
  destruct (httpClient retrieve_a_page id) as [[[p|d|b|]|]|e]; try done.
  - pose proof (getDatabaseParent_never_throws fuel d) as H.
    destruct (getDatabaseParent _ _ _) as [|[?|?] ?] eqn:E; [done..|].
    by destruct (H _ _ _ E).
  - pose proof (resolveBlockToPage_never_throws fuel b) as H.
    destruct (resolveBlockToPage _ _ _) as [|[?|?] ?] eqn:E; [done..|].
    by destruct (H _ _ _ E).
Qed.

Lemma lookup_only_resolvers fuel :
  (∀ id, lookup_only (resolveBlockToPage fuel id)) ∧
  (∀ id, lookup_only (getDatabaseParent fuel id)).
Proof.
  induction fuel as [|fuel [IHb IHd]]; [by split|].
  split; intros id; simpl.
  - apply lookup_only_try_catch; [|intros; apply lookup_only_ret].
    apply lookup_only_bind; [apply lookup_only_executeOperation|].
    intros [[p|d|b|]|]; first [apply lookup_only_ret|apply IHb|apply IHd].
  - apply lookup_only_try_catch; [|intros; apply lookup_only_ret].
    apply lookup_only_bind; [apply lookup_only_executeOperation|].
    intros [[p|d|b|]|]; first [apply lookup_only_ret|apply IHb|apply IHd].
Qed.

Lemma lookup_only_resolveBlockToPage fuel id :
  lookup_only (resolveBlockToPage fuel id).
Proof. apply lookup_only_resolvers. Qed.

Lemma lookup_only_getDatabaseParent fuel id :
  lookup_only (getDatabaseParent fuel id).
Proof. apply lookup_only_resolvers. Qed.

Lemma lookup_only_getParentPageId fuel id :
  lookup_only (getParentPageId fuel id).
Proof.
  apply lookup_only_try_catch; [|intros; apply lookup_only_throw].
  apply lookup_only_bind; [apply lookup_only_executeOperation|].
  intros [[p|d|b|]|];
    first [apply lookup_only_ret|apply lookup_only_resolveBlockToPage
          |apply lookup_only_getDatabaseParent].
Qed.

Lemma lookup_only_findRootPageForResource fuel id :
  lookup_only (findRootPageForResource fuel id).
Proof.
  apply lookup_only_try_catch; [|intros; apply lookup_only_ret].
  apply lookup_only_bind.
  { apply lookup_only_try_catch; [|intros; apply lookup_only_ret].
    apply lookup_only_bind; [apply lookup_only_executeOperation|].
    intros; apply lookup_only_ret. }
  intros [v|]; [apply lookup_only_ret|].
  apply lookup_only_bind.
  { apply lookup_only_try_catch; [|intros; apply lookup_only_ret].
    apply lookup_only_bind; [apply lookup_only_getDatabaseParent|].
    intros p; destruct (truthy p); apply lookup_only_ret. }
  intros [v|]; [apply lookup_only_ret|].
  apply lookup_only_bind.
  { apply lookup_only_try_catch; [|intros; apply lookup_only_ret].
    apply lookup_only_bind; [apply lookup_only_resolveBlockToPage|].
    intros p; destruct (truthy p); apply lookup_only_ret. }
  intros [v|]; apply lookup_only_ret.
Qed.

(** More fuel does not change a run that finished. *)
Lemma resolvers_fuel_mono fuel fuel' :
  fuel ≤ fuel' →
  (∀ id, finishes_as (resolveBlockToPage fuel id) (resolveBlockToPage fuel' id)) ∧
  (∀ id, finishes_as (getDatabaseParent fuel id) (getDatabaseParent fuel' id)).
Proof.
  revert fuel'; induction fuel as [|fuel IH]; intros fuel' Hle.
  { split; intros; apply finishes_as_out_of_fuel. }
  destruct fuel' as [|fuel']; [lia|].
  destruct (IH fuel') as [IHb IHd]; [lia|].
  split; intros id; simpl.
  - apply finishes_as_try_catch; [|intros; apply finishes_as_refl].
    apply finishes_as_bind; [apply finishes_as_refl|].
    intros [[p|d|b|]|]; first [apply finishes_as_refl|apply IHb|apply IHd].
  - apply finishes_as_try_catch; [|intros; apply finishes_as_refl].
    apply finishes_as_bind; [apply finishes_as_refl|].
    intros [[p|d|b|]|]; first [apply finishes_as_refl|apply IHb|apply IHd].
Qed.

Lemma getParentPageId_fuel_mono fuel fuel' id :
  fuel ≤ fuel' →
  finishes_as (getParentPageId fuel id) (getParentPageId fuel' id).
Proof.
  intros Hle. destruct (resolvers_fuel_mono _ _ Hle) as [Hb Hd].
  apply finishes_as_try_catch; [|intros; apply finishes_as_refl].
  apply finishes_as_bind; [apply finishes_as_refl|].
  intros [[p|d|b|]|]; first [apply finishes_as_refl|apply Hb|apply Hd].
Qed.

Lemma findRootPageForResource_fuel_mono fuel fuel' id :
  fuel ≤ fuel' →
  finishes_as (findRootPageForResource fuel id)
              (findRootPageForResource fuel' id).
Proof.
  intros Hle. destruct (resolvers_fuel_mono _ _ Hle) as [Hb Hd].
  apply finishes_as_try_catch; [|intros; apply finishes_as_refl].
  apply finishes_as_bind; [apply finishes_as_refl|].
  intros [v|]; [apply finishes_as_refl|].
  apply finishes_as_bind.
  { apply finishes_as_try_catch; [|intros; apply finishes_as_refl].
    apply finishes_as_bind; [apply Hd|]. intros; apply finishes_as_refl. }
  intros [v|]; [apply finishes_as_refl|].
  apply finishes_as_bind.
  { apply finishes_as_try_catch; [|intros; apply finishes_as_refl].
    apply finishes_as_bind; [apply Hb|]. intros; apply finishes_as_refl. }
  intros; apply finishes_as_refl.
Qed.

(** A chain of delegations of depth [n] is resolved by [n + 1] provider
    calls, given that much fuel. *)
Lemma resolver_terminates op id n :
  resolves_in httpClient op id n → op ≠ retrieve_a_page →
  ∀ fuel st, n < fuel →
    ∃ r st', resolver httpClient op fuel id st = Done (Ok r) st' ∧
             pageCache st' = pageCache st ∧
             length (calls st') = length (calls st) + S n.
Proof.
  induction 1 as [op id Hend|op id op' id' n Hhop Hrest IH];
    intros Hop fuel st Hfuel; (destruct fuel as [|fuel]; [lia|]).
  - destruct op; [done| |]; unfold resolver.
    + rewrite resolveBlockToPage_step.
      destruct (httpClient retrieve_a_block id) as [[[p|d|b|]|]|e];
        simplify_eq/=; eexists _, _; (split_and!; [done..|simpl; lia]).
    + rewrite getDatabaseParent_step.
      destruct (httpClient retrieve_a_database id) as [[[p|d|b|]|]|e];
        simplify_eq/=; eexists _, _; (split_and!; [done..|simpl; lia]).
  - assert (op' ≠ retrieve_a_page) as Hop'.
    { intros ->. destruct op; destruct (httpClient _ id) as [[[]|]|];
        simplify_eq/=. }
    destruct op; [done| |]; unfold resolver.
    + rewrite resolveBlockToPage_step.
      destruct (httpClient retrieve_a_block id) as [[[p|d|b|]|]|e];
        simplify_eq/=.
      * destruct (IH Hop' fuel (called retrieve_a_block id st))
          as (r & st' & Hr & Hc & Hl); [lia|].
        exists r, st'. split_and!; [done..|]. rewrite Hl. simpl. lia.
      * destruct (IH Hop' fuel (called retrieve_a_block id st))
          as (r & st' & Hr & Hc & Hl); [lia|].
        exists r, st'. split_and!; [done..|]. rewrite Hl. simpl. lia.
    + rewrite getDatabaseParent_step.
      destruct (httpClient retrieve_a_database id) as [[[p|d|b|]|]|e];
        simplify_eq/=.
      destruct (IH Hop' fuel (called retrieve_a_database id st))
        as (r & st' & Hr & Hc & Hl); [lia|].
      exists r, st'. split_and!; [done..|]. rewrite Hl. simpl. lia.
Qed.

End Resolver.

(** C8 (as stated, refuted): a block that is its own parent.  No amount
    of fuel lets [resolveBlockToPage] finish: the source recurses without
    a hop count. *)
Lemma resolveBlockToPage_follows_cycle_forever :
  ¬ ∃ fuel st r st',
      resolveBlockToPage Scenario.block_loop fuel Scenario.B1 st = Done r st'.
Proof.
  intros (fuel & st & r & st' & H). revert st H.
  induction fuel as [|fuel IH]; intros st H; [done|].
  rewrite resolveBlockToPage_step in H. simpl in H. by apply IH in H.
Qed.

(** C8 (amended): [resolveBlockToPage] has no hop limit.  It finishes,
    without an exception, exactly as deep as the provider's chain of block
    and database parents is: a chain that ends after [n] further lookups
    is resolved with [n + 1] provider calls and an untouched cache.  (On
    a chain that never ends, it does not return.) *)
Theorem resolveBlockToPage_terminates_on_finite_chains
    (httpClient : HttpClient) (blockId : string) (n : nat) :
  resolves_in httpClient retrieve_a_block blockId n →
  ∀ fuel st, n < fuel →
    ∃ r st', resolveBlockToPage httpClient fuel blockId st = Done (Ok r) st' ∧
             pageCache st' = pageCache st ∧
             length (calls st') = length (calls st) + S n.
Proof.
  intros Hchain. by apply (resolver_terminates httpClient _ _ _ Hchain).
Qed.

Lemma resolveBlockToPage_terminates_on_finite_chains_witness :
  ∃ r st', resolveBlockToPage Scenario.deep_block 3 Scenario.B1 fresh
           = Done (Ok r) st' ∧
           pageCache st' = pageCache fresh ∧
           length (calls st') = length (calls fresh) + 3.
Proof.
  apply (resolveBlockToPage_terminates_on_finite_chains
           Scenario.deep_block Scenario.B1 2); [|lia].
  apply (resolves_hop _ retrieve_a_block Scenario.B1
           retrieve_a_block Scenario.B2); [reflexivity|].
  apply (resolves_hop _ retrieve_a_block Scenario.B2
           retrieve_a_database Scenario.D); [reflexivity|].
  apply resolves_end. reflexivity.
Defined.

(** ** The hierarchy walk and the public entry *)

Section Walker.

Variable rootPageIds : gset string.
Variable httpClient : HttpClient.

Local Abbreviation getParentPageId := (getParentPageId httpClient).
Local Abbreviation findRootPageForResource := (findRootPageForResource httpClient).
Local Abbreviation loop_body := (loop_body rootPageIds httpClient).
Local Abbreviation hierarchy_loop := (hierarchy_loop rootPageIds httpClient).
Local Abbreviation checkPageHierarchy := (checkPageHierarchy rootPageIds httpClient).
Local Abbreviation isPageAllowed := (isPageAllowed rootPageIds httpClient).

Lemma never_throws_cache_set id e : never_throws (cache_set id e).
Proof. by intros st e' st'. Qed.

Lemma never_throws_cache_get id : never_throws (cache_get id).
Proof. by intros st e' st'. Qed.

Lemma never_throws_cache_all ids e : never_throws (cache_all ids e).
Proof.
  induction ids as [|id ids IH]; simpl; [apply never_throws_ret|].
  apply never_throws_bind; [apply never_throws_cache_set|done].
Qed.

Lemma never_throws_cache_missing ids e : never_throws (cache_missing ids e).
Proof.
  induction ids as [|id ids IH]; simpl; [apply never_throws_ret|].
  apply never_throws_bind; [apply never_throws_cache_get|]. intros c.
  apply never_throws_bind; [|done].
  destruct c; [apply never_throws_ret|apply never_throws_cache_set].
Qed.

Lemma never_throws_after_loop visited : never_throws (after_loop visited).
Proof.
  apply never_throws_bind; [apply never_throws_cache_missing|].
  intros; apply never_throws_ret.
Qed.

Lemma never_throws_loop_body fuel visited cur :
  never_throws (loop_body fuel visited cur).
Proof.
  unfold loop_body. case_bool_decide.
  - apply never_throws_bind; [apply never_throws_cache_all|].
    intros; apply never_throws_ret.
  - apply never_throws_try_catch. intros _.
    apply never_throws_bind; [apply never_throws_cache_set|].
    intros; apply never_throws_ret.
Qed.

Lemma never_throws_hierarchy_loop fuel visited cur :
  never_throws (hierarchy_loop fuel visited cur).
Proof.
  revert visited cur; induction fuel as [|fuel IH]; intros visited cur; simpl.
  { apply never_throws_out_of_fuel. }
  destruct cur as [cur|]; [|apply never_throws_after_loop].
  destruct (_ && _); [|apply never_throws_after_loop].
  apply never_throws_bind; [apply never_throws_loop_body|].
  intros [p| |b]; [apply IH|apply never_throws_after_loop|apply never_throws_ret].
Qed.

(** Past the normaliser, [isPageAllowed] lets no exception out. *)
Lemma isPageAllowed_throws fuel x st e st' :
  isPageAllowed fuel x st = Done (Throw e) st' →
  normalizePageId x = Throw e ∧ st' = st.
Proof.
  unfold isPageAllowed. destruct (negb _); [done|].
  unfold bind at 1, lift.
  destruct (normalizePageId x) as [nx|e'] eqn:Hn; [|by intros [= -> ->]].
  case_bool_decide; [done|]. intros Hrun; exfalso; revert Hrun.
  apply never_throws_bind; [apply never_throws_cache_get|].
  intros [entry|]; [apply never_throws_ret|].
  apply never_throws_bind; [apply findRootPageForResource_never_throws|].
  intros a. destruct (negb (truthy a)).
  - apply never_throws_bind; [apply never_throws_cache_set|].
    intros; apply never_throws_ret.
  - apply never_throws_bind; [apply never_throws_hierarchy_loop|].
    intros b. apply never_throws_bind; [apply never_throws_cache_set|].
    intros; apply never_throws_ret.
Qed.

(** The entry of [isPageAllowed] down to the cache miss. *)
Lemma isPageAllowed_miss fuel x nx st :
  isEnabled rootPageIds = true → normalizePageId x = Ok nx →
  nx ∉ rootPageIds → pageCache st !! nx = None →
  isPageAllowed fuel x st =
  (let* actualPageId := findRootPageForResource fuel nx in
   if negb (truthy actualPageId) then cache_set nx denied ;;; ret false
   else
     let* allowed := checkPageHierarchy fuel (default "" actualPageId) in
     cache_set nx {| parentId := actualPageId; isAllowed := allowed |} ;;;
     ret allowed) st.
Proof.
  intros Hen Hn Hroot Hmiss. unfold isPageAllowed. rewrite Hen. simpl.
  unfold bind at 1, lift. rewrite Hn.
  rewrite bool_decide_eq_false_2 by done.
  unfold bind at 1, cache_get. by rewrite Hmiss.
Qed.

Lemma isPageAllowed_hit fuel x nx st entry :
  isEnabled rootPageIds = true → normalizePageId x = Ok nx →
  nx ∉ rootPageIds → pageCache st !! nx = Some entry →
  isPageAllowed fuel x st = Done (Ok (isAllowed entry)) st.
Proof.
  intros Hen Hn Hroot Hhit. unfold isPageAllowed. rewrite Hen. simpl.
  unfold bind at 1, lift. rewrite Hn.
  rewrite bool_decide_eq_false_2 by done.
  unfold bind at 1, cache_get. by rewrite Hhit.
Qed.

Lemma isPageAllowed_root fuel x nx st :
  normalizePageId x = Ok nx → nx ∈ rootPageIds →
  isPageAllowed fuel x st = Done (Ok true) st.
Proof.
  intros Hn Hroot. unfold isPageAllowed. destruct (negb _); [done|].
  unfold bind, lift. rewrite Hn. by rewrite bool_decide_eq_true_2.
Qed.

Lemma isPageAllowed_disabled fuel x st :
  rootPageIds = ∅ → isPageAllowed fuel x st = Done (Ok true) st.
Proof. intros ->. done. Qed.

(** A finished call leaves the answer in the cache. *)
Lemma isPageAllowed_caches fuel x nx st b st1 :
  isEnabled rootPageIds = true → normalizePageId x = Ok nx →
  nx ∉ rootPageIds → isPageAllowed fuel x st = Done (Ok b) st1 →
  ∃ entry, pageCache st1 !! nx = Some entry ∧ isAllowed entry = b.
Proof.
  intros Hen Hn Hroot.
  destruct (pageCache st !! nx) as [entry|] eqn:Hc.
  - rewrite (isPageAllowed_hit _ _ _ _ _ Hen Hn Hroot Hc).
    intros [= <- <-]. eauto.
  - rewrite (isPageAllowed_miss _ _ _ _ Hen Hn Hroot Hc).
    unfold bind at 1.
    destruct (findRootPageForResource fuel nx st) as [|[a|e] s]; [done| |done].
    destruct (negb (truthy a)).
    + intros [= <- <-]. eexists. split; [apply lookup_insert_eq|done].
    + unfold bind at 1.
      destruct (checkPageHierarchy _ _ s) as [|[allowed|e] s2]; [done| |done].
      intros [= <- <-]. eexists. split; [apply lookup_insert_eq|done].
Qed.

(** The two [forEach] loops finish, make no provider call and leave
    the entries of all other ids alone. *)
Lemma cache_all_done ids e st :
  ∃ st', cache_all ids e st = Done (Ok tt) st' ∧ calls st' = calls st ∧
         ∀ k, k ∉ ids → pageCache st' !! k = pageCache st !! k.
Proof.
  revert st; induction ids as [|id ids IH]; intros st; simpl; [by eexists|].
  unfold bind, cache_set.
  destruct (IH {| pageCache := <[id:=e]> (pageCache st); calls := calls st |})
    as (st' & -> & Hc & Hk). exists st'. split_and!; [done..|].
  intros k [Hne Hk']%not_elem_of_cons. rewrite (Hk k Hk'). simpl.
  by rewrite lookup_insert_ne.
Qed.

Lemma cache_missing_done ids e st :
  ∃ st', cache_missing ids e st = Done (Ok tt) st' ∧ calls st' = calls st ∧
         ∀ k, k ∉ ids → pageCache st' !! k = pageCache st !! k.
Proof.
  revert st; induction ids as [|id ids IH]; intros st; simpl; [by eexists|].
  unfold bind at 1, cache_get. unfold bind at 1.
  destruct (pageCache st !! id).
  - unfold ret. destruct (IH st) as (st' & -> & Hc & Hk).
    exists st'. split_and!; [done..|].
    intros k [_ Hk']%not_elem_of_cons. by apply Hk.
  - unfold cache_set.
    destruct (IH {| pageCache := <[id:=e]> (pageCache st); calls := calls st |})
      as (st' & -> & Hc & Hk). exists st'. split_and!; [done..|].
    intros k [Hne Hk']%not_elem_of_cons. rewrite (Hk k Hk'). simpl.
    by rewrite lookup_insert_ne.
Qed.

Lemma after_loop_done visited st :
  ∃ st', after_loop visited st = Done (Ok false) st' ∧ calls st' = calls st ∧
         ∀ k, k ∉ visited → pageCache st' !! k = pageCache st !! k.
Proof.
  unfold after_loop, bind.
  destruct (cache_missing_done visited denied st) as (st' & -> & ? & ?).
  by exists st'.
Qed.

(** A lookup that finished from the fresh state within [f] delegations
    finishes from every state, with at least that much fuel. *)
Lemma getParentPageId_transport f fuel id r s st :
  getParentPageId f id fresh = Done r s → f ≤ fuel →
  getParentPageId fuel id st = relocate st (Done r s).
Proof.
  intros Hrun Hle.
  apply (getParentPageId_fuel_mono httpClient _ _ id Hle) in Hrun.
  by rewrite (lookup_only_getParentPageId httpClient fuel id st), Hrun.
Qed.

Lemma findRootPageForResource_transport f fuel id r s st :
  findRootPageForResource f id fresh = Done r s → f ≤ fuel →
  findRootPageForResource fuel id st = relocate st (Done r s).
Proof.
  intros Hrun Hle.
  apply (findRootPageForResource_fuel_mono httpClient _ _ id Hle) in Hrun.
  by rewrite (lookup_only_findRootPageForResource httpClient fuel id st), Hrun.
Qed.

(** The chain of a page has one length and one end. *)
Lemma climbs_deterministic f a n b m b' :
  climbs rootPageIds httpClient f a n b →
  climbs rootPageIds httpClient f a m b' → n = m ∧ b = b'.
Proof.
  intros H; revert m b'.
  induction H as [a Ha Hr|a p s Ha Hr Hp Hf|a p s n b Ha Hr Hp Hne Hrest IH];
    intros m b' H';
    inversion H' as [a' Ha' Hr'|a' p' s' Ha' Hr' Hp' Hf'
                    |a' p' s' n' b'' Ha' Hr' Hp' Hne' Hrest'];
    subst; try done.
  - rewrite Hp in Hp'. injection Hp' as -> _. simpl in Hf. congruence.
  - rewrite Hp in Hp'. injection Hp' as <- _. simpl in Hf'. congruence.
  - rewrite Hp in Hp'. injection Hp' as <- _.
    by destruct (IH _ _ Hrest') as [-> ->].
Qed.

(** The three ways through the body of the loop. *)
Lemma loop_body_root fuel visited cur st :
  cur ∈ rootPageIds →
  ∃ st', loop_body fuel visited cur st = Done (Ok (Return true)) st' ∧
         calls st' = calls st ∧
         ∀ k, k ∉ visited → pageCache st' !! k = pageCache st !! k.
Proof.
  intros Hr. unfold loop_body. rewrite bool_decide_eq_true_2 by done.
  unfold bind.
  destruct (cache_all_done visited granted st) as (st' & -> & ? & ?).
  by exists st'.
Qed.

Lemma loop_body_parent f fuel visited cur p s st :
  cur ∉ rootPageIds → getParentPageId f cur fresh = Done (Ok p) s → f ≤ fuel →
  loop_body fuel visited cur st =
  Done (Ok (if truthy p then Continue p else Break))
       {| pageCache := <[cur := {| parentId := p; isAllowed := false |}]>
                         (pageCache st);
          calls := calls s ++ calls st |}.
Proof.
  intros Hr Hp Hle. unfold loop_body. rewrite bool_decide_eq_false_2 by done.
  unfold try_catch, bind.
  rewrite (getParentPageId_transport f fuel cur _ _ st Hp Hle). simpl.
  by destruct (truthy p).
Qed.

Lemma loop_body_failure f fuel visited cur e s st :
  cur ∉ rootPageIds → getParentPageId f cur fresh = Done (Throw e) s →
  f ≤ fuel →
  loop_body fuel visited cur st =
  Done (Ok (Return false))
       {| pageCache := <[cur := denied]> (pageCache st);
          calls := calls s ++ calls st |}.
Proof.
  intros Hr Hp Hle. unfold loop_body. rewrite bool_decide_eq_false_2 by done.
  unfold try_catch, bind.
  by rewrite (getParentPageId_transport f fuel cur _ _ st Hp Hle).
Qed.

(** One turn of the loop on a page that has not been visited. *)
Lemma hierarchy_loop_enter fuel visited cur st :
  non_empty cur = true → cur ∉ visited →
  hierarchy_loop (S fuel) visited (Some cur) st =
  match loop_body fuel (visited ++ [cur]) cur st with
  | OutOfFuel => OutOfFuel
  | Done (Ok (Continue parentId)) st' =>
      hierarchy_loop fuel (visited ++ [cur]) parentId st'
  | Done (Ok Break) st' => after_loop (visited ++ [cur]) st'
  | Done (Ok (Return b)) st' => Done (Ok b) st'
  | Done (Throw e) st' => Done (Throw e) st'
  end.
Proof.
  intros Hne Hfresh. simpl. rewrite Hne, bool_decide_eq_false_2 by done.
  simpl. unfold bind.
  by destruct (loop_body _ _ _ _) as [|[[| |]|] ?].
Qed.

(** The loop leaves at once on a page that was visited. *)
Lemma hierarchy_loop_revisit fuel visited cur st :
  cur ∈ visited →
  hierarchy_loop (S fuel) visited (Some cur) st = after_loop visited st.
Proof.
  intros Hin. simpl. rewrite (bool_decide_eq_true_2 _ Hin).
  by rewrite andb_false_r.
Qed.

(** The loop follows the chain to its end: the visited pages all lie
    further from the end than the current one, so the test for a
    revisit never stops the walk early. *)
Lemma hierarchy_loop_climbs f a n b :
  climbs rootPageIds httpClient f a n b →
  ∀ fuel visited st,
    f + n + 1 ≤ fuel →
    (∀ v, v ∈ visited → ∃ m, n < m ∧ climbs rootPageIds httpClient f v m b) →
    ∃ st', hierarchy_loop fuel visited (Some a) st = Done (Ok b) st'.
Proof.
  intros H.
  induction H as [a Ha Hr|a p s Ha Hr Hp Hf|a p s n b Ha Hr Hp Hne Hrest IH];
    intros fuel visited st Hfuel Hvis;
    (destruct fuel as [|fuel]; [lia|]).
  - assert (a ∉ visited) as Hfresh.
    { intros (m & Hm & Hc)%Hvis.
      destruct (climbs_deterministic _ _ _ _ _ _ (climbs_root _ _ f a Ha Hr) Hc).
      lia. }
    rewrite hierarchy_loop_enter by done.
    destruct (loop_body_root fuel (visited ++ [a]) a st Hr) as (st' & -> & _).
    by eexists.
  - assert (a ∉ visited) as Hfresh.
    { intros (m & Hm & Hc)%Hvis.
      destruct (climbs_deterministic _ _ _ _ _ _
                  (climbs_top _ _ f a p s Ha Hr Hp Hf) Hc). lia. }
    rewrite hierarchy_loop_enter by done.
    rewrite (loop_body_parent f fuel _ a p s st Hr Hp) by lia. rewrite Hf.
    destruct (after_loop_done (visited ++ [a])
                {| pageCache := <[a:={| parentId := p; isAllowed := false |}]>
                                  (pageCache st);
                   calls := calls s ++ calls st |}) as (st' & -> & _).
    by eexists.
  - assert (a ∉ visited) as Hfresh.
    { intros (m & Hm & Hc)%Hvis.
      destruct (climbs_deterministic _ _ _ _ _ _
                  (climbs_hop _ _ f a p s n b Ha Hr Hp Hne Hrest) Hc). lia. }
    rewrite hierarchy_loop_enter by done.
    rewrite (loop_body_parent f fuel _ a (Some p) s st Hr Hp) by lia.
    simpl. rewrite Hne.
    apply IH; [lia|].
    intros v [Hv| ->%list_elem_of_singleton]%elem_of_app.
    + destruct (Hvis v Hv) as (m & Hm & Hc). exists m. split; [lia|done].
    + exists (S n). split; [lia|]. by eapply climbs_hop.
Qed.

End Walker.

(** C2: with an empty root set every input, malformed or not, is allowed;
    with a non-empty one, every input whose normal form is a root is
    allowed.  In both cases the state is returned as it was: no provider
    call is made and the cache is not consulted. *)
Theorem isPageAllowed_short_circuits
    (rootPageIds : gset string) (httpClient : HttpClient)
    (fuel : nat) (resourceId : string) (st : State) :
  rootPageIds = ∅ ∨
  (∃ id, normalizePageId resourceId = Ok id ∧ id ∈ rootPageIds) →
  isPageAllowed rootPageIds httpClient fuel resourceId st = Done (Ok true) st.
Proof.
  intros [Hempty|(id & Hn & Hin)].
  - by apply isPageAllowed_disabled.
  - by eapply isPageAllowed_root.
Qed.

Lemma isPageAllowed_short_circuits_witness :
  isPageAllowed ∅ Scenario.page_cycle 0 "not an id" fresh = Done (Ok true) fresh ∧
  isPageAllowed {[Scenario.P1]} Scenario.page_cycle 0
    "11111111111111111111111111111111" fresh = Done (Ok true) fresh.
Proof.
  split.
  - apply isPageAllowed_short_circuits. by left.
  - apply isPageAllowed_short_circuits. right. exists Scenario.P1.
    split; [reflexivity|set_solver].
Defined.

(** C9 (as stated, refuted): the database [D] lies in the root page [P1]
    and [isPageAllowed] grants it.  Then, with no [clearCache], a call
    for the page [Y], which reports the id [D] as its parent page, walks
    to [D], fails to read it as a page and writes a denying entry over
    the granting one.  The next call for [D] returns [false], from the
    cache and without a provider call. *)
Lemma isPageAllowed_answer_overwritten :
  ∃ st1 st2,
    isPageAllowed {[Scenario.P1]} Scenario.database_as_page_parent 3
      Scenario.D fresh = Done (Ok true) st1 ∧
    isPageAllowed {[Scenario.P1]} Scenario.database_as_page_parent 3
      Scenario.Y st1 = Done (Ok false) st2 ∧
    isPageAllowed {[Scenario.P1]} Scenario.database_as_page_parent 3
      Scenario.D st2 = Done (Ok false) st2.
Proof.
  eexists _, _. split; [vm_compute; reflexivity|].
  split; vm_compute; reflexivity.
Qed.

(** C9 (amended): once [isPageAllowed] has returned [b] for an id, a
    later call for the same id returns [b] again, from whatever state in
    which the cache entry of the normalised id is the one that the first
    call left, and leaves that state as it is: no provider call is made
    and the cache is unchanged.  This is so of a call repeated at once,
    and of every repetition after it.  When access control is on and the
    id is not a root, [b] is the [isAllowed] field of that cache entry. *)
Theorem isPageAllowed_repeated_call
    (rootPageIds : gset string) (httpClient : HttpClient)
    (fuel : nat) (resourceId : string) (st st1 : State) (b : bool) :
  isPageAllowed rootPageIds httpClient fuel resourceId st = Done (Ok b) st1 →
  ∀ fuel' st2,
    (∀ id, normalizePageId resourceId = Ok id →
       pageCache st2 !! id = pageCache st1 !! id) →
    isPageAllowed rootPageIds httpClient fuel' resourceId st2 = Done (Ok b) st2 ∧
    (isEnabled rootPageIds = true →
     ∀ id, normalizePageId resourceId = Ok id → id ∉ rootPageIds →
       ∃ entry, pageCache st1 !! id = Some entry ∧ isAllowed entry = b).
Proof.
  intros Hfirst fuel' st2 Hsame.
  destruct (isEnabled rootPageIds) eqn:Hen.
  - destruct (normalizePageId resourceId) as [nx|e] eqn:Hn.
    + destruct (decide (nx ∈ rootPageIds)) as [Hroot|Hroot].
      * rewrite (isPageAllowed_root _ _ _ _ _ _ Hn Hroot) in Hfirst.
        injection Hfirst as <- <-.
        split; [by eapply isPageAllowed_root|]. intros _ id [= <-]. done.
      * destruct (isPageAllowed_caches _ _ _ _ _ _ _ _ Hen Hn Hroot Hfirst)
          as (entry & Hentry & <-).
        split.
        -- eapply isPageAllowed_hit; [done..|]. by rewrite (Hsame nx).
        -- intros _ id [= <-] _. eauto.
    + exfalso. revert Hfirst. unfold isPageAllowed. rewrite Hen. simpl.
      unfold bind, lift. by rewrite Hn.
  - split; [|done]. revert Hfirst. unfold isPageAllowed. rewrite Hen. simpl.
    by intros [= <- <-].
Qed.

Lemma isPageAllowed_repeated_call_witness :
  ∃ st1 st2,
    isPageAllowed {[Scenario.P1]} Scenario.nested_block 3 Scenario.X fresh
    = Done (Ok true) st1 ∧
    isPageAllowed {[Scenario.P1]} Scenario.nested_block 3 Scenario.B1 st1
    = Done (Ok true) st2 ∧
    isPageAllowed {[Scenario.P1]} Scenario.nested_block 0 Scenario.X st2
    = Done (Ok true) st2.
Proof.
  eexists _, _. split; [vm_compute; reflexivity|].
  split; [vm_compute; reflexivity|].
  eapply (isPageAllowed_repeated_call
            {[Scenario.P1]} Scenario.nested_block 3 Scenario.X fresh _ true).
  - vm_compute. reflexivity.
  - intros id Hid. vm_compute in Hid. injection Hid as <-.
    vm_compute. reflexivity.
Defined.

(** C10: for an input that normalises, no exception leaves
    [isPageAllowed], whatever the provider does: a run that finishes
    returns a boolean.  The only exception that [isPageAllowed] can raise
    is the one of [normalizePageId], raised before any provider call. *)
Theorem isPageAllowed_contains_provider_failures
    (rootPageIds : gset string) (httpClient : HttpClient)
    (fuel : nat) (resourceId : string) (st : State) :
  (∀ id, normalizePageId resourceId = Ok id →
     isPageAllowed rootPageIds httpClient fuel resourceId st = OutOfFuel ∨
     ∃ b st', isPageAllowed rootPageIds httpClient fuel resourceId st
              = Done (Ok b) st') ∧
  (∀ e st', isPageAllowed rootPageIds httpClient fuel resourceId st
            = Done (Throw e) st' →
     normalizePageId resourceId = Throw e ∧ st' = st).
Proof.
  split.
  - intros id Hid.
    destruct (isPageAllowed _ _ _ _ _) as [|[b|e] st'] eqn:Hrun; [by left|eauto|].
    apply isPageAllowed_throws in Hrun as [Hrun _]. congruence.
  - intros e st'. apply isPageAllowed_throws.
Qed.

Lemma isPageAllowed_contains_provider_failures_witness :
  isPageAllowed {[Scenario.P1]} (λ _ _, Throw Scenario.not_found) 3 Scenario.X fresh
  = OutOfFuel ∨
  ∃ b st', isPageAllowed {[Scenario.P1]} (λ _ _, Throw Scenario.not_found) 3
             Scenario.X fresh = Done (Ok b) st'.
Proof.
  apply (isPageAllowed_contains_provider_failures
           {[Scenario.P1]} (λ _ _, Throw Scenario.not_found) 3 Scenario.X fresh)
    with (id := Scenario.X).
  reflexivity.
Defined.

(** With access control on, for an id that normalises and has no cache
    entry yet, [isPageAllowed] returns how the chain that the probe and
    [getParentPageId] read off the provider ends.  Fuel for the [n] hops
    and for the lookups of each hop is enough. *)
Lemma isPageAllowed_follows_climb
    (rootPageIds : gset string) (httpClient : HttpClient)
    (resourceId id : string) (f n : nat) (b : bool) (st : State) :
  isEnabled rootPageIds = true →
  normalizePageId resourceId = Ok id →
  (id ∉ rootPageIds → pageCache st !! id = None) →
  chain_ends rootPageIds httpClient f id n b →
  ∀ fuel, f + n + 1 ≤ fuel →
    ∃ st', isPageAllowed rootPageIds httpClient fuel resourceId st
           = Done (Ok b) st'.
Proof.
  intros Hen Hn Hmiss Hchain fuel Hfuel.
  destruct Hchain as [Hroot|p s Hroot Hfind Hp|a s n b Hroot Hfind Ha Hclimb].
  - exists st. by eapply isPageAllowed_root.
  - rewrite (isPageAllowed_miss _ _ _ _ _ _ Hen Hn Hroot (Hmiss Hroot)).
    unfold bind at 1.
    rewrite (findRootPageForResource_transport _ f fuel id _ _ st Hfind) by lia.
    simpl. rewrite Hp. simpl. by eexists.
  - rewrite (isPageAllowed_miss _ _ _ _ _ _ Hen Hn Hroot (Hmiss Hroot)).
    unfold bind at 1.
    rewrite (findRootPageForResource_transport _ f fuel id _ _ st Hfind) by lia.
    simpl. rewrite Ha. simpl. unfold bind at 1, checkPageHierarchy.
    edestruct (hierarchy_loop_climbs rootPageIds httpClient f a n b Hclimb fuel [])
      as (st' & ->); [lia|by intros v ?%elem_of_nil|].
    by eexists.
Qed.

Section Probe.

Variable httpClient : HttpClient.

(** The kind probe stops at the first lookup when the id is a page. *)
Lemma findRootPageForResource_page fuel id data st :
  httpClient retrieve_a_page id = Ok data →
  findRootPageForResource httpClient fuel id st
  = Done (Ok (Some id)) (called retrieve_a_page id st).
Proof.
  intros Hpage.
  unfold findRootPageForResource, try_catch, bind, executeOperation.
  by rewrite Hpage.
Qed.

(** When the id is no page, the probe goes on with the database and the
    block lookups. *)
Lemma findRootPageForResource_not_page fuel id e st :
  httpClient retrieve_a_page id = Throw e →
  findRootPageForResource httpClient fuel id st =
  match getDatabaseParent httpClient fuel id (called retrieve_a_page id st) with
  | OutOfFuel => OutOfFuel
  | Done r st1 =>
      if truthy (if r is Ok p then p else None) then Done r st1
      else match resolveBlockToPage httpClient fuel id st1 with
           | OutOfFuel => OutOfFuel
           | Done r' st2 =>
               if truthy (if r' is Ok p then p else None) then Done r' st2
               else Done (Ok None) st2
           end
  end.
Proof.
  intros Hpage.
  unfold findRootPageForResource, try_catch, bind, executeOperation, called.
  rewrite Hpage. unfold ret.
  pose proof (getDatabaseParent_never_throws httpClient fuel id) as Hd.
  destruct (getDatabaseParent _ _ _ _) as [|[p|e'] st1] eqn:Ed; [done| |].
  - destruct (truthy p) eqn:Hp; [done|].
    pose proof (resolveBlockToPage_never_throws httpClient fuel id) as Hb.
    destruct (resolveBlockToPage _ _ _ _) as [|[p'|e'] st2] eqn:Eb; [done| |].
    + by destruct (truthy p').
    + by destruct (Hb _ _ _ Eb).
  - by destruct (Hd _ _ _ Ed).
Qed.

End Probe.

(** C7: two pages that are each other's parent, neither of them a root.
    [isPageAllowed] on the first one finishes with [false] after three
    provider calls (the probe of [A], the parent of [A], the parent of
    [B]): the walk stops when it is led back to [A]. *)
Theorem isPageAllowed_page_cycle_denied
    (rootPageIds : gset string) (httpClient : HttpClient)
    (A B : string) (st : State) :
  isEnabled rootPageIds = true →
  normalizePageId A = Ok A → non_empty B = true → A ≠ B →
  A ∉ rootPageIds → B ∉ rootPageIds →
  httpClient retrieve_a_page A = Ok (Some (page_id B)) →
  httpClient retrieve_a_page B = Ok (Some (page_id A)) →
  pageCache st !! A = None →
  ∀ fuel, 3 ≤ fuel →
    ∃ st', isPageAllowed rootPageIds httpClient fuel A st = Done (Ok false) st' ∧
           calls st' = [(retrieve_a_page, B); (retrieve_a_page, A);
                        (retrieve_a_page, A)] ++ calls st.
Proof.
  intros Hen HnA HneB Hdiff HrA HrB HpA HpB Hmiss fuel Hfuel.
  pose proof (normalizePageId_non_empty _ _ HnA) as HneA.
  rewrite (isPageAllowed_miss _ _ _ _ _ _ Hen HnA HrA Hmiss).
  unfold bind at 1. rewrite (findRootPageForResource_page _ _ _ _ _ HpA).
  simpl. rewrite HneA. simpl. unfold bind at 1, checkPageHierarchy.
  destruct fuel as [|[|[|fuel]]]; [lia..|].
  assert (getParentPageId httpClient 0 A fresh
          = Done (Ok (Some B)) (called retrieve_a_page A fresh)) as HgA.
  { by rewrite getParentPageId_step, HpA. }
  assert (getParentPageId httpClient 0 B fresh
          = Done (Ok (Some A)) (called retrieve_a_page B fresh)) as HgB.
  { by rewrite getParentPageId_step, HpB. }
  rewrite hierarchy_loop_enter by (done || by intros ?%elem_of_nil).
  rewrite (loop_body_parent _ _ 0 _ _ A _ _ _ HrA HgA) by lia.
  simpl truthy. rewrite HneB.
  rewrite hierarchy_loop_enter
    by (done || by intros ?%list_elem_of_singleton).
  rewrite (loop_body_parent _ _ 0 _ _ B _ _ _ HrB HgB) by lia.
  simpl truthy. rewrite HneA.
  rewrite hierarchy_loop_revisit by set_solver.
  match goal with |- context [after_loop ?v ?s] =>
    destruct (after_loop_done v s) as (st' & -> & Hcalls & _) end.
  eexists. split; [done|]. simpl. by rewrite Hcalls.
Qed.

Lemma isPageAllowed_page_cycle_denied_witness :
  ∃ st', isPageAllowed {[Scenario.P1]} Scenario.page_cycle 3 Scenario.X fresh
         = Done (Ok false) st' ∧
         calls st' = [(retrieve_a_page, Scenario.B1); (retrieve_a_page, Scenario.X);
                      (retrieve_a_page, Scenario.X)] ++ calls fresh.
Proof.
  apply (isPageAllowed_page_cycle_denied
           {[Scenario.P1]} Scenario.page_cycle Scenario.X Scenario.B1 fresh);
    first [reflexivity|discriminate|lia|vm_compute; congruence].
Defined.

(** ** A page below a block below a root *)

Section BlockChild.

Variable rootPageIds : gset string.
Variable httpClient : HttpClient.
Variables X B1 P1 : string.

Hypothesis enabled : isEnabled rootPageIds = true.
Hypothesis root_P1 : P1 ∈ rootPageIds.
Hypothesis P1_non_empty : non_empty P1 = true.
Hypothesis block_B1 : httpClient retrieve_a_block B1 = Ok (Some (page_id P1)).

(** The page [X] whose parent is the block [B1]: three provider calls,
    and no cache entry for any id other than [X] and [P1]. *)
Lemma block_child_allowed st fuel :
  normalizePageId X = Ok X → X ∉ rootPageIds →
  httpClient retrieve_a_page X = Ok (Some (block_id B1)) →
  pageCache st !! X = None → 2 ≤ fuel →
  ∃ st1, isPageAllowed rootPageIds httpClient fuel X st = Done (Ok true) st1 ∧
         calls st1 = [(retrieve_a_block, B1); (retrieve_a_page, X);
                      (retrieve_a_page, X)] ++ calls st ∧
         ∀ k, k ≠ X → k ≠ P1 → pageCache st1 !! k = pageCache st !! k.
Proof using enabled root_P1 P1_non_empty block_B1.
  intros HnX HrX HpX Hmiss Hfuel.
  pose proof (normalizePageId_non_empty _ _ HnX) as HneX.
  rewrite (isPageAllowed_miss _ _ _ _ _ _ enabled HnX HrX Hmiss).
  unfold bind at 1. rewrite (findRootPageForResource_page _ _ _ _ _ HpX).
  simpl. rewrite HneX. simpl. unfold bind at 1, checkPageHierarchy.
  destruct fuel as [|[|fuel]]; [lia..|].
  assert (getParentPageId httpClient 1 X fresh
          = Done (Ok (Some P1))
              (called retrieve_a_block B1 (called retrieve_a_page X fresh)))
    as HgX.
  { by rewrite getParentPageId_step, HpX, resolveBlockToPage_step, block_B1. }
  rewrite hierarchy_loop_enter by (done || by intros ?%elem_of_nil).
  rewrite (loop_body_parent _ _ 1 _ _ X _ _ _ HrX HgX) by lia.
  simpl truthy. rewrite P1_non_empty.
  assert (P1 ∉ [] ++ [X]) as Hfresh.
  { intros ->%list_elem_of_singleton. done. }
  rewrite hierarchy_loop_enter by done.
  match goal with |- context [loop_body _ _ ?f ?v P1 ?s] =>
    destruct (loop_body_root rootPageIds httpClient f v P1 s root_P1)
      as (st' & -> & Hcalls & Hkeys) end.
  eexists. split; [done|]. simpl. split; [by rewrite Hcalls|].
  intros k HkX HkP. rewrite lookup_insert_ne by done.
  rewrite Hkeys by set_solver. simpl. by rewrite lookup_insert_ne.
Qed.

(** The block [B1] itself, when the provider knows it neither as a page
    nor as a database: the three probes are made. *)
Lemma block_parent_allowed st fuel e1 e2 :
  normalizePageId B1 = Ok B1 → B1 ∉ rootPageIds →
  httpClient retrieve_a_page B1 = Throw e1 →
  httpClient retrieve_a_database B1 = Throw e2 →
  pageCache st !! B1 = None → 1 ≤ fuel →
  ∃ st2, isPageAllowed rootPageIds httpClient fuel B1 st = Done (Ok true) st2 ∧
         calls st2 = [(retrieve_a_block, B1); (retrieve_a_database, B1);
                      (retrieve_a_page, B1)] ++ calls st.
Proof using enabled root_P1 P1_non_empty block_B1.
  intros HnB HrB HpB HdB Hmiss Hfuel.
  rewrite (isPageAllowed_miss _ _ _ _ _ _ enabled HnB HrB Hmiss).
  unfold bind at 1.
  rewrite (findRootPageForResource_not_page _ _ _ _ _ HpB).
  destruct fuel as [|fuel]; [lia|].
  rewrite getDatabaseParent_step, HdB. simpl truthy. cbv iota.
  rewrite resolveBlockToPage_step, block_B1. simpl truthy.
  rewrite P1_non_empty. simpl. rewrite P1_non_empty. simpl.
  unfold bind at 1, checkPageHierarchy.
  rewrite hierarchy_loop_enter by (done || by intros ?%elem_of_nil).
  match goal with |- context [loop_body _ _ ?f ?v P1 ?s] =>
    destruct (loop_body_root rootPageIds httpClient f v P1 s root_P1)
      as (st' & -> & Hcalls & _) end.
  eexists. split; [done|]. simpl. by rewrite Hcalls.
Qed.

End BlockChild.

(** C6 (as stated, refuted): in the scenario, with every lookup that the
    scenario does not mention failing, no run of [isPageAllowed(B1)] after
    [isPageAllowed(X)] finishes without further provider calls. *)
Lemma isPageAllowed_block_not_cached :
  ¬ ∃ fuel fuel' st1 r st2,
      isPageAllowed {[Scenario.P1]} Scenario.nested_block fuel Scenario.X fresh
      = Done (Ok true) st1 ∧
      isPageAllowed {[Scenario.P1]} Scenario.nested_block fuel' Scenario.B1 st1
      = Done r st2 ∧
      calls st2 = calls st1.
Proof.
  intros (fuel & fuel' & st1 & r & st2 & Hfirst & Hsecond & Hcalls).
  assert (P1_root : Scenario.P1 ∈ ({[Scenario.P1]} : gset string)) by set_solver.
  assert (X_root : Scenario.X ∉ ({[Scenario.P1]} : gset string)).
  { intros ?%elem_of_singleton. done. }
  assert (B1_root : Scenario.B1 ∉ ({[Scenario.P1]} : gset string)).
  { intros ?%elem_of_singleton. done. }
  assert (Hen : isEnabled ({[Scenario.P1]} : gset string) = true) by reflexivity.
  destruct (decide (2 ≤ fuel)) as [Hfuel|Hfuel].
  - destruct (block_child_allowed {[Scenario.P1]} Scenario.nested_block
                Scenario.X Scenario.B1 Scenario.P1 Hen P1_root eq_refl eq_refl
                fresh fuel eq_refl X_root eq_refl eq_refl Hfuel)
      as (st1' & Hrun & _ & Hkeys).
    rewrite Hrun in Hfirst. injection Hfirst as <-.
    assert (pageCache st1' !! Scenario.B1 = None) as Hmiss.
    { by rewrite Hkeys. }
    destruct fuel' as [|fuel'].
    + rewrite (isPageAllowed_miss _ _ _ Scenario.B1 Scenario.B1 _ Hen eq_refl
                 B1_root Hmiss)
        in Hsecond.
      unfold bind at 1 in Hsecond.
      rewrite (findRootPageForResource_not_page Scenario.nested_block 0
                 Scenario.B1 Scenario.not_found _ eq_refl) in Hsecond.
      discriminate Hsecond.
    + destruct (block_parent_allowed {[Scenario.P1]} Scenario.nested_block
                  Scenario.B1 Scenario.P1 Hen P1_root eq_refl eq_refl
                  st1' (S fuel') Scenario.not_found Scenario.not_found
                  eq_refl B1_root eq_refl eq_refl Hmiss ltac:(lia))
        as (st2' & Hrun2 & Hcalls2).
      rewrite Hrun2 in Hsecond. injection Hsecond as _ <-.
      rewrite Hcalls2 in Hcalls. apply (f_equal length) in Hcalls.
      simpl in Hcalls. lia.
  - assert (fuel = 0 ∨ fuel = 1) as [-> | ->] by lia;
      vm_compute in Hfirst; discriminate Hfirst.
Qed.

(** C6 (amended): root set [{P1}], page [X] with the block [B1] as parent,
    block [B1] with the page [P1] as parent.  [isPageAllowed(X)] returns
    [true] and leaves no cache entry for [B1].  When [B1] is neither a
    page nor a database for the provider, [isPageAllowed(B1)] afterwards
    returns [true] as well, but from the provider: after the page, the
    database and the block lookup of [B1]. *)
Theorem isPageAllowed_block_resolved_again
    (httpClient : HttpClient) (X B1 P1 : string) (e1 e2 : Error) (fuel : nat) :
  normalizePageId X = Ok X → normalizePageId B1 = Ok B1 →
  normalizePageId P1 = Ok P1 →
  X ≠ P1 → B1 ≠ P1 → B1 ≠ X →
  httpClient retrieve_a_page X = Ok (Some (block_id B1)) →
  httpClient retrieve_a_block B1 = Ok (Some (page_id P1)) →
  httpClient retrieve_a_page B1 = Throw e1 →
  httpClient retrieve_a_database B1 = Throw e2 →
  2 ≤ fuel →
  ∃ st1 st2,
    isPageAllowed {[P1]} httpClient fuel X fresh = Done (Ok true) st1 ∧
    pageCache st1 !! B1 = None ∧
    isPageAllowed {[P1]} httpClient fuel B1 st1 = Done (Ok true) st2 ∧
    calls st2 = [(retrieve_a_block, B1); (retrieve_a_database, B1);
                 (retrieve_a_page, B1)] ++ calls st1.
Proof.
  intros HnX HnB HnP HXP HBP HBX HpX HbB HpB HdB Hfuel.
  assert (Hen : isEnabled ({[P1]} : gset string) = true).
  { unfold isEnabled. by rewrite size_singleton. }
  assert (P1_root : P1 ∈ ({[P1]} : gset string)) by set_solver.
  assert (X_root : X ∉ ({[P1]} : gset string)) by set_solver.
  assert (B1_root : B1 ∉ ({[P1]} : gset string)) by set_solver.
  pose proof (normalizePageId_non_empty _ _ HnP) as HneP.
  destruct (block_child_allowed {[P1]} httpClient X B1 P1 Hen P1_root HneP HbB
              fresh fuel HnX X_root HpX eq_refl Hfuel)
    as (st1 & Hrun & _ & Hkeys).
  assert (pageCache st1 !! B1 = None) as Hmiss by (by rewrite Hkeys).
  destruct (block_parent_allowed {[P1]} httpClient B1 P1 Hen P1_root HneP HbB
              st1 fuel e1 e2 HnB B1_root HpB HdB Hmiss ltac:(lia))
    as (st2 & Hrun2 & Hcalls2).
  by exists st1, st2.
Qed.

Lemma isPageAllowed_block_resolved_again_witness :
  ∃ st1 st2,
    isPageAllowed {[Scenario.P1]} Scenario.nested_block 2 Scenario.X fresh
    = Done (Ok true) st1 ∧
    pageCache st1 !! Scenario.B1 = None ∧
    isPageAllowed {[Scenario.P1]} Scenario.nested_block 2 Scenario.B1 st1
    = Done (Ok true) st2 ∧
    calls st2 = [(retrieve_a_block, Scenario.B1);
                 (retrieve_a_database, Scenario.B1);
                 (retrieve_a_page, Scenario.B1)] ++ calls st1.
Proof.
  apply (isPageAllowed_block_resolved_again Scenario.nested_block
           Scenario.X Scenario.B1 Scenario.P1
           Scenario.not_found Scenario.not_found 2);
    first [reflexivity|discriminate|lia].
Defined.

(** ** Which ids become cache keys *)

Section CacheKeys.

Variable rootPageIds : gset string.
Variable httpClient : HttpClient.
Variable P : string → Prop.

Hypothesis reports : provider_reports P httpClient.

Lemma lookup_only_cache {A} (m : M A) st r st' :
  lookup_only m → m st = Done r st' → pageCache st' = pageCache st.
Proof.
  intros Hm Hrun. rewrite (Hm st) in Hrun.
  destruct (m fresh) as [|r' s]; [done|]. simpl in Hrun. by simplify_eq.
Qed.

Lemma resolvers_yield fuel :
  (∀ id st p st',
     resolveBlockToPage httpClient fuel id st = Done (Ok (Some p)) st' → P p) ∧
  (∀ id st p st',
     getDatabaseParent httpClient fuel id st = Done (Ok (Some p)) st' → P p).
Proof using reports.
  induction fuel as [|fuel [IHb IHd]]; [by split|].
  split; intros id st p st'.
  - rewrite resolveBlockToPage_step.
    destruct (httpClient retrieve_a_block id) as [[[q|d|b|]|]|e] eqn:E;
      try done; [|by apply IHd|by apply IHb].
    intros [= <- <-]. by eapply reports.
  - rewrite getDatabaseParent_step.
    destruct (httpClient retrieve_a_database id) as [[[q|d|b|]|]|e] eqn:E;
      try done; [|by apply IHb].
    intros [= <- <-]. by eapply reports.
Qed.

Lemma getParentPageId_yield fuel id st p st' :
  getParentPageId httpClient fuel id st = Done (Ok (Some p)) st' → P p.
Proof using reports.
  destruct (resolvers_yield fuel) as [Hb Hd].
  rewrite getParentPageId_step.
  destruct (httpClient retrieve_a_page id) as [[[q|d|b|]|]|e] eqn:E;
    try done; [|by apply Hd|by apply Hb].
  intros [= <- <-]. by eapply reports.
Qed.

Lemma findRootPageForResource_yield fuel id st p st' :
  P id →
  findRootPageForResource httpClient fuel id st = Done (Ok (Some p)) st' → P p.
Proof using reports.
  intros Hid. destruct (resolvers_yield fuel) as [Hb Hd].
  destruct (httpClient retrieve_a_page id) as [data|e] eqn:E.
  - rewrite (findRootPageForResource_page _ _ _ _ _ E). by intros [= <- <-].
  - rewrite (findRootPageForResource_not_page _ _ _ _ _ E).
    destruct (getDatabaseParent _ _ _ _) as [|[q|e'] st1] eqn:Ed; [done| |].
    + destruct (truthy q) eqn:Hq.
      { intros [= -> <-]. by eapply Hd. }
      destruct (resolveBlockToPage _ _ _ _) as [|[q'|e'] st2] eqn:Eb; [done| |].
      * destruct (truthy q'); [|done]. intros [= -> <-]. by eapply Hb.
      * done.
    + simpl.
      destruct (resolveBlockToPage _ _ _ _) as [|[q'|e''] st2] eqn:Eb; [done| |].
      * destruct (truthy q'); [|done]. intros [= -> <-]. by eapply Hb.
      * done.
Qed.

Lemma keys_satisfy_insert k e st :
  keys_satisfy P st → P k →
  keys_satisfy P {| pageCache := <[k := e]> (pageCache st); calls := calls st |}.
Proof.
  intros Hst Hk k' Hsome. simpl in Hsome.
  destruct (decide (k = k')) as [<-|Hne]; [done|].
  rewrite lookup_insert_ne in Hsome by done. by apply Hst.
Qed.

Lemma keys_satisfy_within ids st st' :
  keys_satisfy P st → Forall P ids →
  (∀ k, k ∉ ids → pageCache st' !! k = pageCache st !! k) →
  keys_satisfy P st'.
Proof.
  intros Hst Hids Hsame k Hsome.
  destruct (decide (k ∈ ids)) as [Hin|Hout].
  - rewrite Forall_forall in Hids. by apply Hids.
  - rewrite Hsame in Hsome by done. by apply Hst.
Qed.

Lemma keys_satisfy_cache st st' :
  keys_satisfy P st → pageCache st' = pageCache st → keys_satisfy P st'.
Proof. intros Hst Heq k. rewrite Heq. apply Hst. Qed.

Lemma loop_body_keys fuel visited cur st step st' :
  keys_satisfy P st → P cur → Forall P visited →
  loop_body rootPageIds httpClient fuel visited cur st = Done (Ok step) st' →
  keys_satisfy P st' ∧ (∀ p, step = Continue (Some p) → P p).
Proof using reports.
  intros Hst Hcur Hvis. unfold loop_body. case_bool_decide as Hroot.
  - destruct (loop_body_root rootPageIds httpClient fuel visited cur st Hroot)
      as (st1 & Hrun & _ & Hsame).
    unfold loop_body in Hrun. rewrite bool_decide_eq_true_2 in Hrun by done.
    rewrite Hrun. intros [= <- <-].
    split; [by eapply keys_satisfy_within|done].
  - unfold try_catch, bind at 1.
    destruct (getParentPageId httpClient fuel cur st) as [|[p|e] s] eqn:Eg;
      [done| |].
    + pose proof (lookup_only_cache _ _ _ _
                    (lookup_only_getParentPageId httpClient fuel cur) Eg) as Hc.
      unfold bind, cache_set. destruct (truthy p) eqn:Hp.
      * intros [= <- <-]. split.
        -- apply (keys_satisfy_insert _ _ s); [|done].
           by eapply keys_satisfy_cache.
        -- intros q [= ->]. by eapply getParentPageId_yield.
      * intros [= <- <-]. split; [|done].
        apply (keys_satisfy_insert _ _ s); [|done].
        by eapply keys_satisfy_cache.
    + pose proof (lookup_only_cache _ _ _ _
                    (lookup_only_getParentPageId httpClient fuel cur) Eg) as Hc.
      unfold bind, cache_set. intros [= <- <-]. split; [|done].
      apply (keys_satisfy_insert _ _ s); [|done].
      by eapply keys_satisfy_cache.
Qed.

Lemma after_loop_keys visited st r st' :
  keys_satisfy P st → Forall P visited →
  after_loop visited st = Done r st' → keys_satisfy P st'.
Proof.
  intros Hst Hvis.
  destruct (after_loop_done visited st) as (st1 & -> & _ & Hsame).
  intros [= _ <-]. by eapply keys_satisfy_within.
Qed.

Lemma hierarchy_loop_keys fuel visited cur st r st' :
  keys_satisfy P st → Forall P visited →
  (∀ c, cur = Some c → P c) →
  hierarchy_loop rootPageIds httpClient fuel visited cur st = Done r st' →
  keys_satisfy P st'.
Proof using reports.
  revert visited cur st; induction fuel as [|fuel IH];
    intros visited cur st Hst Hvis Hcur; [done|].
  destruct cur as [c|]; [|by apply after_loop_keys].
  destruct (decide (c ∈ visited)) as [Hin|Hout].
  { rewrite hierarchy_loop_revisit by done. by apply after_loop_keys. }
  destruct (non_empty c) eqn:Hne.
  - rewrite hierarchy_loop_enter by done.
    assert (Forall P (visited ++ [c])) as Hvis'.
    { apply Forall_app. split; [done|]. constructor; [by apply Hcur|done]. }
    destruct (loop_body _ _ _ _ _ _) as [|[[p| |b]|e] s] eqn:Eb;
      [done| | | |
       by destruct (never_throws_loop_body rootPageIds httpClient _ _ _ _ _ _ Eb)].
    + destruct (loop_body_keys _ _ _ _ _ _ Hst (Hcur c eq_refl) Hvis' Eb)
        as [Hs Hp].
      apply IH; [done..|]. intros q ->. by apply Hp.
    + destruct (loop_body_keys _ _ _ _ _ _ Hst (Hcur c eq_refl) Hvis' Eb)
        as [Hs _].
      by apply after_loop_keys.
    + destruct (loop_body_keys _ _ _ _ _ _ Hst (Hcur c eq_refl) Hvis' Eb)
        as [Hs _].
      by intros [= _ <-].
  - simpl. rewrite Hne. simpl. by apply after_loop_keys.
Qed.

(** One call of [isPageAllowed] adds as keys only the normalised input
    and page ids that the provider reported. *)
Lemma isPageAllowed_keys fuel x st r st' :
  keys_satisfy P st → (∀ id, normalizePageId x = Ok id → P id) →
  isPageAllowed rootPageIds httpClient fuel x st = Done r st' →
  keys_satisfy P st'.
Proof using reports.
  intros Hst Hx. unfold isPageAllowed.
  destruct (negb (isEnabled rootPageIds)); [by intros [= _ <-]|].
  unfold bind at 1, lift.
  destruct (normalizePageId x) as [nx|e] eqn:Hn; [|by intros [= _ <-]].
  specialize (Hx nx eq_refl).
  case_bool_decide; [by intros [= _ <-]|].
  unfold bind at 1, cache_get.
  destruct (pageCache st !! nx) as [entry|]; [by intros [= _ <-]|].
  unfold bind at 1.
  destruct (findRootPageForResource httpClient fuel nx st) as [|[a|e] s] eqn:Ef;
    [done| |by intros [= _ <-];
            eapply keys_satisfy_cache, lookup_only_cache;
            eauto using lookup_only_findRootPageForResource].
  assert (keys_satisfy P s) as Hs.
  { eapply keys_satisfy_cache; [done|].
    eapply lookup_only_cache; [|done].
    apply lookup_only_findRootPageForResource. }
  destruct (truthy a) eqn:Ha; simpl.
  - unfold bind at 1, checkPageHierarchy.
    destruct (hierarchy_loop _ _ _ _ _ s) as [|[b|e] s2] eqn:Eh; [done| |].
    + unfold bind, cache_set. intros [= _ <-].
      apply keys_satisfy_insert; [|done].
      eapply hierarchy_loop_keys; [done|done| |done].
      destruct a as [a|]; [|done]. intros c [= <-].
      by eapply findRootPageForResource_yield.
    + intros [= _ <-].
      eapply hierarchy_loop_keys; [done|done| |done].
      destruct a as [a|]; [|done]. intros c [= <-].
      by eapply findRootPageForResource_yield.
  - unfold bind, cache_set. intros [= _ <-]. by apply keys_satisfy_insert.
Qed.

End CacheKeys.

(** ** Which ids become roots *)

Section RootForm.

Variable Q : string → Prop.
Hypothesis normalised : ∀ raw id, normalizePageId raw = Ok id → Q id.

Lemma roots_satisfy_add id s : roots_satisfy Q s → Q id → roots_satisfy Q (add_id id s).
Proof.
  intros Hs Hid id'. simpl. intros [->%elem_of_singleton|?]%elem_of_union; auto.
Qed.

Lemma extractPageIdFromUrl_normalised url id :
  extractPageIdFromUrl url = Ok id → Q id.
Proof using normalised.
  unfold extractPageIdFromUrl. destruct (regex_match _); [|done].
  apply normalised.
Qed.

Lemma add_option_ids_roots ids s s' :
  roots_satisfy Q s → add_option_ids ids s = Ok s' → roots_satisfy Q s'.
Proof using normalised.
  revert s; induction ids as [|id ids IH]; intros s Hs; simpl.
  { by intros [= <-]. }
  destruct (non_empty (trim id)); [|by apply IH].
  destruct (normalizePageId (trim id)) as [nid|] eqn:Hn; [|done].
  apply IH, roots_satisfy_add; eauto.
Qed.

Lemma add_option_urls_roots urls s :
  roots_satisfy Q s → roots_satisfy Q (add_option_urls urls s).
Proof using normalised.
  revert s; induction urls as [|url urls IH]; intros s Hs; simpl; [done|].
  destruct (non_empty (trim url)); [|by apply IH].
  destruct (extractPageIdFromUrl (trim url)) as [nid|] eqn:Hx.
  - apply IH, roots_satisfy_add; eauto using extractPageIdFromUrl_normalised.
  - by apply IH.
Qed.

Lemma add_env_ids_roots ids s s' :
  roots_satisfy Q s → add_env_ids ids s = Ok s' → roots_satisfy Q s'.
Proof using normalised.
  revert s; induction ids as [|id ids IH]; intros s Hs; simpl.
  { by intros [= <-]. }
  destruct (normalizePageId id) as [nid|] eqn:Hn; [|done].
  apply IH, roots_satisfy_add; eauto.
Qed.

Lemma add_env_urls_roots urls s :
  roots_satisfy Q s → roots_satisfy Q (add_env_urls urls s).
Proof using normalised.
  revert s; induction urls as [|url urls IH]; intros s Hs; simpl; [done|].
  destruct (extractPageIdFromUrl url) as [nid|] eqn:Hx.
  - apply IH, roots_satisfy_add; eauto using extractPageIdFromUrl_normalised.
  - by apply IH.
Qed.

Lemma initializeRootPages_roots options env s :
  initializeRootPages options env = Ok s → roots_satisfy Q s.
Proof using normalised.
  unfold initializeRootPages. cbv zeta.
  destruct (add_option_ids _ _) as [s1|] eqn:H1; [|done].
  assert (roots_satisfy Q s1) as Hs1.
  { eapply add_option_ids_roots; [|done]. intros id. simpl. set_solver. }
  pose proof (add_option_urls_roots (default [] (pageUrls options)) s1 Hs1) as Hs2.
  destruct (_ =? 0); [|by intros [= <-]].
  destruct (add_env_ids _ _) as [s3|] eqn:H3; [|done].
  intros [= <-]. apply add_env_urls_roots. by eapply add_env_ids_roots.
Qed.

End RootForm.

(** C5 (as stated, refuted): the provider reports the parent of [X] as 32
    capitals without hyphens; after [isPageAllowed(X)] that string is a
    key of the cache. *)
Lemma walker_stores_reported_id_as_is :
  is_canonical Scenario.raw_id = false ∧
  ∃ st', isPageAllowed {[Scenario.P1]} Scenario.raw_parent 3 Scenario.X fresh
         = Done (Ok false) st' ∧
         is_Some (pageCache st' !! Scenario.raw_id).
Proof.
  split; [reflexivity|].
  eexists. split; [vm_compute; reflexivity|].
  vm_compute. by eexists.
Qed.

(** C5 (amended): every member of the root set is an output of
    [normalizePageId]: 36 characters in the 8-4-4-4-12 layout, without
    capitals.  The ids that the walker stores are the parent ids as the
    provider reports them, not normalised: one call of [isPageAllowed]
    keeps all cache keys canonical provided that the provider reports
    canonical page ids and the queried id is made of hexadecimal digits. *)
Theorem stored_ids_are_normalised_or_reported
    (options : PageAccessControlOptions) (env : ProcessEnv)
    (rootPageIds : gset string) (httpClient : HttpClient)
    (fuel : nat) (resourceId : string) (st st' : State) (r : Result bool) :
  (∀ s, initializeRootPages options env = Ok s →
        ∀ id, id ∈ allPageIds s → is_normal_form id = true) ∧
  (provider_reports (λ p, is_canonical p = true) httpClient →
   keys_satisfy (λ k, is_canonical k = true) st →
   forallb is_hex (chars (clean resourceId)) = true →
   isPageAllowed rootPageIds httpClient fuel resourceId st = Done r st' →
   keys_satisfy (λ k, is_canonical k = true) st').
Proof.
  split.
  - intros s Hs.
    apply (initializeRootPages_roots (λ id, is_normal_form id = true)
             normalizePageId_normal_form options env s Hs).
  - intros Hprov Hst Hhex Hrun.
    eapply isPageAllowed_keys; [done|done| |done].
    intros id Hid. by eapply normalizePageId_canonical.
Qed.

Lemma stored_ids_are_normalised_or_reported_witness :
  ∃ st',
    isPageAllowed {[Scenario.P1]} Scenario.nested_block 3 Scenario.X fresh
    = Done (Ok true) st' ∧
    keys_satisfy (λ k, is_canonical k = true) st'.
Proof.
  destruct (isPageAllowed {[Scenario.P1]} Scenario.nested_block 3 Scenario.X fresh)
    as [|[[]|] st'] eqn:Hrun;
    try (vm_compute in Hrun; discriminate Hrun).
  exists st'. split; [reflexivity|].
  apply (stored_ids_are_normalised_or_reported
           Scenario.mixed_options Scenario.no_env
           {[Scenario.P1]} Scenario.nested_block 3 Scenario.X fresh st' (Ok true));
    [| |reflexivity|exact Hrun].
  - intros op id p. unfold Scenario.nested_block.
    destruct op; repeat case_bool_decide; intros [= <-]; reflexivity.
  - intros k [e He]. simpl in He. by rewrite lookup_empty in He.
Defined.

(** * Further properties *)

(** ** The normaliser and the URL pattern *)

Section NormaliserFacts.

Lemma chars_app s1 s2 : chars (s1 +:+ s2) = chars s1 ++ chars s2.
Proof.
  rewrite <- (str_chars s1) at 1. rewrite <- (str_chars s2) at 1.
  by rewrite <- str_app, chars_str.
Qed.

Lemma lower_lower c : lower (lower c) = lower c.
Proof. destruct c as [[] [] [] [] [] [] [] []]; by vm_compute. Qed.

Lemma is_dash_lower c : is_dash (lower c) = is_dash c.
Proof. destruct c as [[] [] [] [] [] [] [] []]; by vm_compute. Qed.

Lemma plain_lower c : is_plain c = true → lower c = c.
Proof. destruct c as [[] [] [] [] [] [] [] []]; by vm_compute. Qed.

Lemma plain_not_dash c : is_plain c = true → negb (is_dash c) = true.
Proof. unfold is_plain. by intros [? _]%andb_true_iff. Qed.

Lemma hex_i_not_dash c : is_hex_i c = true → negb (is_dash c) = true.
Proof. destruct c as [[] [] [] [] [] [] [] []]; by vm_compute. Qed.

Lemma filter_all {A} (f : A → bool) l :
  forallb f l = true → List.filter f l = l.
Proof.
  induction l as [|x l IH]; simpl; [done|].
  intros [-> Hl]%andb_true_iff. by rewrite IH.
Qed.

Lemma filter_dash_cons l :
  List.filter (λ c, negb (is_dash c)) ("-"%char :: l)
  = List.filter (λ c, negb (is_dash c)) l.
Proof. reflexivity. Qed.

Lemma forallb_impl {A} (f g : A → bool) l :
  (∀ x, f x = true → g x = true) → forallb f l = true → forallb g l = true.
Proof.
  intros Hfg. induction l as [|x l IH]; simpl; [done|].
  intros [Hx Hl]%andb_true_iff. by rewrite (Hfg x Hx), IH.
Qed.

Lemma forallb_app_2 {A} (f : A → bool) l1 l2 :
  forallb f l1 = true → forallb f l2 = true → forallb f (l1 ++ l2) = true.
Proof. intros H1 H2. rewrite forallb_app. by rewrite H1, H2. Qed.

Lemma map_lower_plain l : forallb is_plain l = true → List.map lower l = l.
Proof.
  induction l as [|c l IH]; simpl; [done|].
  intros [Hc Hl]%andb_true_iff. by rewrite (plain_lower c Hc), IH.
Qed.

Lemma forallb_map_lower_hex l :
  forallb is_hex_i l = true → forallb is_hex (List.map lower l) = true.
Proof.
  induction l as [|c l IH]; simpl; [done|].
  intros [Hc Hl]%andb_true_iff. by rewrite (lower_hex c Hc), IH.
Qed.

(** Cleaning a string without hyphens and capitals changes nothing. *)
Lemma clean_plain_id s : forallb is_plain (chars s) = true → clean s = s.
Proof.
  intros Hs. unfold clean, toLowerCase, remove_dashes. rewrite chars_str.
  rewrite filter_all by (by eapply forallb_impl; [apply plain_not_dash|]).
  by rewrite map_lower_plain, str_chars.
Qed.

(** Cleaning undoes [add_dashes]. *)
Lemma clean_add_dashes s :
  forallb is_plain (chars s) = true → clean (add_dashes s) = s.
Proof.
  intros Hs. unfold clean, toLowerCase, remove_dashes.
  rewrite add_dashes_groups, !chars_str.
  assert (∀ i, forallb is_plain (group i (chars s)) = true) as Hg.
  { intros [|[|[|[|i]]]]; simpl;
      first [by apply forallb_take, forallb_drop|by apply forallb_take
            |by apply forallb_drop]. }
  assert (∀ i, List.filter (λ c, negb (is_dash c)) (group i (chars s))
               = group i (chars s)) as Hf.
  { intros i. apply filter_all.
    eapply forallb_impl; [apply plain_not_dash|apply Hg]. }
  repeat (rewrite List.filter_app || rewrite filter_dash_cons).
  rewrite !Hf, <- groups_split.
  by rewrite map_lower_plain, str_chars.
Qed.

Lemma match_class_inv ok n cs rest :
  match_class ok n cs = Some rest →
  ∃ g, cs = g ++ rest ∧ length g = n ∧ forallb ok g = true.
Proof.
  revert cs; induction n as [|n IH]; intros cs; simpl.
  { intros [= ->]. by exists []. }
  destruct cs as [|c cs]; [done|]. destruct (ok c) eqn:Hc; [|done].
  intros (g & -> & <- & Hg)%IH. exists (c :: g). simpl. by rewrite Hc, Hg.
Qed.

Lemma match_dash_inv cs rest :
  match_dash cs = Some rest → cs = "-"%char :: rest.
Proof.
  destruct cs as [|c cs]; [done|]. simpl. unfold is_dash.
  case_bool_decide; [|done]. by intros [= ->]; subst.
Qed.

Lemma alt_plain_inv cs :
  alt_plain cs = true → length cs = 32 ∧ forallb is_hex_i cs = true.
Proof.
  unfold alt_plain, at_end, match_hex.
  destruct (match_class is_hex_i 32 cs) as [[|??]|] eqn:Hm; [|done..].
  apply match_class_inv in Hm as (g & -> & Hl & Hg). intros _.
  by rewrite app_nil_r.
Qed.

(** A match of the hyphenated alternative, cut into its five groups. *)
Lemma dashed_inv ok cs :
  at_end (match_seq [match_class ok 8; match_dash; match_class ok 4;
                     match_dash; match_class ok 4; match_dash;
                     match_class ok 4; match_dash; match_class ok 12] cs)
  = true →
  ∃ g1 g2 g3 g4 g5,
    cs = g1 ++ "-"%char :: g2 ++ "-"%char :: g3 ++ "-"%char :: g4 ++
         "-"%char :: g5 ∧
    length g1 = 8 ∧ length g2 = 4 ∧ length g3 = 4 ∧ length g4 = 4 ∧
    length g5 = 12 ∧
    forallb ok (g1 ++ g2 ++ g3 ++ g4 ++ g5) = true.
Proof.
  cbn [match_seq].
  destruct (match_class ok 8 cs) as [r1|] eqn:H1; [|done].
  apply match_class_inv in H1 as (g1 & -> & L1 & F1).
  destruct (match_dash r1) as [r2|] eqn:D1; [|done].
  apply match_dash_inv in D1 as ->.
  destruct (match_class ok 4 r2) as [r3|] eqn:H2; [|done].
  apply match_class_inv in H2 as (g2 & -> & L2 & F2).
  destruct (match_dash r3) as [r4|] eqn:D2; [|done].
  apply match_dash_inv in D2 as ->.
  destruct (match_class ok 4 r4) as [r5|] eqn:H3; [|done].
  apply match_class_inv in H3 as (g3 & -> & L3 & F3).
  destruct (match_dash r5) as [r6|] eqn:D3; [|done].
  apply match_dash_inv in D3 as ->.
  destruct (match_class ok 4 r6) as [r7|] eqn:H4; [|done].
  apply match_class_inv in H4 as (g4 & -> & L4 & F4).
  destruct (match_dash r7) as [r8|] eqn:D4; [|done].
  apply match_dash_inv in D4 as ->.
  destruct (match_class ok 12 r8) as [[|??]|] eqn:H5; [|done..].
  apply match_class_inv in H5 as (g5 & -> & L5 & F5). intros _.
  exists g1, g2, g3, g4, g5. rewrite app_nil_r.
  split_and!; [done..|]. by repeat apply forallb_app_2.
Qed.

(** Whatever the pattern captures cleans to 32 hexadecimal digits. *)
Lemma page_id_text_clean m :
  is_page_id_text m = true →
  String.length (clean m) = 32 ∧ forallb is_hex (chars (clean m)) = true.
Proof.
  unfold is_page_id_text. intros [Hp|Hd]%orb_true_iff.
  - apply alt_plain_inv in Hp as [Hl Hh].
    unfold clean, toLowerCase, remove_dashes. rewrite !chars_str.
    rewrite filter_all by (by eapply forallb_impl; [apply hex_i_not_dash|]).
    rewrite length_str, length_map. split; [done|].
    by apply forallb_map_lower_hex.
  - apply dashed_inv in Hd as (g1 & g2 & g3 & g4 & g5 & Hcs & L1 & L2 & L3 & L4 & L5 & Hh).
    unfold clean, toLowerCase, remove_dashes. rewrite !chars_str, Hcs.
    assert (List.filter (λ c, negb (is_dash c))
              (g1 ++ "-"%char :: g2 ++ "-"%char :: g3 ++ "-"%char :: g4 ++
               "-"%char :: g5) = g1 ++ g2 ++ g3 ++ g4 ++ g5) as ->.
    { assert (∀ g, forallb is_hex_i g = true →
                   List.filter (λ c, negb (is_dash c)) g = g) as Hf.
      { intros g Hg. apply filter_all.
        by eapply forallb_impl; [apply hex_i_not_dash|]. }
      rewrite !forallb_app, !andb_true_iff in Hh.
      destruct Hh as (F1 & F2 & F3 & F4 & F5).
      repeat (rewrite List.filter_app || rewrite filter_dash_cons).
      by rewrite !Hf. }
    rewrite length_str, length_map. split.
    + rewrite !length_app. lia.
    + by apply forallb_map_lower_hex.
Qed.

Lemma regex_match_text cs m :
  regex_match cs = Some m → is_page_id_text m = true.
Proof.
  induction cs as [|c cs IH]; cbn [regex_match].
  - destruct (alt_plain [] || alt_dashed []) eqn:H; [|done]. intros [= <-].
    exact H.
  - destruct (alt_plain (c :: cs) || alt_dashed (c :: cs)) eqn:H; [|done].
    intros Hm. assert (chars m = c :: cs) as Hc.
    { injection Hm as <-. apply (chars_str (c :: cs)). }
    unfold is_page_id_text. by rewrite Hc.
Qed.

End NormaliserFacts.

(** X1. Normalising is idempotent: an id that [normalizePageId] returned
    is accepted by it and returned unchanged. *)
Theorem normalizePageId_idempotent (raw id : string) :
  normalizePageId raw = Ok id → normalizePageId id = Ok id.
Proof.
  intros [Hl ->]%normalizePageId_ok. apply normalizePageId_ok.
  rewrite clean_add_dashes by apply clean_plain. done.
Qed.

Lemma normalizePageId_idempotent_witness :
  normalizePageId "abc12345-abc1-2345-abc1-2345abc12345"
  = Ok "abc12345-abc1-2345-abc1-2345abc12345".
Proof.
  apply (normalizePageId_idempotent "ABC12345ABC12345ABC12345ABC12345").
  reflexivity.
Defined.

(** X2. Hyphens and the case of letters do not matter to the normaliser:
    an input, the input without its hyphens and the lower-cased input are
    accepted alike, with the same result. *)
Theorem normalizePageId_ignores_dashes_and_case (raw id : string) :
  (normalizePageId raw = Ok id ↔ normalizePageId (remove_dashes raw) = Ok id) ∧
  (normalizePageId raw = Ok id ↔ normalizePageId (toLowerCase raw) = Ok id).
Proof.
  assert (clean (remove_dashes raw) = clean raw) as Hd.
  { unfold clean, remove_dashes. f_equal. rewrite chars_str. f_equal.
    induction (chars raw) as [|c l IH]; simpl; [done|].
    destruct (negb (is_dash c)) eqn:Hc; simpl; [|done]. by rewrite Hc, IH. }
  assert (clean (toLowerCase raw) = clean raw) as Hc.
  { unfold clean, toLowerCase, remove_dashes. rewrite !chars_str. f_equal.
    induction (chars raw) as [|c l IH]; simpl; [done|].
    rewrite is_dash_lower. destruct (negb (is_dash c)); simpl; [|done].
    by rewrite lower_lower, IH. }
  split; rewrite !normalizePageId_ok; by rewrite ?Hd, ?Hc.
Qed.

(** X3. Unlike [normalizePageId], [extractPageIdFromUrl] returns canonical
    ids only: 36 characters, lower-case hexadecimal groups of 8, 4, 4, 4
    and 12 digits. *)
Theorem extractPageIdFromUrl_canonical (url id : string) :
  extractPageIdFromUrl url = Ok id → is_canonical id = true.
Proof.
  unfold extractPageIdFromUrl.
  destruct (regex_match (chars url)) as [m|] eqn:Hm; [|done].
  apply regex_match_text, page_id_text_clean in Hm as [_ Hhex].
  intros Hn. by eapply normalizePageId_canonical.
Qed.

Lemma extractPageIdFromUrl_canonical_witness :
  is_canonical "abc12345-abc1-2345-abc1-2345abc12345" = true.
Proof.
  apply (extractPageIdFromUrl_canonical
           "https://www.notion.so/ws/Title-ABC12345abc12345abc12345abc12345").
  reflexivity.
Defined.

(** X4. The only error of [extractPageIdFromUrl] is the one about the URL
    itself: what the pattern captures always normalises. *)
Theorem extractPageIdFromUrl_error (url : string) (e : Error) :
  extractPageIdFromUrl url = Throw e → e = InvalidNotionPageUrl url.
Proof.
  unfold extractPageIdFromUrl.
  destruct (regex_match (chars url)) as [m|] eqn:Hm; [|by intros [= <-]].
  apply regex_match_text, page_id_text_clean in Hm as [Hlen _].
  unfold normalizePageId. cbv zeta. by rewrite Hlen.
Qed.

Lemma extractPageIdFromUrl_error_witness :
  InvalidNotionPageUrl "https://www.notion.so/no-id-here"
  = InvalidNotionPageUrl "https://www.notion.so/no-id-here".
Proof.
  apply (extractPageIdFromUrl_error "https://www.notion.so/no-id-here").
  reflexivity.
Defined.

Lemma normalizePageId_ignores_dashes_and_case_witness :
  normalizePageId (remove_dashes "ABC12345-ABC1-2345-ABC1-2345ABC12345")
  = Ok "abc12345-abc1-2345-abc1-2345abc12345".
Proof.
  apply (normalizePageId_ignores_dashes_and_case
           "ABC12345-ABC1-2345-ABC1-2345ABC12345").
  reflexivity.
Defined.

Section UrlPrefix.

Lemma alt_dashed_inv cs :
  alt_dashed cs = true →
  length cs = 36 ∧ cs !! 8 = Some "-"%char.
Proof.
  intros (g1 & g2 & g3 & g4 & g5 & -> & L1 & L2 & L3 & L4 & L5 & _)%dashed_inv.
  split.
  - rewrite !length_app; simpl. rewrite !length_app; simpl.
    rewrite !length_app; simpl. rewrite !length_app; simpl. lia.
  - rewrite <- L1. apply list_lookup_middle. done.
Qed.

(** In front of a text that the pattern captures, no longer match
    starts. *)
Lemma no_match_before pre c id :
  is_page_id_text id = true →
  alt_plain (c :: pre ++ chars id) || alt_dashed (c :: pre ++ chars id) = false.
Proof.
  intros Hid. apply orb_false_iff.
  unfold is_page_id_text in Hid. apply orb_true_iff in Hid as [Hp|Hd].
  - apply alt_plain_inv in Hp as [Hl Hh]. split.
    + destruct (alt_plain _) eqn:H; [|done].
      apply alt_plain_inv in H as [H _]. simpl in H.
      rewrite length_app in H. lia.
    + destruct (alt_dashed _) eqn:H; [|done].
      apply alt_dashed_inv in H as [H36 H8]. simpl in H36.
      rewrite length_app in H36.
      assert (length (c :: pre) = 4) as Hpre by (simpl; lia).
      change (c :: pre ++ chars id) with ((c :: pre) ++ chars id) in H8.
      rewrite lookup_app_r in H8 by lia. rewrite Hpre in H8.
      simpl in H8.
      assert (is_hex_i "-"%char = true) as Habs; [|done].
      rewrite forallb_forall in Hh. apply Hh.
      apply list_elem_of_In. by eapply list_elem_of_lookup_2.
  - apply alt_dashed_inv in Hd as [Hl _]. split.
    + destruct (alt_plain _) eqn:H; [|done].
      apply alt_plain_inv in H as [H _]. simpl in H.
      rewrite length_app in H. lia.
    + destruct (alt_dashed _) eqn:H; [|done].
      apply alt_dashed_inv in H as [H _]. simpl in H.
      rewrite length_app in H. lia.
Qed.

Lemma regex_match_prefix pre id :
  is_page_id_text id = true → regex_match (pre ++ chars id) = Some id.
Proof.
  intros Hid. induction pre as [|c pre IH].
  - simpl app. unfold is_page_id_text in Hid.
    destruct (chars id) as [|c cs] eqn:Hc; cbn [regex_match]; rewrite Hid;
      by rewrite <- Hc, str_chars.
  - change ((c :: pre) ++ chars id) with (c :: pre ++ chars id).
    cbn [regex_match]. by rewrite no_match_before.
Qed.

End UrlPrefix.

(** X5. What stands in front of the id in a URL is irrelevant: a URL that
    ends in 32 hexadecimal digits, or in the hyphenated form of an id, in
    either case of letters, yields the normal form of that ending. *)
Theorem extractPageIdFromUrl_suffix (front id : string) :
  is_page_id_text id = true →
  extractPageIdFromUrl (front +:+ id) = normalizePageId id ∧
  is_ok (normalizePageId id) = true.
Proof.
  intros Hid. unfold extractPageIdFromUrl.
  rewrite chars_app, regex_match_prefix by done. split; [done|].
  apply page_id_text_clean in Hid as [Hlen _].
  unfold normalizePageId. cbv zeta. by rewrite Hlen.
Qed.

Lemma extractPageIdFromUrl_suffix_witness :
  extractPageIdFromUrl
    ("https://www.notion.so/workspace/My-Page-" +:+ "ABC12345abc12345abc12345abc12345")
  = normalizePageId "ABC12345abc12345abc12345abc12345" ∧
  is_ok (normalizePageId "ABC12345abc12345abc12345abc12345") = true.
Proof.
  apply (extractPageIdFromUrl_suffix "https://www.notion.so/workspace/My-Page-"
           "ABC12345abc12345abc12345abc12345").
  reflexivity.
Defined.

(** ** More on the construction of the root set *)

Section RootSetMore.

Lemma add_option_ids_members ids s s' :
  add_option_ids ids s = Ok s' →
  allPageIds s ⊆ allPageIds s' ∧
  ∀ id, id ∈ ids → non_empty (trim id) = true →
        ∃ nid, normalizePageId (trim id) = Ok nid ∧ nid ∈ allPageIds s'.
Proof.
  revert s; induction ids as [|id ids IH]; intros s; simpl.
  { intros [= <-]. split; [done|]. intros ? []%elem_of_nil. }
  destruct (non_empty (trim id)) eqn:Hne.
  - destruct (normalizePageId (trim id)) as [nid|] eqn:Hn; [|done].
    intros [Hsub Hin]%IH. simpl in Hsub. split; [set_solver|].
    intros id' [->|Hin']%elem_of_cons Hne'; [|by eauto].
    exists nid. split; [done|]. set_solver.
  - intros [Hsub Hin]%IH. split; [done|].
    intros id' [->|Hin']%elem_of_cons Hne'; [congruence|by eauto].
Qed.

Lemma add_option_ids_throw ids s e :
  add_option_ids ids s = Throw e →
  ∃ id, id ∈ ids ∧ non_empty (trim id) = true ∧
        normalizePageId (trim id) = Throw e.
Proof.
  revert s; induction ids as [|id ids IH]; intros s; simpl; [done|].
  destruct (non_empty (trim id)) eqn:Hne.
  - destruct (normalizePageId (trim id)) as [nid|e'] eqn:Hn.
    + intros (id' & ? & ? & ?)%IH. exists id'. set_solver.
    + intros [= <-]. exists id. set_solver.
  - intros (id' & ? & ? & ?)%IH. exists id'. set_solver.
Qed.

Lemma add_env_ids_throw ids s e :
  add_env_ids ids s = Throw e →
  ∃ id, id ∈ ids ∧ normalizePageId id = Throw e.
Proof.
  revert s; induction ids as [|id ids IH]; intros s; simpl; [done|].
  destruct (normalizePageId id) as [nid|e'] eqn:Hn.
  - intros (id' & ? & ?)%IH. exists id'. set_solver.
  - intros [= <-]. exists id. set_solver.
Qed.

End RootSetMore.

(** X6. The environment is a fallback only: as soon as the explicit
    options hold a non-blank id, or a non-blank URL that the pattern
    accepts, the two environment variables have no influence on the
    outcome of the construction. *)
Theorem initializeRootPages_ignores_env_after_explicit_root
    (options : PageAccessControlOptions) (env env' : ProcessEnv) :
  (∃ id, id ∈ default [] (pageIds options) ∧ non_empty (trim id) = true) ∨
  (∃ url, url ∈ default [] (pageUrls options) ∧ non_empty (trim url) = true ∧
          is_ok (extractPageIdFromUrl (trim url)) = true) →
  initializeRootPages options env = initializeRootPages options env'.
Proof.
  intros Hexplicit. unfold initializeRootPages. cbv zeta.
  destruct (add_option_ids _ _) as [s1|e] eqn:H1; [|done].
  apply add_option_ids_members in H1 as [Hsub1 Hin1].
  destruct (add_option_urls_spec (default [] (pageUrls options)) s1)
    as (Hsub2 & _ & Hin2 & _).
  assert (allPageIds (add_option_urls (default [] (pageUrls options)) s1) ≠ ∅)
    as Hne.
  { destruct Hexplicit as [(id & Hid & Hb)|(url & Hurl & Hb & Hok)].
    - destruct (Hin1 id Hid Hb) as (nid & _ & Hnid). set_solver.
    - destruct (extractPageIdFromUrl (trim url)) as [nid|] eqn:Hx; [|done].
      specialize (Hin2 url nid Hurl Hb Hx). set_solver. }
  destruct (size _ =? 0) eqn:Hsz; [|done].
  apply Nat.eqb_eq, size_empty_iff in Hsz. by apply leibniz_equiv in Hsz.
Qed.

Lemma initializeRootPages_ignores_env_after_explicit_root_witness :
  initializeRootPages Scenario.mixed_options Scenario.no_env
  = initializeRootPages Scenario.mixed_options
      {| NOTION_ROOT_PAGE_ID := Some "not-an-id";
         NOTION_ROOT_PAGE_URL := Some "https://www.notion.so/nothing" |}.
Proof.
  apply initializeRootPages_ignores_env_after_explicit_root.
  left. exists Scenario.P1. split; [apply list_elem_of_here|reflexivity].
Defined.

(** X7. When the construction of the root set fails, the error is the one
    that [normalizePageId] raised for an id entry, taken from the explicit
    list or from the environment; a URL never makes it fail. *)
Theorem initializeRootPages_error_is_from_an_id
    (options : PageAccessControlOptions) (env : ProcessEnv) (e : Error) :
  initializeRootPages options env = Throw e →
  (∃ id, id ∈ default [] (pageIds options) ∧ non_empty (trim id) = true ∧
         normalizePageId (trim id) = Throw e) ∨
  (∃ id, id ∈ env_list (NOTION_ROOT_PAGE_ID env) ∧
         normalizePageId id = Throw e).
Proof.
  unfold initializeRootPages. cbv zeta.
  destruct (add_option_ids _ _) as [s1|e1] eqn:H1.
  - destruct (_ =? 0); [|done].
    destruct (add_env_ids _ _) as [s3|e3] eqn:H3; [done|].
    intros [= <-]. right. by eapply add_env_ids_throw.
  - intros [= <-]. left. by eapply add_option_ids_throw.
Qed.

Lemma initializeRootPages_error_is_from_an_id_witness :
  (∃ id, id ∈ default [] (pageIds Scenario.typo_options) ∧
         non_empty (trim id) = true ∧
         normalizePageId (trim id) = Throw (InvalidPageIdFormat "1111-typo")) ∨
  (∃ id, id ∈ env_list (NOTION_ROOT_PAGE_ID Scenario.no_env) ∧
         normalizePageId id = Throw (InvalidPageIdFormat "1111-typo")).
Proof.
  apply (initializeRootPages_error_is_from_an_id
           Scenario.typo_options Scenario.no_env).
  reflexivity.
Defined.

(** ** How the state evolves *)

Section StateGrowth.

Variable rootPageIds : gset string.
Variable httpClient : HttpClient.

Lemma state_grows_refl st : state_grows st st.
Proof. split; [by exists []|done]. Qed.

Lemma state_grows_trans st1 st2 st3 :
  state_grows st1 st2 → state_grows st2 st3 → state_grows st1 st3.
Proof.
  intros [[l1 H1] K1] [[l2 H2] K2]. split; [|by auto].
  exists (l2 ++ l1). by rewrite H2, H1, app_assoc.
Qed.

Lemma state_grows_insert k e st :
  state_grows st {| pageCache := <[k := e]> (pageCache st); calls := calls st |}.
Proof.
  split; [by exists []|]. intros k' Hk'. simpl.
  destruct (decide (k = k')) as [<-|Hne].
  - rewrite lookup_insert_eq. by eexists.
  - by rewrite lookup_insert_ne.
Qed.

Lemma state_grows_called op id st : state_grows st (called op id st).
Proof. split; [by exists [(op, id)]|done]. Qed.

Lemma lookup_only_grows {A} (m : M A) st r st' :
  lookup_only m → m st = Done r st' → state_grows st st'.
Proof.
  intros Hm Hrun. rewrite (Hm st) in Hrun.
  destruct (m fresh) as [|r' s]; [done|]. simpl in Hrun.
  injection Hrun as _ <-. split; [by eexists|done].
Qed.

Lemma cache_all_grows ids e st r st' :
  cache_all ids e st = Done r st' → state_grows st st'.
Proof.
  revert st; induction ids as [|id ids IH]; intros st; simpl.
  { intros [= _ <-]. apply state_grows_refl. }
  unfold bind, cache_set. intros H%IH.
  eapply state_grows_trans; [apply state_grows_insert|done].
Qed.

Lemma cache_missing_grows ids e st r st' :
  cache_missing ids e st = Done r st' → state_grows st st'.
Proof.
  revert st; induction ids as [|id ids IH]; intros st; simpl.
  { intros [= _ <-]. apply state_grows_refl. }
  unfold bind at 1, cache_get. unfold bind at 1.
  destruct (pageCache st !! id); [by apply IH|].
  unfold cache_set. intros H%IH.
  eapply state_grows_trans; [apply state_grows_insert|done].
Qed.

Lemma after_loop_grows visited st r st' :
  after_loop visited st = Done r st' → state_grows st st'.
Proof.
  unfold after_loop, bind.
  destruct (cache_missing visited denied st) as [|[[]|e] s] eqn:Hm; [done| |].
  - intros [= _ <-]. by eapply cache_missing_grows.
  - intros [= _ <-]. by eapply cache_missing_grows.
Qed.

Lemma loop_body_grows fuel visited cur st r st' :
  loop_body rootPageIds httpClient fuel visited cur st = Done r st' →
  state_grows st st'.
Proof.
  unfold loop_body. case_bool_decide.
  - unfold bind.
    destruct (cache_all visited granted st) as [|[[]|e] s] eqn:Hm; [done| |];
      intros [= _ <-]; by eapply cache_all_grows.
  - unfold try_catch, bind at 1.
    destruct (getParentPageId httpClient fuel cur st) as [|[p|e] s] eqn:Eg;
      [done| |];
      pose proof (lookup_only_grows _ _ _ _
                    (lookup_only_getParentPageId httpClient fuel cur) Eg) as Hg.
    + unfold bind, cache_set. destruct (truthy p); intros [= _ <-];
        (eapply state_grows_trans; [exact Hg|apply state_grows_insert]).
    + unfold bind, cache_set. intros [= _ <-].
      eapply state_grows_trans; [exact Hg|apply state_grows_insert].
Qed.

Lemma hierarchy_loop_grows fuel visited cur st r st' :
  hierarchy_loop rootPageIds httpClient fuel visited cur st = Done r st' →
  state_grows st st'.
Proof.
  revert visited cur st; induction fuel as [|fuel IH];
    intros visited cur st; [done|]. simpl.
  destruct cur as [c|]; [|apply after_loop_grows].
  destruct (_ && _); [|apply after_loop_grows].
  unfold bind.
  destruct (loop_body _ _ _ _ _ _) as [|[[p| |b]|e] s] eqn:Eb; [done|..].
  - intros H%IH. eapply state_grows_trans; [|done]. by eapply loop_body_grows.
  - intros H%after_loop_grows.
    eapply state_grows_trans; [|done]. by eapply loop_body_grows.
  - intros [= _ <-]. by eapply loop_body_grows.
  - intros [= _ <-]. by eapply loop_body_grows.
Qed.

Lemma isPageAllowed_grows fuel x st r st' :
  isPageAllowed rootPageIds httpClient fuel x st = Done r st' →
  state_grows st st'.
Proof.
  unfold isPageAllowed.
  destruct (negb _); [intros [= _ <-]; apply state_grows_refl|].
  unfold bind at 1, lift.
  destruct (normalizePageId x) as [nx|e];
    [|intros [= _ <-]; apply state_grows_refl].
  case_bool_decide; [intros [= _ <-]; apply state_grows_refl|].
  unfold bind at 1, cache_get.
  destruct (pageCache st !! nx); [intros [= _ <-]; apply state_grows_refl|].
  unfold bind at 1.
  destruct (findRootPageForResource httpClient fuel nx st) as [|[a|e] s] eqn:Ef;
    [done| |];
    pose proof (lookup_only_grows _ _ _ _
                  (lookup_only_findRootPageForResource httpClient fuel nx) Ef)
      as Hf.
  - destruct (negb (truthy a)).
    + unfold bind, cache_set. intros [= _ <-].
      eapply state_grows_trans; [exact Hf|apply state_grows_insert].
    + unfold bind at 1, checkPageHierarchy.
      destruct (hierarchy_loop _ _ _ _ _ s) as [|[b|e] s2] eqn:Eh; [done| |].
      * unfold bind, cache_set. intros [= _ <-].
        eapply state_grows_trans; [exact Hf|].
        eapply state_grows_trans; [by eapply hierarchy_loop_grows|].
        apply state_grows_insert.
      * intros [= _ <-].
        eapply state_grows_trans; [exact Hf|]. by eapply hierarchy_loop_grows.
  - by intros [= _ <-].
Qed.

End StateGrowth.

(** X8. A call of [isPageAllowed] never evicts: every id that had a cache
    entry before the call has one after it, and the provider calls made
    so far stay on record.  Only [clearCache] empties the cache. *)
Theorem isPageAllowed_never_evicts
    (rootPageIds : gset string) (httpClient : HttpClient)
    (fuel : nat) (resourceId : string) (st st' : State) (r : Result bool) :
  isPageAllowed rootPageIds httpClient fuel resourceId st = Done r st' →
  (∀ k, is_Some (pageCache st !! k) → is_Some (pageCache st' !! k)) ∧
  (∃ l, calls st' = l ++ calls st) ∧
  (∀ st0, clearCache st' = Done (Ok tt) st0 →
          pageCache st0 = ∅ ∧ calls st0 = calls st').
Proof.
  intros [Hcalls Hkeys]%isPageAllowed_grows. split_and!; [done..|].
  by intros st0 [= <-].
Qed.

Lemma isPageAllowed_never_evicts_witness :
  ∃ st1 st2,
    isPageAllowed {[Scenario.P1]} Scenario.nested_block 3 Scenario.X fresh
    = Done (Ok true) st1 ∧
    isPageAllowed {[Scenario.P1]} Scenario.nested_block 3 Scenario.B1 st1
    = Done (Ok true) st2 ∧
    is_Some (pageCache st2 !! Scenario.X).
Proof.
  assert (Hen : isEnabled ({[Scenario.P1]} : gset string) = true) by reflexivity.
  assert (P1_root : Scenario.P1 ∈ ({[Scenario.P1]} : gset string)) by set_solver.
  assert (X_root : Scenario.X ∉ ({[Scenario.P1]} : gset string)).
  { intros ?%elem_of_singleton. done. }
  assert (B1_root : Scenario.B1 ∉ ({[Scenario.P1]} : gset string)).
  { intros ?%elem_of_singleton. done. }
  destruct (block_child_allowed {[Scenario.P1]} Scenario.nested_block
              Scenario.X Scenario.B1 Scenario.P1 Hen P1_root eq_refl eq_refl
              fresh 3 eq_refl X_root eq_refl eq_refl ltac:(lia))
    as (st1 & Hrun1 & _ & Hkeys).
  destruct (isPageAllowed_caches _ _ 3 Scenario.X Scenario.X fresh true st1
              Hen eq_refl X_root Hrun1) as (entry & Hentry & _).
  assert (pageCache st1 !! Scenario.B1 = None) as Hmiss by (by rewrite Hkeys).
  destruct (block_parent_allowed {[Scenario.P1]} Scenario.nested_block
              Scenario.B1 Scenario.P1 Hen P1_root eq_refl eq_refl
              st1 3 Scenario.not_found Scenario.not_found
              eq_refl B1_root eq_refl eq_refl Hmiss ltac:(lia))
    as (st2 & Hrun2 & _).
  exists st1, st2. split_and!; [done..|].
  apply (isPageAllowed_never_evicts _ _ _ _ _ _ _ Hrun2). by eexists.
Defined.

(** ** Failure handling of the resolvers and of the probe *)

(** X9. [getParentPageId] throws exactly when the lookup of the page
    itself fails, with the error of the provider.  Failures further up,
    in the block and database lookups that it delegates to, never surface
    as exceptions. *)
Theorem getParentPageId_throws_iff_page_lookup_fails
    (httpClient : HttpClient) (fuel : nat) (pageId : string)
    (st st' : State) (e : Error) :
  getParentPageId httpClient fuel pageId st = Done (Throw e) st' ↔
  httpClient retrieve_a_page pageId = Throw e ∧
  st' = called retrieve_a_page pageId st.
Proof.
  rewrite getParentPageId_step.
  destruct (httpClient retrieve_a_page pageId) as [[[p|d|b|]|]|e'] eqn:Hp.
  - split; [done|]. by intros [? _].
  - split; [|by intros [? _]]. intros H.
    by destruct (getDatabaseParent_never_throws httpClient fuel d _ _ _ H).
  - split; [|by intros [? _]]. intros H.
    by destruct (resolveBlockToPage_never_throws httpClient fuel b _ _ _ H).
  - split; [done|]. by intros [? _].
  - split; [done|]. by intros [? _].
  - split; [by intros [= <- <-]|by intros [[= <-] ->]].
Qed.

Lemma getParentPageId_throws_iff_page_lookup_fails_witness :
  getParentPageId Scenario.locked_parent 0 Scenario.P2 fresh
  = Done (Throw Scenario.not_found) (called retrieve_a_page Scenario.P2 fresh).
Proof.
  apply (getParentPageId_throws_iff_page_lookup_fails
           Scenario.locked_parent 0 Scenario.P2 fresh).
  split; reflexivity.
Defined.

(** X10. A resource that the provider knows neither as a page, nor as a
    database, nor as a block is denied: [isPageAllowed] returns [false]
    after the three probes and caches the id as not allowed. *)
Theorem isPageAllowed_unknown_resource_denied
    (rootPageIds : gset string) (httpClient : HttpClient)
    (resourceId id : string) (e1 e2 e3 : Error) (fuel : nat) (st : State) :
  isEnabled rootPageIds = true →
  normalizePageId resourceId = Ok id → id ∉ rootPageIds →
  pageCache st !! id = None →
  httpClient retrieve_a_page id = Throw e1 →
  httpClient retrieve_a_database id = Throw e2 →
  httpClient retrieve_a_block id = Throw e3 →
  1 ≤ fuel →
  isPageAllowed rootPageIds httpClient fuel resourceId st =
  Done (Ok false)
       {| pageCache := <[id := denied]> (pageCache st);
          calls := [(retrieve_a_block, id); (retrieve_a_database, id);
                    (retrieve_a_page, id)] ++ calls st |}.
Proof.
  intros Hen Hn Hroot Hmiss Hp Hd Hb Hfuel.
  rewrite (isPageAllowed_miss _ _ _ _ _ _ Hen Hn Hroot Hmiss).
  unfold bind at 1. rewrite (findRootPageForResource_not_page _ _ _ _ _ Hp).
  destruct fuel as [|fuel]; [lia|].
  rewrite getDatabaseParent_step, Hd. simpl truthy. cbv iota.
  by rewrite resolveBlockToPage_step, Hb.
Qed.

Lemma isPageAllowed_unknown_resource_denied_witness :
  isPageAllowed {[Scenario.P1]} Scenario.nested_block 1 Scenario.P2 fresh =
  Done (Ok false)
       {| pageCache := <[Scenario.P2 := denied]> (pageCache fresh);
          calls := [(retrieve_a_block, Scenario.P2);
                    (retrieve_a_database, Scenario.P2);
                    (retrieve_a_page, Scenario.P2)] ++ calls fresh |}.
Proof.
  apply (isPageAllowed_unknown_resource_denied
           {[Scenario.P1]} Scenario.nested_block Scenario.P2 Scenario.P2
           Scenario.not_found Scenario.not_found Scenario.not_found);
    first [reflexivity|lia|vm_compute; congruence].
Defined.

(** The run on a page below a page that cannot be read, step by step. *)
Lemma unreadable_parent_run
    (rootPageIds : gset string) (httpClient : HttpClient)
    (x p : string) (e : Error) (fuel : nat) (st : State) :
  isEnabled rootPageIds = true →
  normalizePageId x = Ok x → x ∉ rootPageIds → p ∉ rootPageIds →
  non_empty p = true →
  pageCache st !! x = None →
  httpClient retrieve_a_page x = Ok (Some (page_id p)) →
  httpClient retrieve_a_page p = Throw e →
  2 ≤ fuel →
  isPageAllowed rootPageIds httpClient fuel x st =
  Done (Ok false)
    {| pageCache :=
         <[x := {| parentId := Some x; isAllowed := false |}]>
           (<[p := denied]>
              (<[x := {| parentId := Some p; isAllowed := false |}]>
                 (pageCache st)));
       calls := [(retrieve_a_page, p); (retrieve_a_page, x);
                 (retrieve_a_page, x)] ++ calls st |}.
Proof.
  intros Hen Hn Hrx Hrp Hnep Hmiss Hpx Hpp Hfuel.
  pose proof (normalizePageId_non_empty _ _ Hn) as Hnex.
  rewrite (isPageAllowed_miss _ _ _ _ _ _ Hen Hn Hrx Hmiss).
  unfold bind at 1. rewrite (findRootPageForResource_page _ _ _ _ _ Hpx).
  simpl. rewrite Hnex. simpl. unfold bind at 1, checkPageHierarchy.
  destruct fuel as [|[|fuel]]; [lia..|].
  assert (getParentPageId httpClient 0 x fresh
          = Done (Ok (Some p)) (called retrieve_a_page x fresh)) as Hgx.
  { by rewrite getParentPageId_step, Hpx. }
  assert (getParentPageId httpClient 0 p fresh
          = Done (Throw e) (called retrieve_a_page p fresh)) as Hgp.
  { by rewrite getParentPageId_step, Hpp. }
  assert (x ≠ p) as Hxp.
  { intros ->. rewrite Hpx in Hpp. discriminate Hpp. }
  rewrite hierarchy_loop_enter by (done || by intros ?%elem_of_nil).
  rewrite (loop_body_parent _ _ 0 _ _ x _ _ _ Hrx Hgx) by lia.
  simpl truthy. rewrite Hnep.
  rewrite hierarchy_loop_enter
    by (done || by intros ?%list_elem_of_singleton).
  by rewrite (loop_body_failure _ _ 0 _ _ p _ _ _ Hrp Hgp) by lia.
Qed.

(** X11. A page whose parent page cannot be read is denied: when the
    lookup of the parent fails, [isPageAllowed] returns [false], and the
    parent itself is cached as not allowed. *)
Theorem isPageAllowed_unreadable_parent_denied
    (rootPageIds : gset string) (httpClient : HttpClient)
    (x p : string) (e : Error) (fuel : nat) (st : State) :
  isEnabled rootPageIds = true →
  normalizePageId x = Ok x → x ∉ rootPageIds → p ∉ rootPageIds →
  non_empty p = true →
  pageCache st !! x = None →
  httpClient retrieve_a_page x = Ok (Some (page_id p)) →
  httpClient retrieve_a_page p = Throw e →
  2 ≤ fuel →
  ∃ st', isPageAllowed rootPageIds httpClient fuel x st = Done (Ok false) st' ∧
         pageCache st' !! p = Some denied ∧
         (∀ raw fuel', normalizePageId raw = Ok p →
            isPageAllowed rootPageIds httpClient fuel' raw st'
            = Done (Ok false) st') ∧
         calls st' = [(retrieve_a_page, p); (retrieve_a_page, x);
                      (retrieve_a_page, x)] ++ calls st.
Proof.
  intros Hen Hn Hrx Hrp Hnep Hmiss Hpx Hpp Hfuel.
  assert (x ≠ p) as Hxp.
  { intros ->. rewrite Hpx in Hpp. discriminate Hpp. }
  eexists. split; [by eapply unreadable_parent_run|].
  assert (∀ c : gmap string CacheEntry,
            <[x := {| parentId := Some x; isAllowed := false |}]>
              (<[p := denied]> c) !! p = Some denied) as Hp.
  { intros c. rewrite lookup_insert_ne by done. apply lookup_insert_eq. }
  split_and!; [apply Hp| |done].
  intros raw fuel' Hraw.
  by apply (isPageAllowed_hit _ _ _ _ _ _ denied Hen Hraw Hrp), Hp.
Qed.

Lemma isPageAllowed_unreadable_parent_denied_witness :
  ∃ st', isPageAllowed {[Scenario.P1]} Scenario.locked_parent 2 Scenario.X fresh
         = Done (Ok false) st' ∧
         pageCache st' !! Scenario.P2 = Some denied ∧
         (∀ raw fuel', normalizePageId raw = Ok Scenario.P2 →
            isPageAllowed {[Scenario.P1]} Scenario.locked_parent fuel' raw st'
            = Done (Ok false) st') ∧
         calls st' = [(retrieve_a_page, Scenario.P2); (retrieve_a_page, Scenario.X);
                      (retrieve_a_page, Scenario.X)] ++ calls fresh.
Proof.
  apply (isPageAllowed_unreadable_parent_denied
           {[Scenario.P1]} Scenario.locked_parent
           Scenario.X Scenario.P2 Scenario.not_found 2 fresh);
    first [reflexivity|lia|vm_compute; congruence].
Defined.

(** ** What a grant means *)

Section Grants.

Variable rootPageIds : gset string.
Variable httpClient : HttpClient.

Local Abbreviation climbs := (climbs rootPageIds httpClient).
Local Abbreviation reaches := (reaches rootPageIds httpClient).
Local Abbreviation hierarchy_loop := (hierarchy_loop rootPageIds httpClient).

Lemma lookup_only_at_fresh {A} (m : M A) st r s :
  lookup_only m → m st = Done r s → ∃ s0, m fresh = Done r s0.
Proof.
  intros Hm Hrun. rewrite (Hm st) in Hrun.
  destruct (m fresh) as [|r' s0]; [done|]. simpl in Hrun.
  injection Hrun as -> _. by eexists.
Qed.

Lemma climbs_fuel_mono f f' a n b :
  f ≤ f' → climbs f a n b → climbs f' a n b.
Proof.
  intros Hle. induction 1 as [a Ha Hr|a p s Ha Hr Hp Hf|a p s n b Ha Hr Hp Hne _ IH].
  - by apply climbs_root.
  - eapply climbs_top; [done..| |done].
    by apply (getParentPageId_fuel_mono httpClient f f' a Hle).
  - eapply climbs_hop; [done..| |done|done].
    by apply (getParentPageId_fuel_mono httpClient f f' a Hle).
Qed.

(** What the body of the loop returned, read back as a fact about the
    provider. *)
Lemma loop_body_inv fuel visited cur st step st' :
  loop_body rootPageIds httpClient fuel visited cur st = Done (Ok step) st' →
  (cur ∈ rootPageIds ∧ step = Return true) ∨
  ((cur ∉ rootPageIds) ∧
   (∃ r s0, getParentPageId httpClient fuel cur fresh = Done r s0 ∧
      step = (match r with
              | Ok p => if truthy p then Continue p else Break
              | Throw _ => Return false
              end))).
Proof.
  unfold loop_body. case_bool_decide as Hroot; intros Hrun.
  - left. split; [done|]. unfold bind in Hrun.
    destruct (cache_all _ _ _) as [|[[]|] s]; [done| |done].
    by injection Hrun as <- _.
  - right. split; [done|]. unfold try_catch, bind at 1 in Hrun.
    destruct (getParentPageId httpClient fuel cur st) as [|[p|e] s] eqn:Eg;
      [done| |];
      destruct (lookup_only_at_fresh _ _ _ _
                  (lookup_only_getParentPageId httpClient fuel cur) Eg)
        as [s0 Hs0];
      eexists _, s0; (split; [exact Hs0|]).
    + unfold bind, cache_set in Hrun. simpl.
      destruct (truthy p); unfold ret in Hrun; by simplify_eq.
    + unfold bind, cache_set, ret in Hrun. by simplify_eq.
Qed.

(** The walk answers [true] only at a root. *)
Lemma hierarchy_loop_true fuel visited a st st' :
  hierarchy_loop fuel visited (Some a) st = Done (Ok true) st' →
  ∃ n, climbs fuel a n true.
Proof.
  revert visited a st; induction fuel as [|fuel IH]; intros visited a st; [done|].
  destruct (decide (a ∈ visited)) as [Hin|Hout].
  { rewrite hierarchy_loop_revisit by done.
    destruct (after_loop_done visited st) as (s & -> & _). done. }
  destruct (non_empty a) eqn:Hne.
  - rewrite hierarchy_loop_enter by done.
    destruct (loop_body rootPageIds httpClient fuel (visited ++ [a]) a st)
      as [|[step|e] s] eqn:Eb;
      [done| |done].
    apply loop_body_inv in Eb as [[Hroot ->]|(Hroot & r & s0 & Hg & ->)].
    + intros _. exists 0. by apply climbs_root.
    + destruct r as [p|e]; [|done].
      destruct (truthy p) eqn:Hp.
      * destruct p as [p|]; [|done]. simpl in Hp.
        intros [n Hn]%IH. exists (S n).
        eapply climbs_hop; [done|done| |done|].
        -- by apply (getParentPageId_fuel_mono httpClient fuel (S fuel) a
                       ltac:(lia)).
        -- eapply climbs_fuel_mono; [|done]. lia.
      * destruct (after_loop_done (visited ++ [a]) s) as (s' & -> & _). done.
  - simpl. rewrite Hne. simpl.
    destruct (after_loop_done visited st) as (s & -> & _). done.
Qed.

End Grants.

(** X12. No grant without a root: when [isPageAllowed] answers [true] for
    an id that was not in the cache, the parent chain of the id, as the
    provider reports it, does reach a member of the root set.  (The
    converse of the first half of C1.) *)
Theorem isPageAllowed_true_only_below_a_root
    (rootPageIds : gset string) (httpClient : HttpClient)
    (fuel : nat) (resourceId id : string) (st st' : State) :
  isEnabled rootPageIds = true →
  normalizePageId resourceId = Ok id →
  (id ∉ rootPageIds → pageCache st !! id = None) →
  isPageAllowed rootPageIds httpClient fuel resourceId st = Done (Ok true) st' →
  ∃ n, chain_ends rootPageIds httpClient fuel id n true.
Proof.
  intros Hen Hn Hmiss Hrun.
  destruct (decide (id ∈ rootPageIds)) as [Hroot|Hroot].
  { exists 0. by apply chain_at_root. }
  rewrite (isPageAllowed_miss _ _ _ _ _ _ Hen Hn Hroot (Hmiss Hroot)) in Hrun.
  unfold bind at 1 in Hrun.
  destruct (findRootPageForResource httpClient fuel id st) as [|[a|e] s] eqn:Ef;
    [done| |done].
  destruct (lookup_only_at_fresh _ _ _ _
              (lookup_only_findRootPageForResource httpClient fuel id) Ef)
    as [s0 Hs0].
  destruct (truthy a) eqn:Ha; simpl in Hrun; [|done].
  destruct a as [a|]; [|done]. simpl in Ha, Hrun.
  unfold bind at 1, checkPageHierarchy in Hrun.
  destruct (hierarchy_loop rootPageIds httpClient fuel [] (Some a) s)
    as [|[[]|e] s2] eqn:Eh; [done| |done|done].
  apply hierarchy_loop_true in Eh as [n Hclimb].
  exists n. by eapply chain_walk.
Qed.

Lemma isPageAllowed_true_only_below_a_root_witness :
  ∃ n, chain_ends {[Scenario.P1]} Scenario.nested_block 3 Scenario.X n true.
Proof.
  destruct (isPageAllowed {[Scenario.P1]} Scenario.nested_block 3 Scenario.X fresh)
    as [|[[]|] st'] eqn:Hrun;
    try (vm_compute in Hrun; discriminate Hrun).
  apply (isPageAllowed_true_only_below_a_root
           {[Scenario.P1]} Scenario.nested_block 3 Scenario.X Scenario.X fresh st');
    [reflexivity|reflexivity|reflexivity|exact Hrun].
Defined.

(** ** The chain in the provider's answers *)

Section ProviderChain.

Variable rootPageIds : gset string.
Variable httpClient : HttpClient.

Local Abbreviation page_above := (page_above httpClient).
Local Abbreviation page_chain := (page_chain rootPageIds httpClient).
Local Abbreviation provider_chain := (provider_chain rootPageIds httpClient).
Local Abbreviation climbs := (climbs rootPageIds httpClient).
Local Abbreviation chain_ends := (chain_ends rootPageIds httpClient).

(** The resolvers of blocks and databases return the page that the
    parent links name. *)
Lemma page_above_resolver op id n r :
  page_above op id n r → op ≠ retrieve_a_page →
  ∀ fuel st, n < fuel →
    ∃ st', resolver httpClient op fuel id st = Done (Ok r) st'.
Proof.
  induction 1 as [op id Hend|op id op' id' n r Hhop Hrest IH];
    intros Hop fuel st Hfuel; (destruct fuel as [|fuel]; [lia|]).
  - destruct op; [done| |]; unfold resolver.
    + rewrite resolveBlockToPage_step.
      destruct (httpClient retrieve_a_block id) as [[[p|d|b|]|]|e];
        simplify_eq/=; by eexists.
    + rewrite getDatabaseParent_step.
      destruct (httpClient retrieve_a_database id) as [[[p|d|b|]|]|e];
        simplify_eq/=; by eexists.
  - assert (op' ≠ retrieve_a_page) as Hop'.
    { intros ->. destruct op; destruct (httpClient _ id) as [[[]|]|];
        simplify_eq/=. }
    destruct op; [done| |]; unfold resolver.
    + rewrite resolveBlockToPage_step.
      destruct (httpClient retrieve_a_block id) as [[[p|d|b|]|]|e];
        simplify_eq/=; apply (IH Hop'); lia.
    + rewrite getDatabaseParent_step.
      destruct (httpClient retrieve_a_database id) as [[[p|d|b|]|]|e];
        simplify_eq/=; apply (IH Hop'); lia.
Qed.

(** So does [getParentPageId], for a page that can be read. *)
Lemma page_above_getParentPageId id n r :
  page_above retrieve_a_page id n r →
  is_ok (httpClient retrieve_a_page id) = true →
  ∀ fuel st, n < fuel →
    ∃ st', getParentPageId httpClient fuel id st = Done (Ok r) st'.
Proof.
  intros Hup Hok fuel st Hfuel. rewrite getParentPageId_step.
  inversion Hup as [op id0 Hend|op id0 op' id' n' r' Hhop Hrest]; subst.
  - destruct (httpClient retrieve_a_page id) as [[[p|d|b|]|]|e];
      simplify_eq/=; by eexists.
  - destruct (httpClient retrieve_a_page id) as [[[p|d|b|]|]|e];
      simplify_eq/=.
    + apply (page_above_resolver retrieve_a_database _ _ _ Hrest); [done|lia].
    + apply (page_above_resolver retrieve_a_block _ _ _ Hrest); [done|lia].
Qed.

Lemma page_chain_non_empty a n b : page_chain a n b → non_empty a = true.
Proof. by destruct 1. Qed.

(** The chain of pages in the provider's answers is the one that the
    walk follows. *)
Lemma page_chain_climbs a n b : page_chain a n b → ∃ f, climbs f a n b.
Proof.
  induction 1 as [a Ha Hr|a k p Ha Hr Hok Hup Hp
                 |a k p n b Ha Hr Hok Hup Hne _ [f IH]].
  - exists 0. by apply climbs_root.
  - destruct (page_above_getParentPageId a k p Hup Hok (S k) fresh) as [s Hs];
      [lia|].
    exists (S k). by eapply climbs_top.
  - destruct (page_above_getParentPageId a k _ Hup Hok (S k) fresh) as [s Hs];
      [lia|].
    exists (S k + f). eapply climbs_hop; [done..| |done|].
    + eapply (getParentPageId_fuel_mono httpClient (S k)); [lia|done].
    + eapply climbs_fuel_mono; [|done]. lia.
Qed.

(** The chain of a resource in the provider's answers is the one that
    the probe and the walk follow. *)
Lemma provider_chain_ends id n b :
  provider_chain id n b → ∃ f, chain_ends f id n b.
Proof.
  destruct 1 as [Hr|n b Hr Hok Hc|k a n b Hr Hok Hd Ha Hc
                |k p k' a n b Hr Hok Hd Hp Hb Ha Hc|k p k' p' Hr Hok Hd Hp Hb Hp'].
  - exists 0. by apply chain_at_root.
  - destruct (page_chain_climbs _ _ _ Hc) as [f Hf].
    destruct (httpClient retrieve_a_page id) as [data|e] eqn:Hpage; [|done].
    exists f. eapply chain_walk; [done| |by eapply page_chain_non_empty|done].
    by rewrite (findRootPageForResource_page _ _ _ _ _ Hpage).
  - destruct (page_chain_climbs _ _ _ Hc) as [f Hf].
    destruct (httpClient retrieve_a_page id) as [data|e] eqn:Hpage; [done|].
    destruct (page_above_resolver _ _ _ _ Hd ltac:(done) (S k + f)
                (called retrieve_a_page id fresh)) as [s Hs]; [lia|].
    exists (S k + f). eapply chain_walk; [done| |done|].
    + rewrite (findRootPageForResource_not_page _ _ _ _ _ Hpage).
      unfold resolver in Hs. rewrite Hs. cbv beta iota. simpl truthy. by rewrite Ha.
    + eapply climbs_fuel_mono; [|done]. lia.
  - destruct (page_chain_climbs _ _ _ Hc) as [f Hf].
    destruct (httpClient retrieve_a_page id) as [data|e] eqn:Hpage; [done|].
    destruct (page_above_resolver _ _ _ _ Hd ltac:(done) (S k + S k' + f)
                (called retrieve_a_page id fresh)) as [s Hs]; [lia|].
    destruct (page_above_resolver _ _ _ _ Hb ltac:(done) (S k + S k' + f) s)
      as [s' Hs']; [lia|].
    exists (S k + S k' + f). eapply chain_walk; [done| |done|].
    + rewrite (findRootPageForResource_not_page _ _ _ _ _ Hpage).
      unfold resolver in Hs, Hs'. rewrite Hs. cbv beta iota. rewrite Hp, Hs'. cbv beta iota.
      simpl truthy. by rewrite Ha.
    + eapply climbs_fuel_mono; [|done]. lia.
  - destruct (httpClient retrieve_a_page id) as [data|e] eqn:Hpage; [done|].
    destruct (page_above_resolver _ _ _ _ Hd ltac:(done) (S k + S k')
                (called retrieve_a_page id fresh)) as [s Hs]; [lia|].
    destruct (page_above_resolver _ _ _ _ Hb ltac:(done) (S k + S k') s)
      as [s' Hs']; [lia|].
    exists (S k + S k'). eapply (chain_unknown _ _ _ _ None); [done| |done].
    rewrite (findRootPageForResource_not_page _ _ _ _ _ Hpage).
    unfold resolver in Hs, Hs'. rewrite Hs. cbv beta iota. rewrite Hp, Hs'. cbv beta iota.
    by rewrite Hp'.
Qed.

End ProviderChain.

(** C1 (as stated, refuted): two runs in which the parent links of the
    provider lead to a member of the root set and [isPageAllowed] answers
    [false].  In the first the root set holds the database [D], page [X]
    is a row of [D], and [D] lies in the top-level page [P2]: the walk
    asks for the page above [X], gets [P2] and never compares [D] with
    the root set, whatever the fuel.  In the second the database [D] lies
    in the root page [P1] and has been granted; a call for the page [Y],
    which reports [D] as its parent page, leaves a denying cache entry
    for [D], and the next call for [D] returns that entry. *)
Lemma isPageAllowed_passes_over_database_root :
  (below_root {[Scenario.D]} Scenario.database_row retrieve_a_page Scenario.X 1 ∧
   (∃ st', isPageAllowed {[Scenario.D]} Scenario.database_row 3 Scenario.X fresh
           = Done (Ok false) st') ∧
   (∀ fuel st', isPageAllowed {[Scenario.D]} Scenario.database_row fuel
                  Scenario.X fresh ≠ Done (Ok true) st')) ∧
  (below_root {[Scenario.P1]} Scenario.database_as_page_parent
     retrieve_a_database Scenario.D 1 ∧
   ∃ st1 st2,
     isPageAllowed {[Scenario.P1]} Scenario.database_as_page_parent 3
       Scenario.D fresh = Done (Ok true) st1 ∧
     isPageAllowed {[Scenario.P1]} Scenario.database_as_page_parent 3
       Scenario.Y st1 = Done (Ok false) st2 ∧
     ∀ fuel, isPageAllowed {[Scenario.P1]} Scenario.database_as_page_parent fuel
               Scenario.D st2 = Done (Ok false) st2).
Proof.
  assert (Scenario.D ∉ ({[Scenario.P1]} : gset string)) as HD.
  { intros HD%elem_of_singleton. vm_compute in HD. discriminate HD. }
  split; [split_and!|split].
  - eapply below_root_up; [by apply link_database|].
    apply below_root_here. by apply elem_of_singleton.
  - eexists. vm_compute. reflexivity.
  - intros [|[|[|fuel]]] st' Hrun; vm_compute in Hrun; discriminate Hrun.
  - eapply below_root_up; [by apply link_page|].
    apply below_root_here. by apply elem_of_singleton.
  - eexists _, _. split; [vm_compute; reflexivity|].
    split; [vm_compute; reflexivity|].
    intros fuel.
    apply (isPageAllowed_hit {[Scenario.P1]} Scenario.database_as_page_parent
             fuel Scenario.D Scenario.D _
             {| parentId := None; isAllowed := false |});
      [reflexivity|reflexivity|exact HD|vm_compute; reflexivity].
Qed.

(** C1 (amended): with access control on, for an id that normalises and
    has no cache entry yet, [isPageAllowed] returns how the chain of the
    id in the provider's answers ends, given enough fuel: [true] when the
    chain reaches a root, [false] when it ends without one.  The chain is
    made of the id itself and of pages: the page found for the id, then
    from each page the first page above it, whatever blocks and databases
    lie between.  Only these are compared with the root set. *)
Theorem isPageAllowed_follows_parent_chain
    (rootPageIds : gset string) (httpClient : HttpClient)
    (resourceId id : string) (n : nat) (b : bool) (st : State) :
  isEnabled rootPageIds = true →
  normalizePageId resourceId = Ok id →
  (id ∉ rootPageIds → pageCache st !! id = None) →
  provider_chain rootPageIds httpClient id n b →
  ∃ fuel0, ∀ fuel, fuel0 ≤ fuel →
    ∃ st', isPageAllowed rootPageIds httpClient fuel resourceId st
           = Done (Ok b) st'.
Proof.
  intros Hen Hn Hmiss Hchain.
  destruct (provider_chain_ends _ _ _ _ _ Hchain) as [f Hf].
  exists (f + n + 1). intros fuel Hfuel.
  by eapply isPageAllowed_follows_climb.
Qed.

Lemma isPageAllowed_follows_parent_chain_witness :
  ∃ fuel0, ∀ fuel, fuel0 ≤ fuel →
    ∃ st', isPageAllowed {[Scenario.P1]} Scenario.deep_block fuel Scenario.X fresh
           = Done (Ok true) st'.
Proof.
  assert (Scenario.X ∉ ({[Scenario.P1]} : gset string)) as HX.
  { intros HX%elem_of_singleton. vm_compute in HX. discriminate HX. }
  apply (isPageAllowed_follows_parent_chain
           {[Scenario.P1]} Scenario.deep_block Scenario.X Scenario.X 1 true fresh).
  - reflexivity.
  - reflexivity.
  - intros _. reflexivity.
  - apply provider_chain_page; [exact HX|reflexivity|].
    apply (page_chain_hop _ _ Scenario.X 3 Scenario.P1 0 true);
      [reflexivity|exact HX|reflexivity| |reflexivity|].
    + apply (page_above_hop _ retrieve_a_page Scenario.X
               retrieve_a_block Scenario.B1); [reflexivity|].
      apply (page_above_hop _ retrieve_a_block Scenario.B1
               retrieve_a_block Scenario.B2); [reflexivity|].
      apply (page_above_hop _ retrieve_a_block Scenario.B2
               retrieve_a_database Scenario.D); [reflexivity|].
      exact (page_above_end Scenario.deep_block retrieve_a_database Scenario.D
               eq_refl).
    + apply page_chain_root; [reflexivity|]. by apply elem_of_singleton.
Defined.

Section Sharing.

Variable rootPageIds : gset string.
Variable httpClient : HttpClient.

(** Two finished runs of a lookup agree, whatever their fuel. *)
Lemma getParentPageId_agree f f' a r r' s s' :
  getParentPageId httpClient f a fresh = Done r s →
  getParentPageId httpClient f' a fresh = Done r' s' → r = r'.
Proof.
  intros H H'. destruct (decide (f ≤ f')) as [Hle|Hgt].
  - apply (getParentPageId_fuel_mono httpClient f f' a Hle) in H. congruence.
  - apply (getParentPageId_fuel_mono httpClient f' f a ltac:(lia)) in H'.
    congruence.
Qed.

Lemma findRootPageForResource_agree f f' a r r' s s' :
  findRootPageForResource httpClient f a fresh = Done r s →
  findRootPageForResource httpClient f' a fresh = Done r' s' → r = r'.
Proof.
  intros H H'. destruct (decide (f ≤ f')) as [Hle|Hgt].
  - apply (findRootPageForResource_fuel_mono httpClient f f' a Hle) in H.
    congruence.
  - apply (findRootPageForResource_fuel_mono httpClient f' f a ltac:(lia)) in H'.
    congruence.
Qed.

Lemma cache_all_sets ids e st st' :
  cache_all ids e st = Done (Ok tt) st' →
  ∀ k, k ∈ ids → pageCache st' !! k = Some e.
Proof.
  revert st; induction ids as [|id ids IH]; intros st; simpl.
  { intros _ k []%elem_of_nil. }
  unfold bind, cache_set. intros Hrest k [->|Hin]%elem_of_cons; [|by eauto].
  destruct (decide (id ∈ ids)) as [Hin|Hout]; [by eauto|].
  destruct (cache_all_done ids e
              {| pageCache := <[id:=e]> (pageCache st); calls := calls st |})
    as (st1 & Hrun & _ & Hsame).
  rewrite Hrun in Hrest. injection Hrest as <-.
  rewrite Hsame by done. apply lookup_insert_eq.
Qed.

(** A walk that ends at a root leaves every page that it passed, and
    every page on the way up from where it stands, cached as allowed. *)
Lemma hierarchy_loop_grants fuel visited a st st' :
  hierarchy_loop rootPageIds httpClient fuel visited (Some a) st
  = Done (Ok true) st' →
  (∀ v, v ∈ visited → pageCache st' !! v = Some granted) ∧
  (∀ f v, reaches rootPageIds httpClient f a v →
          pageCache st' !! v = Some granted).
Proof.
  revert visited a st; induction fuel as [|fuel IH]; intros visited a st; [done|].
  destruct (decide (a ∈ visited)) as [Hin|Hout].
  { rewrite hierarchy_loop_revisit by done.
    destruct (after_loop_done visited st) as (s & -> & _). done. }
  destruct (non_empty a) eqn:Hne.
  - rewrite hierarchy_loop_enter by done.
    destruct (loop_body rootPageIds httpClient fuel (visited ++ [a]) a st)
      as [|[step|e] s] eqn:Eb; [done| |done].
    pose proof Eb as Hinv.
    apply loop_body_inv in Hinv as [[Hroot ->]|(Hroot & r & s0 & Hg & ->)].
    + intros [= <-].
      assert (∀ k, k ∈ visited ++ [a] → pageCache s !! k = Some granted) as Hall.
      { unfold loop_body in Eb. rewrite bool_decide_eq_true_2 in Eb by done.
        unfold bind in Eb.
        destruct (cache_all (visited ++ [a]) granted st) as [|[[]|] s1] eqn:Ec;
          [done| |done].
        injection Eb as <-. by eapply cache_all_sets. }
      split; [intros v Hv; apply Hall; set_solver|].
      intros f v Hreach. inversion Hreach; subst; [apply Hall; set_solver|done].
    + destruct r as [p|e]; [|done].
      destruct (truthy p) eqn:Hp.
      * destruct p as [p|]; [|done].
        intros [Hvis Hup]%IH.
        split; [intros v Hv; apply Hvis; set_solver|].
        intros f v Hreach.
        inversion Hreach as [|? p' s' ? _ Hg' _ Hrest]; subst.
        -- apply Hvis. set_solver.
        -- pose proof (getParentPageId_agree _ _ _ _ _ _ _ Hg Hg') as [= <-].
           by eapply Hup.
      * destruct (after_loop_done (visited ++ [a]) s) as (s' & -> & _). done.
  - simpl. rewrite Hne. simpl.
    destruct (after_loop_done visited st) as (s & -> & _). done.
Qed.

(** The probe starts with the lookup of the id as a page. *)
Lemma findRootPageForResource_first_call fuel id st r s :
  findRootPageForResource httpClient fuel id st = Done r s →
  ∃ l, calls s = l ++ (retrieve_a_page, id) :: calls st.
Proof.
  intros Hrun.
  assert (state_grows (called retrieve_a_page id st) s) as [[l Hl] _].
  { destruct (httpClient retrieve_a_page id) as [data|e] eqn:Hp.
    - rewrite (findRootPageForResource_page _ _ _ _ _ Hp) in Hrun.
      injection Hrun as _ <-. apply state_grows_refl.
    - rewrite (findRootPageForResource_not_page _ _ _ _ _ Hp) in Hrun.
      destruct (getDatabaseParent _ _ _ _) as [|rd s1] eqn:Ed; [done|].
      pose proof (lookup_only_grows _ _ _ _
                    (lookup_only_getDatabaseParent httpClient fuel id) Ed) as Hd.
      destruct (truthy _); [by injection Hrun as _ <-|].
      destruct (resolveBlockToPage _ _ _ _) as [|rb s2] eqn:Eb; [done|].
      pose proof (lookup_only_grows _ _ _ _
                    (lookup_only_resolveBlockToPage httpClient fuel id) Eb) as Hb.
      destruct (truthy _); injection Hrun as _ <-;
        by eapply state_grows_trans. }
  exists l. by rewrite Hl.
Qed.

End Sharing.

(** X13. [clearCache] really empties the cache: a query for an id that is
    no root, made after it, goes back to the provider, beginning with the
    lookup of the id as a page. *)
Theorem clearCache_forces_new_lookup
    (rootPageIds : gset string) (httpClient : HttpClient)
    (fuel : nat) (resourceId id : string) (st st0 st' : State) (r : Result bool) :
  isEnabled rootPageIds = true →
  normalizePageId resourceId = Ok id → id ∉ rootPageIds →
  clearCache st = Done (Ok tt) st0 →
  isPageAllowed rootPageIds httpClient fuel resourceId st0 = Done r st' →
  ∃ l, calls st' = l ++ (retrieve_a_page, id) :: calls st.
Proof.
  intros Hen Hn Hroot [= <-] Hrun.
  rewrite (isPageAllowed_miss _ _ _ _ _ _ Hen Hn Hroot) in Hrun
    by apply lookup_empty.
  unfold bind at 1 in Hrun.
  destruct (findRootPageForResource httpClient fuel id _) as [|[a|e] s] eqn:Ef;
    [done| |by destruct (findRootPageForResource_never_throws _ _ _ _ _ _ Ef)].
  apply findRootPageForResource_first_call in Ef as [l Hl]. simpl in Hl.
  destruct (negb (truthy a)).
  - unfold bind, cache_set, ret in Hrun. injection Hrun as _ <-. by exists l.
  - unfold bind at 1, checkPageHierarchy in Hrun.
    destruct (hierarchy_loop _ _ _ _ _ s) as [|[b|e] s2] eqn:Eh;
      [done| |by destruct (never_throws_hierarchy_loop _ _ _ _ _ _ _ _ Eh)].
    apply hierarchy_loop_grows in Eh as [[l2 Hl2] _].
    unfold bind, cache_set, ret in Hrun. injection Hrun as _ <-. simpl.
    exists (l2 ++ l). by rewrite Hl2, Hl, app_assoc.
Qed.

Lemma clearCache_forces_new_lookup_witness :
  ∃ st1 st0 st2,
    isPageAllowed {[Scenario.P1]} Scenario.locked_parent 2 Scenario.X fresh
    = Done (Ok false) st1 ∧
    clearCache st1 = Done (Ok tt) st0 ∧
    isPageAllowed {[Scenario.P1]} Scenario.locked_parent 2 Scenario.X st0
    = Done (Ok false) st2 ∧
    ∃ l, calls st2 = l ++ (retrieve_a_page, Scenario.X) :: calls st1.
Proof.
  assert (Hen : isEnabled ({[Scenario.P1]} : gset string) = true) by reflexivity.
  assert (X_root : Scenario.X ∉ ({[Scenario.P1]} : gset string)).
  { intros ?%elem_of_singleton. done. }
  assert (P2_root : Scenario.P2 ∉ ({[Scenario.P1]} : gset string)).
  { intros ?%elem_of_singleton. done. }
  pose proof (unreadable_parent_run
                {[Scenario.P1]} Scenario.locked_parent Scenario.X Scenario.P2
                Scenario.not_found 2 fresh Hen eq_refl X_root P2_root eq_refl
                eq_refl eq_refl eq_refl ltac:(lia)) as Hrun1.
  eexists;
    exists {| pageCache := ∅;
              calls := [(retrieve_a_page, Scenario.P2);
                        (retrieve_a_page, Scenario.X);
                        (retrieve_a_page, Scenario.X)] |};
    eexists.
  pose proof (unreadable_parent_run
                {[Scenario.P1]} Scenario.locked_parent Scenario.X Scenario.P2
                Scenario.not_found 2
                {| pageCache := ∅;
                   calls := [(retrieve_a_page, Scenario.P2);
                             (retrieve_a_page, Scenario.X);
                             (retrieve_a_page, Scenario.X)] |}
                Hen eq_refl X_root P2_root eq_refl
                (lookup_empty _) eq_refl eq_refl ltac:(lia)) as Hrun2.
  split; [exact Hrun1|]. split; [reflexivity|]. split; [exact Hrun2|].
  by apply (clearCache_forces_new_lookup {[Scenario.P1]} Scenario.locked_parent
              2 Scenario.X Scenario.X _ _ _ (Ok false) Hen eq_refl X_root
              eq_refl Hrun2).
Defined.

(** X14. A grant is shared with the pages above: after [isPageAllowed]
    answered [true] for an id that was not in the cache, every page on the
    way up from the page that the probe found for it has a cache entry
    that says allowed, so that a later query for such a page is answered
    [true] without any provider call. *)
Theorem isPageAllowed_grant_covers_ancestors
    (rootPageIds : gset string) (httpClient : HttpClient)
    (fuel f : nat) (resourceId id a v : string) (s st st' : State) :
  isEnabled rootPageIds = true →
  normalizePageId resourceId = Ok id → id ∉ rootPageIds →
  pageCache st !! id = None →
  findRootPageForResource httpClient f id fresh = Done (Ok (Some a)) s →
  reaches rootPageIds httpClient f a v →
  isPageAllowed rootPageIds httpClient fuel resourceId st = Done (Ok true) st' →
  (∃ entry, pageCache st' !! v = Some entry ∧ isAllowed entry = true) ∧
  (∀ raw fuel', normalizePageId raw = Ok v →
     isPageAllowed rootPageIds httpClient fuel' raw st' = Done (Ok true) st').
Proof.
  intros Hen Hn Hroot Hmiss Hprobe Hreach Hrun.
  assert (∃ entry, pageCache st' !! v = Some entry ∧ isAllowed entry = true)
    as Hentry.
  { rewrite (isPageAllowed_miss _ _ _ _ _ _ Hen Hn Hroot Hmiss) in Hrun.
    unfold bind at 1 in Hrun.
    destruct (findRootPageForResource httpClient fuel id st) as [|[a'|e] s1] eqn:Ef;
      [done| |done].
    destruct (lookup_only_at_fresh _ _ _ _
                (lookup_only_findRootPageForResource httpClient fuel id) Ef)
      as [s0 Hs0].
    pose proof (findRootPageForResource_agree _ _ _ _ _ _ _ _ Hprobe Hs0)
      as [= <-].
    destruct (negb (truthy (Some a))); [done|].
    unfold bind at 1, checkPageHierarchy in Hrun. simpl in Hrun.
    destruct (hierarchy_loop rootPageIds httpClient fuel [] (Some a) s1)
      as [|[[]|e] s2] eqn:Eh; [done| |done|done].
    apply hierarchy_loop_grants in Eh as [_ Hup].
    unfold bind, cache_set, ret in Hrun. injection Hrun as <-. simpl.
    destruct (decide (id = v)) as [->|Hne].
    - rewrite lookup_insert_eq. by eexists.
    - rewrite lookup_insert_ne by done. exists granted. split; [|done].
      by eapply Hup. }
  split; [done|]. intros raw fuel' Hraw.
  destruct (decide (v ∈ rootPageIds)) as [Hv|Hv].
  - by eapply isPageAllowed_root.
  - destruct Hentry as (entry & Hentry & <-). by eapply isPageAllowed_hit.
Qed.

Lemma isPageAllowed_grant_covers_ancestors_witness :
  ∃ st',
    isPageAllowed {[Scenario.P1]} Scenario.nested_block 3 Scenario.X fresh
    = Done (Ok true) st' ∧
    (∃ entry, pageCache st' !! Scenario.P1 = Some entry ∧ isAllowed entry = true) ∧
    (∀ raw fuel', normalizePageId raw = Ok Scenario.P1 →
       isPageAllowed {[Scenario.P1]} Scenario.nested_block fuel' raw st'
       = Done (Ok true) st').
Proof.
  assert (Hen : isEnabled ({[Scenario.P1]} : gset string) = true) by reflexivity.
  assert (P1_root : Scenario.P1 ∈ ({[Scenario.P1]} : gset string)) by set_solver.
  assert (X_root : Scenario.X ∉ ({[Scenario.P1]} : gset string)).
  { intros ?%elem_of_singleton. done. }
  destruct (block_child_allowed {[Scenario.P1]} Scenario.nested_block
              Scenario.X Scenario.B1 Scenario.P1 Hen P1_root eq_refl eq_refl
              fresh 3 eq_refl X_root eq_refl eq_refl ltac:(lia))
    as (st' & Hrun & _).
  exists st'. split; [exact Hrun|].
  apply (isPageAllowed_grant_covers_ancestors
           {[Scenario.P1]} Scenario.nested_block 3 1
           Scenario.X Scenario.X Scenario.X Scenario.P1
           (called retrieve_a_page Scenario.X fresh) fresh st'
           Hen eq_refl X_root eq_refl eq_refl); [|exact Hrun].
  eapply (reaches_up _ _ 1 Scenario.X Scenario.P1);
    [exact X_root|reflexivity|reflexivity|apply reaches_here].
Defined.

(** ** The resource id of a request *)

Section RequestFacts.

Lemma is_prefix_app p q s : is_prefix (p ++ q) s = true → is_prefix p s = true.
Proof.
  revert s; induction p as [|c p IH]; intros s; simpl; [done|].
  destruct s as [|d s]; [done|].
  intros [-> H]%andb_true_iff. simpl. by apply IH.
Qed.

Lemma includes_from_app p q s :
  includes_from (p ++ q) s = true → includes_from p s = true.
Proof.
  induction s as [|d s IH]; simpl.
  - rewrite !orb_false_r. apply is_prefix_app.
  - intros [H|H]%orb_true_iff; apply orb_true_iff.
    + left. by eapply is_prefix_app.
    + right. by apply IH.
Qed.

(** A path with [/pages/] in it has [/pages] in it. *)
Lemma includes_pages path :
  includes "/pages/" path = true → includes "/pages" path = true.
Proof. unfold includes. apply (includes_from_app (chars "/pages") (chars "/")). Qed.

End RequestFacts.

(** X15. [extractPageIdFromRequest] invents nothing: a non-null result is
    a non-empty id that the parameters of the request carry, as [page_id],
    [block_id], [database_id], or inside [parent]. *)
Theorem extractPageIdFromRequest_returns_a_parameter
    (path : string) (p : Request.params) (id : string) :
  Request.extractPageIdFromRequest path p = Some id →
  non_empty id = true ∧
  (Request.page_id p = Some id ∨ Request.block_id p = Some id ∨
   Request.database_id p = Some id ∨
   ∃ par, Request.parent p = Some par ∧
          (Request.parent_page_id par = Some id ∨
           Request.parent_database_id par = Some id)).
Proof.
  unfold Request.extractPageIdFromRequest.
  destruct (includes "/pages/" path && truthy (Request.page_id p)) eqn:H1.
  { apply andb_true_iff in H1 as [_ H1]. intros H. rewrite H in H1. auto. }
  destruct (includes "/blocks/" path && truthy (Request.block_id p)) eqn:H2.
  { apply andb_true_iff in H2 as [_ H2]. intros H. rewrite H in H2. auto. }
  destruct (includes "/databases/" path && includes "/query" path &&
            truthy (Request.database_id p)) eqn:H3.
  { apply andb_true_iff in H3 as [_ H3]. intros H. rewrite H in H3. auto. }
  destruct (Request.parent p) as [par|]; [|done].
  destruct (includes "/pages" path); [|done].
  destruct (truthy (Request.parent_page_id par)) eqn:H4.
  { intros H. rewrite H in H4. split; [done|]. do 3 right. eauto. }
  destruct (truthy (Request.parent_database_id par)) eqn:H5; [|done].
  intros H. rewrite H in H5. split; [done|]. do 3 right. eauto.
Qed.

Lemma extractPageIdFromRequest_returns_a_parameter_witness :
  non_empty Scenario.X = true ∧
  (Some Scenario.B1 = Some Scenario.X ∨ Some Scenario.X = Some Scenario.X ∨
   None = Some Scenario.X ∨
   ∃ par, None = Some par ∧
          (Request.parent_page_id par = Some Scenario.X ∨
           Request.parent_database_id par = Some Scenario.X)).
Proof.
  apply (extractPageIdFromRequest_returns_a_parameter
           "/v1/blocks/{block_id}/children"
           {| Request.page_id := Some Scenario.B1;
              Request.block_id := Some Scenario.X;
              Request.database_id := None; Request.parent := None |}).
  reflexivity.
Defined.

(** X16. Requests outside the guarded paths carry no resource to check:
    for a path that contains neither [/pages] nor [/blocks/], and not
    both [/databases/] and [/query], the result is null whatever the
    parameters are.  Retrieving a database by id is such a request. *)
Theorem extractPageIdFromRequest_unguarded_paths
    (path : string) (p : Request.params) :
  includes "/pages" path = false →
  includes "/blocks/" path = false →
  includes "/databases/" path && includes "/query" path = false →
  Request.extractPageIdFromRequest path p = None.
Proof.
  intros Hpages Hblocks Hquery. unfold Request.extractPageIdFromRequest.
  destruct (includes "/pages/" path) eqn:H1.
  { apply includes_pages in H1. congruence. }
  rewrite Hblocks, Hquery, Hpages. simpl. by destruct (Request.parent p).
Qed.

Lemma extractPageIdFromRequest_unguarded_paths_witness :
  Request.extractPageIdFromRequest "/v1/databases/{database_id}"
    {| Request.page_id := None; Request.block_id := None;
       Request.database_id := Some Scenario.X; Request.parent := None |}
  = None.
Proof.
  apply extractPageIdFromRequest_unguarded_paths; reflexivity.
Defined.

(** ** Comma-separated lists and the command line *)

Section TrimFacts.

Lemma drop_space_idem l : drop_space (drop_space l) = drop_space l.
Proof.
  induction l as [|c l IH]; simpl; [done|].
  destruct (Ascii.is_space c) eqn:Hc; [done|]. simpl. by rewrite Hc.
Qed.

Lemma drop_space_snoc l c :
  Ascii.is_space c = false → drop_space (l ++ [c]) = drop_space l ++ [c].
Proof.
  intros Hc. induction l as [|x l IH]; simpl; [by rewrite Hc|].
  by destruct (Ascii.is_space x).
Qed.

(** Stripping the end of a list that does not begin with white space
    leaves a list that does not begin with white space. *)
Lemma drop_space_rev_head l :
  drop_space l = l →
  drop_space (rev (drop_space (rev l))) = rev (drop_space (rev l)).
Proof.
  destruct l as [|c t]; [done|]. simpl.
  destruct (Ascii.is_space c) eqn:Hc.
  { intros H. apply (f_equal length) in H. simpl in H.
    assert (length (drop_space t) ≤ length t); [|lia].
    clear. induction t as [|x t IH]; simpl; [done|].
    destruct (Ascii.is_space x); simpl; lia. }
  intros _. rewrite drop_space_snoc by done.
  rewrite rev_app_distr. simpl. by rewrite Hc.
Qed.

Lemma trim_idempotent s : trim (trim s) = trim s.
Proof.
  unfold trim. rewrite chars_str. f_equal.
  set (l' := drop_space (chars s)).
  assert (drop_space l' = l') as Hl' by apply drop_space_idem.
  rewrite (drop_space_rev_head l' Hl').
  by rewrite rev_involutive, drop_space_idem.
Qed.

Lemma comma_list_trimmed v x :
  x ∈ StartServer.comma_list v → non_empty x = true ∧ trim x = x.
Proof.
  unfold StartServer.comma_list.
  intros [Hin Hne]%list_elem_of_In%filter_In. split; [done|].
  apply in_map_iff in Hin as (y & <- & _). apply trim_idempotent.
Qed.

Lemma env_list_trimmed v x :
  x ∈ env_list v → non_empty x = true ∧ trim x = x.
Proof.
  destruct v as [v|]; [apply comma_list_trimmed|]. by intros ?%elem_of_nil.
Qed.

(** On a list of trimmed, non-empty entries the loop over the options
    and the loop over the environment do the same. *)
Lemma add_option_ids_trimmed ids s :
  (∀ x, x ∈ ids → non_empty x = true ∧ trim x = x) →
  add_option_ids ids s = add_env_ids ids s.
Proof.
  revert s; induction ids as [|id ids IH]; intros s Hall; simpl; [done|].
  destruct (Hall id) as [Hne Htrim]; [set_solver|]. rewrite Htrim, Hne.
  destruct (normalizePageId id); [|done]. apply IH. set_solver.
Qed.

End TrimFacts.

(** X17. The entries that the constructor reads from the two environment
    variables are pieces between commas, trimmed, and never empty: blank
    pieces are dropped before any of them is normalised. *)
Theorem env_list_entries_are_trimmed (v : option string) (x : string) :
  x ∈ env_list v →
  non_empty x = true ∧ trim x = x ∧
  ∃ text piece, v = Some text ∧ piece ∈ split_comma text ∧ x = trim piece.
Proof.
  intros Hin. destruct (env_list_trimmed v x Hin) as [Hne Htrim].
  split_and!; [done..|].
  destruct v as [text|]; [|by apply elem_of_nil in Hin].
  exists text. unfold env_list in Hin.
  apply list_elem_of_In, filter_In in Hin as [Hin _].
  apply in_map_iff in Hin as (piece & <- & Hpiece).
  exists piece. split_and!; [done| |done]. by apply list_elem_of_In.
Qed.

Lemma env_list_entries_are_trimmed_witness :
  non_empty "b" = true ∧ trim "b" = "b" ∧
  ∃ text piece, Some " a, b ,,c " = Some text ∧ piece ∈ split_comma text ∧
                "b" = trim piece.
Proof.
  apply (env_list_entries_are_trimmed (Some " a, b ,,c ") "b").
  vm_compute. apply list_elem_of_further, list_elem_of_here.
Defined.

Section ParseArgsFacts.

Variable parseInt : string → option Z.

Local Abbreviation parse_loop := (StartServer.parse_loop parseInt).
Local Abbreviation parseArgs := (StartServer.parseArgs parseInt).

Lemma parse_loop_cons arg rest o :
  parse_loop (arg :: rest) o =
  match rest with
  | next :: rest' =>
      if bool_decide (arg = "--transport")
      then parse_loop rest' (StartServer.with_transport next o)
      else if bool_decide (arg = "--port")
      then parse_loop rest' (StartServer.with_port (parseInt next) o)
      else if bool_decide (arg = "--auth-token")
      then parse_loop rest' (StartServer.with_authToken next o)
      else if bool_decide (arg = "--page-id")
      then parse_loop rest'
             (StartServer.with_pageIds (StartServer.comma_list next) o)
      else if bool_decide (arg = "--page-url")
      then parse_loop rest'
             (StartServer.with_pageUrls (StartServer.comma_list next) o)
      else if StartServer.is_help arg then StartServer.Exit
      else parse_loop rest o
  | [] => if StartServer.is_help arg then StartServer.Exit
          else parse_loop rest o
  end.
Proof. by destruct rest. Qed.

(** The loop keeps a property of the two lists that every value of
    [--page-id] and [--page-url] establishes. *)
Lemma parse_loop_lists (Q : list string → Prop) args o o' :
  (∀ v, Q (StartServer.comma_list v)) →
  Q (StartServer.pageIds o) → Q (StartServer.pageUrls o) →
  parse_loop args o = StartServer.Parsed o' →
  Q (StartServer.pageIds o') ∧ Q (StartServer.pageUrls o').
Proof.
  intros HQ. remember (length args) as n eqn:Hn.
  assert (length args ≤ n) as Hlen by lia. clear Hn.
  revert args o Hlen. induction n as [|n IH]; intros args o Hlen Hids Hurls.
  { destruct args; [|simpl in Hlen; lia]. by intros [= <-]. }
  destruct args as [|arg rest]; [by intros [= <-]|].
  rewrite parse_loop_cons. simpl in Hlen. destruct rest as [|next rest'].
  - destruct (StartServer.is_help arg); [intros Hx; discriminate Hx|].
    by intros [= <-].
  - simpl in Hlen.
    repeat case_bool_decide; try (apply IH; [lia|simpl; auto..]; fail).
    destruct (StartServer.is_help arg); [intros Hx; discriminate Hx|].
    apply IH; [simpl; lia|done..].
Qed.

End ParseArgsFacts.

(** X18. Every page id and every page URL that [parseArgs] returns, taken
    from the command line or from the environment, is trimmed and not
    empty. *)
Theorem parseArgs_lists_are_trimmed
    (parseInt : string → option Z) (argv : list string) (env : ProcessEnv)
    (o : StartServer.Options) (x : string) :
  StartServer.parseArgs parseInt argv env = StartServer.Parsed o →
  x ∈ StartServer.pageIds o ∨ x ∈ StartServer.pageUrls o →
  non_empty x = true ∧ trim x = x.
Proof.
  unfold StartServer.parseArgs.
  destruct (StartServer.parse_loop parseInt (drop 2 argv) StartServer.defaults)
    as [|o0] eqn:Hloop; [done|].
  apply (parse_loop_lists parseInt
           (λ l, ∀ x, x ∈ l → non_empty x = true ∧ trim x = x)) in Hloop
    as [Hids Hurls];
    [|intros v y; apply comma_list_trimmed
     |by intros y ?%elem_of_nil|by intros y ?%elem_of_nil].
  intros [= <-]. simpl.
  intros [Hx|Hx].
  - destruct (0 <? length (StartServer.pageIds o0)); [by apply Hids|].
    by eapply env_list_trimmed.
  - destruct (0 <? length (StartServer.pageUrls o0)); [by apply Hurls|].
    by eapply env_list_trimmed.
Qed.

Lemma parseArgs_lists_are_trimmed_witness :
  non_empty Scenario.P1 = true ∧ trim Scenario.P1 = Scenario.P1.
Proof.
  apply (parseArgs_lists_are_trimmed (λ _, None)
           ["node"; "server"; "--page-id";
            " 11111111-1111-1111-1111-111111111111 , "]
           Scenario.no_env
           {| StartServer.transport := "stdio"; StartServer.port := Some 3000%Z;
              StartServer.authToken := None;
              StartServer.pageIds := [Scenario.P1];
              StartServer.pageUrls := [] |}
           Scenario.P1).
  - vm_compute. reflexivity.
  - left. apply list_elem_of_here.
Defined.

(** ** The environment, read by [parseArgs] or by the constructor *)

Section EnvTwice.

Variable parseInt : string → option Z.

Lemma parse_loop_no_flag args o o' :
  "--page-id" ∉ args → "--page-url" ∉ args →
  StartServer.parse_loop parseInt args o = StartServer.Parsed o' →
  StartServer.pageIds o' = StartServer.pageIds o ∧
  StartServer.pageUrls o' = StartServer.pageUrls o.
Proof.
  remember (length args) as n eqn:Hn.
  assert (length args ≤ n) as Hlen by lia. clear Hn.
  revert args o Hlen. induction n as [|n IH]; intros args o Hlen Hid Hurl.
  { destruct args; [|simpl in Hlen; lia]. by intros [= <-]. }
  destruct args as [|arg rest]; [by intros [= <-]|].
  rewrite parse_loop_cons. simpl in Hlen.
  apply not_elem_of_cons in Hid as [Hid Hid'].
  apply not_elem_of_cons in Hurl as [Hurl Hurl'].
  destruct rest as [|next rest'].
  - destruct (StartServer.is_help arg); [intros Hx; discriminate Hx|].
    by intros [= <-].
  - simpl in Hlen.
    assert (("--page-id" ∉ rest') ∧ ("--page-url" ∉ rest')) as [??].
    { split; [by apply not_elem_of_cons in Hid' as [_ ?]
             |by apply not_elem_of_cons in Hurl' as [_ ?]]. }
    repeat case_bool_decide; try done;
      try (intros [-> ->]%IH; [done|lia|done..]).
    destruct (StartServer.is_help arg); [intros Hx; discriminate Hx|].
    apply IH; [simpl; lia|done..].
Qed.

End EnvTwice.

Section EnvAsOptions.

Lemma add_env_ids_members ids s s' :
  add_env_ids ids s = Ok s' →
  allPageIds s ⊆ allPageIds s' ∧ (ids ≠ [] → allPageIds s' ≠ ∅).
Proof.
  revert s; induction ids as [|id ids IH]; intros s; simpl.
  { by intros [= <-]. }
  destruct (normalizePageId id) as [nid|]; [|done].
  intros [Hsub _]%IH. simpl in Hsub. split; set_solver.
Qed.

Lemma add_env_urls_roots_only urls s s' :
  allPageIds s = allPageIds s' →
  allPageIds (add_env_urls urls s) = allPageIds (add_env_urls urls s').
Proof.
  revert s s'; induction urls as [|url urls IH]; intros s s' Heq; simpl; [done|].
  destruct (extractPageIdFromUrl url); apply IH; simpl; by rewrite Heq.
Qed.

Lemma add_option_urls_trimmed urls s s' :
  (∀ x, x ∈ urls → non_empty x = true ∧ trim x = x) →
  allPageIds s = allPageIds s' →
  allPageIds (add_option_urls urls s) = allPageIds (add_env_urls urls s').
Proof.
  revert s s'; induction urls as [|url urls IH]; intros s s' Hall Heq;
    simpl; [done|].
  destruct (Hall url) as [Hne Htrim]; [set_solver|]. rewrite Htrim, Hne.
  destruct (extractPageIdFromUrl url);
    (apply IH; [set_solver|simpl; by rewrite Heq]).
Qed.

Lemma initializeRootPages_env_as_options env :
  root_set (initializeRootPages
              (make_options (env_list (NOTION_ROOT_PAGE_ID env))
                            (env_list (NOTION_ROOT_PAGE_URL env))) env)
  = root_set (initializeRootPages {| pageIds := None; pageUrls := None |} env).
Proof.
  unfold initializeRootPages, make_options. cbv zeta. simpl default.
  set (I := env_list (NOTION_ROOT_PAGE_ID env)).
  set (U := env_list (NOTION_ROOT_PAGE_URL env)).
  set (s0 := {| allPageIds := ∅; logged := [] |}).
  change (add_option_ids [] s0) with (Ok s0). cbv iota.
  change (add_option_urls [] s0) with s0.
  change (size (allPageIds s0) =? 0) with true. cbv iota.
  rewrite (add_option_ids_trimmed I s0) by apply env_list_trimmed.
  destruct (add_env_ids I s0) as [s1|e] eqn:H1; [|done].
  pose proof (add_option_urls_trimmed U s1 s1
                (env_list_trimmed _) eq_refl) as Hurls.
  destruct (size (allPageIds (add_option_urls U s1)) =? 0) eqn:Hsz.
  - apply Nat.eqb_eq, size_empty_iff, leibniz_equiv in Hsz.
    destruct (add_option_urls_spec U s1) as (Hsub & _).
    apply add_env_ids_members in H1 as [_ Hne].
    destruct I as [|id I'] eqn:HI.
    + simpl. f_equal.
      apply add_env_urls_roots_only. rewrite Hsz.
      apply leibniz_equiv. set_solver.
    + exfalso. apply Hne; [done|]. apply leibniz_equiv. set_solver.
  - simpl. by rewrite Hurls.
Qed.

End EnvAsOptions.

(** X19. Without [--page-id] and [--page-url] on the command line it makes
    no difference to the root set, or to the error, whether the two
    environment variables reach the constructor as the lists of
    [parseArgs] or are read by the constructor itself. *)
Theorem env_roots_same_through_parseArgs
    (parseInt : string → option Z) (argv : list string) (env : ProcessEnv)
    (o : StartServer.Options) :
  "--page-id" ∉ argv → "--page-url" ∉ argv →
  StartServer.parseArgs parseInt argv env = StartServer.Parsed o →
  root_set (initializeRootPages (StartServer.controller_options o) env)
  = root_set (initializeRootPages {| pageIds := None; pageUrls := None |} env).
Proof.
  intros Hid Hurl. unfold StartServer.parseArgs.
  destruct (StartServer.parse_loop parseInt (drop 2 argv) StartServer.defaults)
    as [|o0] eqn:Hloop; [done|].
  apply parse_loop_no_flag in Hloop as [Hids Hurls];
    [|intros ?%(subseteq_drop 2 argv); done..].
  rewrite Hids, Hurls. simpl. intros [= <-].
  apply initializeRootPages_env_as_options.
Qed.

Lemma env_roots_same_through_parseArgs_witness :
  root_set (initializeRootPages
              (make_options ["11111111111111111111111111111111"] [])
              {| NOTION_ROOT_PAGE_ID := Some " 11111111111111111111111111111111 ,";
                 NOTION_ROOT_PAGE_URL := None |})
  = root_set (initializeRootPages {| pageIds := None; pageUrls := None |}
                {| NOTION_ROOT_PAGE_ID := Some " 11111111111111111111111111111111 ,";
                   NOTION_ROOT_PAGE_URL := None |}).
Proof.
  apply (env_roots_same_through_parseArgs (λ _, None)
           ["node"; "server"; "--transport"; "STDIO"]
           {| NOTION_ROOT_PAGE_ID := Some " 11111111111111111111111111111111 ,";
              NOTION_ROOT_PAGE_URL := None |}
           {| StartServer.transport := "stdio"; StartServer.port := Some 3000%Z;
              StartServer.authToken := None;
              StartServer.pageIds := ["11111111111111111111111111111111"];
              StartServer.pageUrls := [] |}).
  - vm_compute. intros H. repeat (apply elem_of_cons in H as [H|H]; [discriminate H|]).
    by apply elem_of_nil in H.
  - vm_compute. intros H. repeat (apply elem_of_cons in H as [H|H]; [discriminate H|]).
    by apply elem_of_nil in H.
  - vm_compute. reflexivity.
Defined.

(** ** The cost of a walk *)

Section WalkCost.

Variable rootPageIds : gset string.
Variable httpClient : HttpClient.

Lemma page_lookups_app l1 l2 :
  page_lookups (l1 ++ l2) = page_lookups l1 ++ page_lookups l2.
Proof.
  induction l1 as [|[[] id] l1 IH]; simpl; by rewrite ?IH.
Qed.

(** Block and database resolution look up no page. *)
Lemma resolvers_look_up_no_page fuel :
  (∀ id st r st',
     resolveBlockToPage httpClient fuel id st = Done r st' →
     ∃ l, calls st' = l ++ calls st ∧ page_lookups l = []) ∧
  (∀ id st r st',
     getDatabaseParent httpClient fuel id st = Done r st' →
     ∃ l, calls st' = l ++ calls st ∧ page_lookups l = []).
Proof.
  induction fuel as [|fuel [IHb IHd]]; [by split|].
  split; intros id st r st'.
  - rewrite resolveBlockToPage_step.
    destruct (httpClient retrieve_a_block id) as [[[p|d|b|]|]|e];
      try (intros [= _ <-]; by exists [(retrieve_a_block, id)]).
    + intros (l & Hl & Hp)%IHd. exists (l ++ [(retrieve_a_block, id)]).
      rewrite page_lookups_app, Hp, Hl, <- app_assoc. done.
    + intros (l & Hl & Hp)%IHb. exists (l ++ [(retrieve_a_block, id)]).
      rewrite page_lookups_app, Hp, Hl, <- app_assoc. done.
  - rewrite getDatabaseParent_step.
    destruct (httpClient retrieve_a_database id) as [[[p|d|b|]|]|e];
      try (intros [= _ <-]; by exists [(retrieve_a_database, id)]).
    intros (l & Hl & Hp)%IHb. exists (l ++ [(retrieve_a_database, id)]).
    rewrite page_lookups_app, Hp, Hl, <- app_assoc. done.
Qed.

(** [getParentPageId] looks up one page: the one it is asked about. *)
Lemma getParentPageId_looks_up_one_page fuel id st r st' :
  getParentPageId httpClient fuel id st = Done r st' →
  ∃ l, calls st' = l ++ calls st ∧ page_lookups l = [id].
Proof.
  destruct (resolvers_look_up_no_page fuel) as [Hb Hd].
  rewrite getParentPageId_step.
  destruct (httpClient retrieve_a_page id) as [[[p|d|b|]|]|e];
    try (intros [= _ <-]; by exists [(retrieve_a_page, id)]).
  - intros (l & Hl & Hp)%Hd. exists (l ++ [(retrieve_a_page, id)]).
    rewrite page_lookups_app, Hp, Hl, <- app_assoc. done.
  - intros (l & Hl & Hp)%Hb. exists (l ++ [(retrieve_a_page, id)]).
    rewrite page_lookups_app, Hp, Hl, <- app_assoc. done.
Qed.

Lemma loop_body_looks_up fuel visited cur st r st' :
  loop_body rootPageIds httpClient fuel visited cur st = Done r st' →
  ∃ l, calls st' = l ++ calls st ∧
       (page_lookups l = [] ∨ page_lookups l = [cur]).
Proof.
  unfold loop_body. case_bool_decide as Hroot.
  - destruct (loop_body_root rootPageIds httpClient fuel visited cur st Hroot)
      as (s & Hrun & Hcalls & _).
    unfold loop_body in Hrun. rewrite bool_decide_eq_true_2 in Hrun by done.
    rewrite Hrun. intros [= _ <-]. exists []. auto.
  - unfold try_catch, bind at 1.
    destruct (getParentPageId httpClient fuel cur st) as [|[p|e] s] eqn:Eg;
      [done| |];
      apply getParentPageId_looks_up_one_page in Eg as (l & Hl & Hp);
      unfold bind, cache_set, ret.
    + destruct (truthy p); intros [= _ <-]; exists l; auto.
    + intros [= _ <-]. exists l. auto.
Qed.

Lemma hierarchy_loop_looks_up_once fuel visited cur st r st' :
  hierarchy_loop rootPageIds httpClient fuel visited cur st = Done r st' →
  ∃ l, calls st' = l ++ calls st ∧ NoDup (page_lookups l) ∧
       ∀ id, id ∈ page_lookups l → id ∉ visited.
Proof.
  revert visited cur st; induction fuel as [|fuel IH];
    intros visited cur st; [done|].
  assert (∀ s, after_loop visited s = Done r st' →
               ∃ l, calls st' = l ++ calls s ∧ NoDup (page_lookups l) ∧
                    ∀ id, id ∈ page_lookups l → id ∉ visited) as Hafter.
  { intros s Hrun.
    destruct (after_loop_done visited s) as (s' & Hs' & Hcalls & _).
    rewrite Hs' in Hrun. injection Hrun as _ <-. exists [].
    split_and!; [done|constructor|]. by intros id ?%elem_of_nil. }
  destruct cur as [c|]; [|by apply Hafter].
  destruct (decide (c ∈ visited)) as [Hin|Hout].
  { rewrite hierarchy_loop_revisit by done. by apply Hafter. }
  destruct (non_empty c) eqn:Hne; [|simpl; rewrite Hne; by apply Hafter].
  rewrite hierarchy_loop_enter by done.
  destruct (loop_body rootPageIds httpClient fuel (visited ++ [c]) c st)
    as [|[[p| |b]|e] s] eqn:Eb; [done|..];
    apply loop_body_looks_up in Eb as (l1 & Hl1 & Hp1).
  - intros (l2 & Hl2 & Hnd & Havoid)%IH. exists (l2 ++ l1).
    rewrite Hl2, Hl1, app_assoc, page_lookups_app. split_and!; [done| |].
    + apply NoDup_app. split_and!; [done| |].
      * intros id Hid Hid1. apply (Havoid id Hid).
        destruct Hp1 as [Hp1|Hp1]; rewrite Hp1 in Hid1; set_solver.
      * destruct Hp1 as [-> | ->]; [constructor|apply NoDup_singleton].
    + intros id [Hid|Hid]%elem_of_app.
      * specialize (Havoid id Hid). set_solver.
      * destruct Hp1 as [Hp1|Hp1]; rewrite Hp1 in Hid; set_solver.
  - intros Hrun.
    destruct (after_loop_done (visited ++ [c]) s) as (s' & Hs' & Hcalls & _).
    rewrite Hs' in Hrun. injection Hrun as _ <-. exists l1.
    rewrite Hcalls. split_and!; [done| |].
    + destruct Hp1 as [-> | ->]; [constructor|apply NoDup_singleton].
    + intros id Hid. destruct Hp1 as [Hp1|Hp1]; rewrite Hp1 in Hid; set_solver.
  - intros [= _ <-]. exists l1. split_and!; [done| |].
    + destruct Hp1 as [-> | ->]; [constructor|apply NoDup_singleton].
    + intros id Hid. destruct Hp1 as [Hp1|Hp1]; rewrite Hp1 in Hid; set_solver.
  - intros [= _ <-]. exists l1. split_and!; [done| |].
    + destruct Hp1 as [-> | ->]; [constructor|apply NoDup_singleton].
    + intros id Hid. destruct Hp1 as [Hp1|Hp1]; rewrite Hp1 in Hid; set_solver.
Qed.

End WalkCost.

(** X20. A walk never looks up the same page twice: among the provider
    calls that one run of [checkPageHierarchy] makes, the page lookups
    are pairwise different, whatever the provider answers (cycles
    included).  Block and database lookups are not counted. *)
Theorem checkPageHierarchy_looks_up_each_page_once
    (rootPageIds : gset string) (httpClient : HttpClient)
    (fuel : nat) (pageId : string) (st st' : State) (r : Result bool) :
  checkPageHierarchy rootPageIds httpClient fuel pageId st = Done r st' →
  ∃ l, calls st' = l ++ calls st ∧ NoDup (page_lookups l).
Proof.
  intros (l & Hl & Hnd & _)%hierarchy_loop_looks_up_once. by exists l.
Qed.

Lemma checkPageHierarchy_looks_up_each_page_once_witness :
  ∃ st' l,
    checkPageHierarchy {[Scenario.P1]} Scenario.page_cycle 3 Scenario.X fresh
    = Done (Ok false) st' ∧
    calls st' = l ++ calls fresh ∧ NoDup (page_lookups l).
Proof.
  destruct (checkPageHierarchy {[Scenario.P1]} Scenario.page_cycle 3 Scenario.X fresh)
    as [|[[]|] st'] eqn:Hrun;
    try (vm_compute in Hrun; discriminate Hrun).
  destruct (checkPageHierarchy_looks_up_each_page_once _ _ _ _ _ _ _ Hrun)
    as (l & Hl & Hnd).
  by exists st', l.
Defined.
